(** * Replicated bulletin board: a shallow embedding of the article servers

    The repository holds one unified server ([src/server.py], three
    consistency modes selected by a string) and three standalone servers, one
    per mode ([src/Sequential/server.py], [src/ryw/server.py],
    [src/quorum/server.py]).  This development embeds the message handlers of
    [src/server.py] in full, and the handlers of the standalone Read-Your-Writes
    and Quorum servers where their text differs from the unified one; the
    handlers of [src/Sequential/server.py] are the Sequential handlers of the
    unified server.

    Modelling decisions.
    - A handler is a computation in a state-and-exception monad.  The state is
      the server object together with the two things a handler consumes from
      outside: replies of peers to [send_message], and draws of the random
      generator.  A handler runs to completion; interleavings of handler
      threads between two lock regions are not modelled.
    - Python integers are [Z]; quorum sizes, which count servers, are [nat].
    - Messages are typed as the repository's own clients and servers build
      them: a missing or ill-typed JSON field is outside the model, except
      for the session tag of a [new_article] (absent in Sequential traffic,
      read with [[]] by the Read-Your-Writes handler) and for the
      [article_id] of a [read_article_content] on [src/ryw/server.py], whose
      store can hold an article without an id.
    - [random.sample] belongs to the Python standard library; it is modelled
      by the partial shuffle that CPython runs on a copy of a population of up
      to 21 elements (beyond, it draws positions and rejects repeated ones).
    - The replies of peers are an input: [send_message] does not run the
      peer.  The examples that involve several servers compute each reply
      from the state of the peer with [answer].  [send_message] reads a
      reply once, 4096 bytes at most; where a property depends on a reply
      being read whole, it says so with [Transport.delivered].

    Beside the handlers, the development embeds the loop of
    [handle_connection] that feeds them (with [json.loads] as a parameter, and
    bytes that decode), the test on the quorum sizes and the server list of
    [__main__], one round of [synchronize], and [display_articles] of the
    clients ([src/client.py], [src/quorum/client.py],
    [src/Sequential/client.py], the same text in the three). *)

From Stdlib Require Import ZArith Lia.
From Stdlib Require QArith.
From stdpp Require Import base option list list_numbers gmap strings sorting.

Local Open Scope string_scope.
Local Open Scope list_scope.
Local Open Scope Z_scope.

(** ** Addresses, articles and wire formats *)

(** [(host, port)] tuples. *)
Definition address : Type := string * Z.

(** [class Article] of [src/server.py]; [client_id] and [write_counter]
    default to [None]. *)
Module Article.
Record t := mk {
  id : Z;
  parent_id : option Z;
  title : string;
  content : string;
  client_id : option string;
  write_counter : option Z
}.
End Article.

(** The dictionary [{'id', 'parent_id', 'title', 'content'}] of [new_article],
    [write_article] and [article_content]. *)
Module Wire.
Record t := mk {
  id : Z;
  parent_id : option Z;
  title : string;
  content : string
}.
End Wire.

(** The six-key dictionary of [new_articles] and [send_missing_articles]. *)
Module Tagged.
Record t := mk {
  id : Z;
  parent_id : option Z;
  title : string;
  content : string;
  client_id : string;
  write_counter : Z
}.
End Tagged.

(** An entry of [articles_list]: [read_articles] answers without the
    ['content'] key, [get_articles] with it. *)
Module Listing.
Record t := mk {
  id : Z;
  parent_id : option Z;
  title : string;
  content : option string
}.
End Listing.

(** Payload of [post_article] and [reply_article] ([parent_id] is absent in a
    post).  [client_id] and [write_counter] are read by the Read-Your-Writes
    handlers only, with [message.get]: the payloads of this type carry both,
    as a client in that mode sends them.  A write without them, which those
    handlers store untagged, is not a value of this type. *)
Module Post.
Record t := mk {
  client_id : string;
  write_counter : Z;
  parent_id : option Z;
  title : string;
  content : string
}.
End Post.

Module Msg.
Inductive t :=
| client_connect (client_id : string) (write_counter : Z)
| post_article (p : Post.t)
| reply_article (p : Post.t)
| read_articles
| read_article_content (article_id : Z)
| new_article (article : Wire.t) (session : option (string * Z))
| write_article (article : Wire.t)
| get_articles
| get_article_content (article_id : Z)
| request_missing_articles (client_id : string) (counters : list Z)
| send_missing_articles (articles : list Tagged.t)
| get_next_article_id
| new_articles (articles : list Tagged.t)
| other (type : string).
End Msg.

Module Rsp.
Inductive t :=
| connect_ack
| post_success (article_id : option Z)
| articles_list (articles : list Listing.t)
| article_content (article : Wire.t)
| article_ack (article_id : Z)
| write_ack
| ack
| send_missing_articles (articles : list Tagged.t)
| next_article_id (article_id : Z)
| error (message : string).
End Rsp.

(** ** The handler monad *)

Inductive exn :=
| ConnectionError   (* socket failure inside [send_message] *)
| KeyError          (* [d[k]] on a dictionary without [k] *)
| ValueError        (* [random.sample] with a sample larger than the population *)
| AttributeError    (* call of a method the class does not define *)
| Failure (message : string).   (* [raise Exception(message)] *)

Inductive result (A : Type) :=
| Returned (a : A)
| Raised (e : exn).
Arguments Returned {A} a.
Arguments Raised {A} e.

(** What a running handler sees: its server object [srv]; the peers, as the
    reply [net k] to the [k]-th call of [send_message] ([None]: the call
    raises); the calls made so far, [outbox]; the generator, as the stream
    [rng] of which [drawn] numbers are used. *)
Record World (St : Type) := mkWorld {
  srv : St;
  net : nat → option Rsp.t;
  outbox : list (address * Msg.t);
  rng : nat → nat;
  drawn : nat
}.
Arguments mkWorld {St}.
Arguments srv {St}.
Arguments net {St}.
Arguments outbox {St}.
Arguments rng {St}.
Arguments drawn {St}.

Definition M (St A : Type) : Type := World St → result A * World St.

#[global] Instance M_ret {St} : MRet (M St) := λ A a w, (Returned a, w).

#[global] Instance M_bind {St} : MBind (M St) := λ A B f m w,
  match m w with
  | (Returned a, w') => f a w'
  | (Raised e, w') => (Raised e, w')
  end.

#[global] Instance M_fmap {St} : FMap (M St) := λ A B f m, a ← m; mret (f a).

Definition raise {St A} (e : exn) : M St A := λ w, (Raised e, w).

(** [try: body / except Exception: handler]. *)
Definition try_except {St A} (body : M St A) (handler : exn → M St A) : M St A := λ w,
  match body w with
  | (Returned a, w') => (Returned a, w')
  | (Raised e, w') => handler e w'
  end.

(** Reading [self] and assigning to its attributes. *)
Definition self {St} : M St St := λ w, (Returned (srv w), w).

Definition assign {St} (f : St → St) : M St unit := λ w,
  (Returned tt, mkWorld (f (srv w)) (net w) (outbox w) (rng w) (drawn w)).

(** [for x in l: body]. *)
Fixpoint for_ {St A} (l : list A) (body : A → M St unit) : M St unit :=
  match l with
  | [] => mret tt
  | x :: l' => body x ;; for_ l' body
  end.

(** A [for] loop that updates local variables, gathered in [acc]. *)
Fixpoint for_acc {St A B} (l : list A) (acc : B) (body : B → A → M St B) : M St B :=
  match l with
  | [] => mret acc
  | x :: l' => acc' ← body acc x; for_acc l' acc' body
  end.

(** [send_message]: one request, one reply, or an exception of the socket
    layer. *)
Definition send_message {St} (addr : address) (message : Msg.t) : M St Rsp.t := λ w,
  let w' := mkWorld (srv w) (net w) (outbox w ++ [(addr, message)]) (rng w) (drawn w) in
  match net w (length (outbox w)) with
  | Some response => (Returned response, w')
  | None => (Raised ConnectionError, w')
  end.

(** [randbelow n] of the generator: the next number of the stream, reduced
    to [0 .. n-1]. *)
Definition randbelow {St} (n : nat) : M St nat := λ w,
  (Returned (rng w (drawn w) `mod` n)%nat,
   mkWorld (srv w) (net w) (outbox w) (rng w) (S (drawn w))).

(** [random.sample(population, k)], selection from a pool:
[[
    pool = list(population)
    for i in range(k):
        j = randbelow(n - i)
        result[i] = pool[j]
        pool[j] = pool[n - i - 1]
]]
    The pool of the next round is the current one with slot [j] overwritten
    by the last slot, and the last slot dropped. *)
Definition pool_remove {A} (pool : list A) (j : nat) : list A :=
  match last pool with
  | Some z => take (length pool - 1) (<[j := z]> pool)
  | None => pool
  end.

Fixpoint sample_rounds {St A} (pool : list A) (k : nat) : M St (list A) :=
  match k with
  | O => mret []
  | S k' =>
      j ← randbelow (length pool);
      match pool !! j with
      | Some x => rest ← sample_rounds (pool_remove pool j) k'; mret (x :: rest)
      | None => raise ValueError
      end
  end.

Definition random_sample {St A} (population : list A) (k : nat) : M St (list A) :=
  if decide (k ≤ length population)%nat
  then sample_rounds population k
  else raise ValueError.

(** ** Python containers used by the handlers *)

(** A [dict] keyed by article id, in insertion order: assigning to a key that
    is present replaces the value in place, assigning to a new key appends. *)
Fixpoint dict_set {V} (k : Z) (v : V) (d : list (Z * V)) : list (Z * V) :=
  match d with
  | [] => [(k, v)]
  | (k', v') :: d' => if decide (k' = k) then (k, v) :: d' else (k', v') :: dict_set k v d'
  end.

Definition dict_mem {V} (k : Z) (d : list (Z * V)) : bool :=
  bool_decide (k ∈ d.*1).

Definition dict_values {V} (d : list (Z * V)) : list V := d.*2.

(** [list.sort(key=...)]: a stable sort, here by insertion. *)
Fixpoint insert_by {A} (key : A → Z) (x : A) (l : list A) : list A :=
  match l with
  | [] => [x]
  | y :: l' => if decide (key x ≤ key y) then x :: y :: l' else y :: insert_by key x l'
  end.

Definition sort_by {A} (key : A → Z) (l : list A) : list A :=
  foldr (insert_by key) [] l.

(** ** [src/server.py] *)

Module Unified.

Record Server := mkServer {
  host : string;
  port : Z;
  coordinator_address : address;
  server_addresses : list address;
  is_coordinator : bool;
  consistency_model : string;
  N : nat;
  NR : nat;
  NW : nat;
  next_article_id : Z;
  articles : list Article.t;
  client_write_counters : gmap string Z
}.

(** [Server.__init__]. *)
Definition init (host : string) (port : Z) (coordinator_address : address)
    (server_addresses : list address) (consistency_model : string)
    (N NR NW : nat) (is_coordinator : bool) : Server :=
  mkServer host port coordinator_address server_addresses is_coordinator
           consistency_model N NR NW 1 [] ∅.

Definition set_next_article_id (v : Z) (s : Server) : Server :=
  mkServer (host s) (port s) (coordinator_address s) (server_addresses s)
           (is_coordinator s) (consistency_model s) (N s) (NR s) (NW s)
           v (articles s) (client_write_counters s).

Definition set_articles (v : list Article.t) (s : Server) : Server :=
  mkServer (host s) (port s) (coordinator_address s) (server_addresses s)
           (is_coordinator s) (consistency_model s) (N s) (NR s) (NW s)
           (next_article_id s) v (client_write_counters s).

Definition set_client_write_counters (v : gmap string Z) (s : Server) : Server :=
  mkServer (host s) (port s) (coordinator_address s) (server_addresses s)
           (is_coordinator s) (consistency_model s) (N s) (NR s) (NW s)
           (next_article_id s) (articles s) v.

(** [(self.host, self.port)]. *)
Definition me (s : Server) : address := (host s, port s).

(** [self.articles.append(article)]. *)
Definition append (article : Article.t) : M Server unit :=
  assign (λ s, set_articles (articles s ++ [article]) s).

(** [self.client_write_counters.get(client_id, 0)]. *)
Definition counter_of (s : Server) (client_id : string) : Z :=
  default 0 (client_write_counters s !! client_id).

(** [self.client_write_counters[client_id] = v]. *)
Definition set_counter (client_id : string) (v : Z) : M Server unit :=
  assign (λ s, set_client_write_counters (<[client_id := v]> (client_write_counters s)) s).

(** [next((a for a in self.articles if a.id == article_id), None)]. *)
Definition lookup_article (article_id : Z) (l : list Article.t) : option Article.t :=
  List.find (λ a, bool_decide (Article.id a = article_id)) l.

(** [any(a.id == article_id for a in self.articles)]. *)
Definition holds (article_id : Z) (l : list Article.t) : bool :=
  existsb (λ a, bool_decide (Article.id a = article_id)) l.

Definition wire_of (a : Article.t) : Wire.t :=
  Wire.mk (Article.id a) (Article.parent_id a) (Article.title a) (Article.content a).

Definition of_wire (d : Wire.t) : Article.t :=
  Article.mk (Wire.id d) (Wire.parent_id d) (Wire.title d) (Wire.content d) None None.

Definition of_tagged (d : Tagged.t) : Article.t :=
  Article.mk (Tagged.id d) (Tagged.parent_id d) (Tagged.title d) (Tagged.content d)
             (Some (Tagged.client_id d)) (Some (Tagged.write_counter d)).

(** [{'id': a.id, 'parent_id': a.parent_id, 'title': a.title}]. *)
Definition summary_of (a : Article.t) : Listing.t :=
  Listing.mk (Article.id a) (Article.parent_id a) (Article.title a) None.

(** The same with ['content': a.content]. *)
Definition listing_of (a : Article.t) : Listing.t :=
  Listing.mk (Article.id a) (Article.parent_id a) (Article.title a) (Some (Article.content a)).

Definition forward_to_coordinator (message : Msg.t) : M Server Rsp.t :=
  try_except
    (s ← self;
     send_message (coordinator_address s) message)
    (λ _, mret (Rsp.error "Unable to contact coordinator")).

(** *** Sequential consistency *)

Definition propagate_article_sequential (article : Article.t) : M Server unit :=
  let message := Msg.new_article (wire_of article) None in
  s ← self;
  for_ (server_addresses s) (λ addr,
    if decide (addr ≠ me s) then
      try_except (send_message addr message ;; mret tt) (λ _, mret tt)
    else mret tt).

Definition handle_post_article_sequential (p : Post.t) : M Server Rsp.t :=
  s ← self;
  if is_coordinator s then
    let title := Post.title p in
    let content := Post.content p in
    let article_id := next_article_id s in
    assign (set_next_article_id (article_id + 1)) ;;
    let article := Article.mk article_id None title content None None in
    append article ;;
    propagate_article_sequential article ;;
    mret (Rsp.post_success (Some article_id))
  else
    forward_to_coordinator (Msg.post_article p).

Definition handle_reply_article_sequential (p : Post.t) : M Server Rsp.t :=
  s ← self;
  if is_coordinator s then
    let parent_id := Post.parent_id p in
    let title := Post.title p in
    let content := Post.content p in
    let article_id := next_article_id s in
    assign (set_next_article_id (article_id + 1)) ;;
    let article := Article.mk article_id parent_id title content None None in
    append article ;;
    propagate_article_sequential article ;;
    mret (Rsp.post_success (Some article_id))
  else
    forward_to_coordinator (Msg.reply_article p).

Definition handle_new_article_sequential (article_data : Wire.t) : M Server Rsp.t :=
  let article := of_wire article_data in
  append article ;;
  mret (Rsp.article_ack (Article.id article)).

Definition handle_read_articles_sequential : M Server Rsp.t :=
  s ← self;
  let articles_list := summary_of <$> articles s in
  mret (Rsp.articles_list articles_list).

Definition handle_read_article_content_sequential (article_id : Z) : M Server Rsp.t :=
  s ← self;
  match lookup_article article_id (articles s) with
  | Some article => mret (Rsp.article_content (wire_of article))
  | None => mret (Rsp.error "Article not found")
  end.

(** *** Read-Your-Writes consistency *)

(** The body of the loop [for article_data in articles] that
    [get_missing_articles] runs on a reply. *)
Definition store_tagged (article_data : Tagged.t) : M Server unit :=
  let article := of_tagged article_data in
  append article ;;
  let client_id := Tagged.client_id article_data in
  let write_counter := Tagged.write_counter article_data in
  s ← self;
  set_counter client_id (Z.max (counter_of s client_id) write_counter).

Definition get_missing_articles (client_id : string) (missing_counters : list Z)
    : M Server unit :=
  let message := Msg.request_missing_articles client_id missing_counters in
  s ← self;
  for_ (server_addresses s) (λ addr,
    if decide (addr ≠ me s) then
      try_except
        (response ← send_message addr message;
         match response with
         | Rsp.send_missing_articles articles => for_ articles store_tagged
         | _ => mret tt
         end)
        (λ _, mret tt)
    else mret tt).

Definition handle_client_connect (client_id : string) (client_write_counter : Z)
    : M Server Rsp.t :=
  s ← self;
  let latest_counter := counter_of s client_id in
  let missing_counters :=
    if decide (latest_counter < client_write_counter)
    then seqZ (latest_counter + 1) (client_write_counter - latest_counter)
    else [] in
  match missing_counters with
  | [] => mret tt
  | _ :: _ => get_missing_articles client_id missing_counters
  end ;;
  mret Rsp.connect_ack.

Definition get_next_article_id : M Server (option Z) :=
  s ← self;
  if is_coordinator s then
    let article_id := next_article_id s in
    assign (set_next_article_id (article_id + 1)) ;;
    mret (Some article_id)
  else
    let message := Msg.get_next_article_id in
    try_except
      (response ← send_message (coordinator_address s) message;
       match response with
       | Rsp.next_article_id article_id => mret (Some article_id)
       | _ => raise (Failure "Error getting article ID from coordinator")
       end)
      (λ _, mret None).

Definition handle_post_article_read_your_writes (p : Post.t) : M Server Rsp.t :=
  let client_id := Post.client_id p in
  let write_counter := Post.write_counter p in
  let title := Post.title p in
  let content := Post.content p in
  article_id ← get_next_article_id;
  match article_id with
  | None => mret (Rsp.error "Failed to get article ID from coordinator")
  | Some article_id =>
      let article :=
        Article.mk article_id None title content (Some client_id) (Some write_counter) in
      append article ;;
      set_counter client_id write_counter ;;
      mret (Rsp.post_success (Some article_id))
  end.

Definition handle_reply_article_read_your_writes (p : Post.t) : M Server Rsp.t :=
  let client_id := Post.client_id p in
  let write_counter := Post.write_counter p in
  let parent_id := Post.parent_id p in
  let title := Post.title p in
  let content := Post.content p in
  article_id ← get_next_article_id;
  match article_id with
  | None => mret (Rsp.error "Failed to get article ID from coordinator")
  | Some article_id =>
      let article :=
        Article.mk article_id parent_id title content (Some client_id) (Some write_counter) in
      append article ;;
      set_counter client_id write_counter ;;
      mret (Rsp.post_success (Some article_id))
  end.

Definition handle_new_article_read_your_writes (article_data : Wire.t)
    (session : option (string * Z)) : M Server Rsp.t :=
  match session with
  | None => raise KeyError
  | Some (client_id, write_counter) =>
      let article :=
        Article.mk (Wire.id article_data) (Wire.parent_id article_data)
                   (Wire.title article_data) (Wire.content article_data)
                   (Some client_id) (Some write_counter) in
      append article ;;
      s ← self;
      set_counter client_id (Z.max (counter_of s client_id) write_counter) ;;
      mret (Rsp.article_ack (Article.id article))
  end.

Definition handle_new_articles (articles_ : list Tagged.t) : M Server Rsp.t :=
  for_ articles_ (λ article_data,
    let article_id := Tagged.id article_data in
    s ← self;
    if negb (holds article_id (articles s)) then
      let article := of_tagged article_data in
      append article ;;
      let client_id := Tagged.client_id article_data in
      let write_counter := Tagged.write_counter article_data in
      s ← self;
      set_counter client_id (Z.max (counter_of s client_id) write_counter)
    else mret tt) ;;
  mret Rsp.ack.

(** [[a for a in self.articles if a.client_id == client_id and
    a.write_counter in counters]], each as its six-key dictionary. *)
Definition missing_for (client_id : string) (counters : list Z) (a : Article.t)
    : option Tagged.t :=
  match Article.client_id a, Article.write_counter a with
  | Some c, Some w =>
      if bool_decide (c = client_id) && bool_decide (w ∈ counters)
      then Some (Tagged.mk (Article.id a) (Article.parent_id a) (Article.title a)
                           (Article.content a) c w)
      else None
  | _, _ => None
  end.

Definition handle_request_missing_articles (client_id : string) (counters : list Z)
    : M Server Rsp.t :=
  s ← self;
  let articles_data := omap (missing_for client_id counters) (articles s) in
  mret (Rsp.send_missing_articles articles_data).

Definition handle_read_articles_read_your_writes : M Server Rsp.t :=
  s ← self;
  let articles_list := summary_of <$> articles s in
  mret (Rsp.articles_list articles_list).

Definition handle_read_article_content_read_your_writes (article_id : Z) : M Server Rsp.t :=
  s ← self;
  match lookup_article article_id (articles s) with
  | Some article => mret (Rsp.article_content (wire_of article))
  | None => mret (Rsp.error "Article not found")
  end.

Definition handle_get_next_article_id : M Server Rsp.t :=
  s ← self;
  if is_coordinator s then
    let article_id := next_article_id s in
    assign (set_next_article_id (article_id + 1)) ;;
    mret (Rsp.next_article_id article_id)
  else mret (Rsp.error "Not coordinator").

(** *** Quorum consistency *)

Definition select_quorum (quorum_size : nat) : M Server (list address) :=
  s ← self;
  let servers := server_addresses s in
  random_sample servers (quorum_size `min` length servers)%nat.

(** The body of the loop [for server_addr in write_quorum] of the two write
    handlers; it returns the list [acknowledgments], extended or not. *)
Definition write_to_member (article : Article.t) (acknowledgments : list address)
    (server_addr : address) : M Server (list address) :=
  let write_message := Msg.write_article (wire_of article) in
  s ← self;
  if decide (server_addr = me s) then
    append article ;;
    mret (acknowledgments ++ [server_addr])
  else
    try_except
      (response ← send_message server_addr write_message;
       match response with
       | Rsp.write_ack => mret (acknowledgments ++ [server_addr])
       | _ => mret acknowledgments
       end)
      (λ _, mret acknowledgments).

(** The loop itself, from [acknowledgments = []]. *)
Definition collect_acknowledgments (article : Article.t) (write_quorum : list address)
    : M Server (list address) :=
  for_acc write_quorum [] (write_to_member article).

Definition handle_post_article_quorum (p : Post.t) : M Server Rsp.t :=
  s ← self;
  if is_coordinator s then
    let title := Post.title p in
    let content := Post.content p in
    let article_id := next_article_id s in
    assign (set_next_article_id (article_id + 1)) ;;
    let article := Article.mk article_id None title content None None in
    write_quorum ← select_quorum (NW s);
    acknowledgments ← collect_acknowledgments article write_quorum;
    if decide (NW s ≤ length acknowledgments)%nat
    then mret (Rsp.post_success (Some article_id))
    else mret (Rsp.error "Failed to write to quorum")
  else
    forward_to_coordinator (Msg.post_article p).

Definition handle_reply_article_quorum (p : Post.t) : M Server Rsp.t :=
  s ← self;
  if is_coordinator s then
    let parent_id := Post.parent_id p in
    let title := Post.title p in
    let content := Post.content p in
    let article_id := next_article_id s in
    assign (set_next_article_id (article_id + 1)) ;;
    let article := Article.mk article_id parent_id title content None None in
    write_quorum ← select_quorum (NW s);
    acknowledgments ← collect_acknowledgments article write_quorum;
    if decide (NW s ≤ length acknowledgments)%nat
    then mret (Rsp.post_success (Some article_id))
    else mret (Rsp.error "Failed to write to quorum")
  else
    forward_to_coordinator (Msg.reply_article p).

Definition handle_write_article (article_data : Wire.t) : M Server Rsp.t :=
  let article := of_wire article_data in
  append article ;;
  mret Rsp.write_ack.

(** [Article(d['id'], d['parent_id'], d['title'], d.get('content', ''))]. *)
Definition of_listing (d : Listing.t) : Article.t :=
  Article.mk (Listing.id d) (Listing.parent_id d) (Listing.title d)
             (default "" (Listing.content d)) None None.

(** The two inner loops of [handle_read_articles_quorum]: the own store
    is assigned key by key, a peer's list only fills missing keys. *)
Definition merge_own (articles_dict : list (Z * Article.t)) (own : list Article.t)
    : list (Z * Article.t) :=
  foldl (λ d article, dict_set (Article.id article) article d) articles_dict own.

Definition merge_peer (articles_dict : list (Z * Article.t)) (articles_ : list Listing.t)
    : list (Z * Article.t) :=
  foldl (λ d article_data,
           let article_id := Listing.id article_data in
           if dict_mem article_id d then d
           else dict_set article_id (of_listing article_data) d)
        articles_dict articles_.

(** The body of the loop [for server_addr in read_quorum]; it returns
    [articles_dict] as the member leaves it. *)
Definition read_from_member (articles_dict : list (Z * Article.t)) (server_addr : address)
    : M Server (list (Z * Article.t)) :=
  s ← self;
  if decide (server_addr = me s) then
    mret (merge_own articles_dict (articles s))
  else
    try_except
      (response ← send_message server_addr Msg.get_articles;
       match response with
       | Rsp.articles_list articles_ => mret (merge_peer articles_dict articles_)
       | _ => mret articles_dict
       end)
      (λ _, mret articles_dict).

(** The loop itself, from [articles_dict = {}]. *)
Definition collect_articles (read_quorum : list address) : M Server (list (Z * Article.t)) :=
  for_acc read_quorum [] read_from_member.

Definition handle_read_articles_quorum : M Server Rsp.t :=
  s ← self;
  read_quorum ← select_quorum (NR s);
  articles_dict ← collect_articles read_quorum;
  let articles_list := summary_of <$> dict_values articles_dict in
  mret (Rsp.articles_list (sort_by Listing.id articles_list)).

(** The loop of [handle_read_article_content_quorum], left by [break] at
    the first member of the quorum that has the article. *)
Fixpoint first_with_article (article_id : Z) (read_quorum : list address)
    : M Server (option Article.t) :=
  match read_quorum with
  | [] => mret None
  | server_addr :: rest =>
      s ← self;
      article ←
        (if decide (server_addr = me s) then
           mret (lookup_article article_id (articles s))
         else
           try_except
             (response ← send_message server_addr (Msg.get_article_content article_id);
              match response with
              | Rsp.article_content article_data => mret (Some (of_wire article_data))
              | _ => mret None
              end)
             (λ _, mret None));
      match article with
      | Some a => mret (Some a)
      | None => first_with_article article_id rest
      end
  end.

Definition handle_read_article_content_quorum (article_id : Z) : M Server Rsp.t :=
  s ← self;
  read_quorum ← select_quorum (NR s);
  article ← first_with_article article_id read_quorum;
  match article with
  | Some article => mret (Rsp.article_content (wire_of article))
  | None => mret (Rsp.error "Article not found")
  end.

(** One round of the loop of [synchronize]. *)
Definition synchronize_round : M Server unit :=
  s ← self;
  for_ (server_addresses s) (λ server_addr,
    if decide (server_addr ≠ me s) then
      try_except
        (response ← send_message server_addr Msg.get_articles;
         match response with
         | Rsp.articles_list articles_ =>
             for_ articles_ (λ article_data,
               let article_id := Listing.id article_data in
               s ← self;
               match lookup_article article_id (articles s) with
               | None => append (of_listing article_data)
               | Some _ => mret tt
               end)
         | _ => mret tt
         end)
        (λ _, mret tt)
    else mret tt).

(** *** Common methods *)

Definition handle_post_article (p : Post.t) : M Server Rsp.t :=
  s ← self;
  if decide (consistency_model s = "sequential") then handle_post_article_sequential p
  else if decide (consistency_model s = "read_your_writes") then
    handle_post_article_read_your_writes p
  else if decide (consistency_model s = "quorum") then handle_post_article_quorum p
  else mret (Rsp.error "Unknown consistency model").

Definition handle_reply_article (p : Post.t) : M Server Rsp.t :=
  s ← self;
  if decide (consistency_model s = "sequential") then handle_reply_article_sequential p
  else if decide (consistency_model s = "read_your_writes") then
    handle_reply_article_read_your_writes p
  else if decide (consistency_model s = "quorum") then handle_reply_article_quorum p
  else mret (Rsp.error "Unknown consistency model").

Definition handle_read_articles : M Server Rsp.t :=
  s ← self;
  if decide (consistency_model s = "sequential") then handle_read_articles_sequential
  else if decide (consistency_model s = "read_your_writes") then
    handle_read_articles_read_your_writes
  else if decide (consistency_model s = "quorum") then handle_read_articles_quorum
  else mret (Rsp.error "Unknown consistency model").

Definition handle_read_article_content (article_id : Z) : M Server Rsp.t :=
  s ← self;
  if decide (consistency_model s = "sequential") then
    handle_read_article_content_sequential article_id
  else if decide (consistency_model s = "read_your_writes") then
    handle_read_article_content_read_your_writes article_id
  else if decide (consistency_model s = "quorum") then
    handle_read_article_content_quorum article_id
  else mret (Rsp.error "Unknown consistency model").

Definition handle_get_articles : M Server Rsp.t :=
  s ← self;
  let articles_list := listing_of <$> articles s in
  mret (Rsp.articles_list articles_list).

Definition handle_get_article_content (article_id : Z) : M Server Rsp.t :=
  s ← self;
  match lookup_article article_id (articles s) with
  | Some article => mret (Rsp.article_content (wire_of article))
  | None => mret (Rsp.error "Article not found")
  end.

Definition invalid_for_model : Rsp.t :=
  Rsp.error "Invalid message type for this consistency model".

(** The class defines no [handle_send_missing_articles]; the call in the
    Read-Your-Writes branch raises. *)
Definition handle_message (message : Msg.t) : M Server Rsp.t :=
  s ← self;
  match message with
  | Msg.client_connect client_id write_counter =>
      if decide (consistency_model s = "read_your_writes")
      then handle_client_connect client_id write_counter
      else mret Rsp.connect_ack
  | Msg.post_article p => handle_post_article p
  | Msg.reply_article p => handle_reply_article p
  | Msg.read_articles => handle_read_articles
  | Msg.read_article_content article_id => handle_read_article_content article_id
  | Msg.new_article article session =>
      if decide (consistency_model s = "sequential")
      then handle_new_article_sequential article
      else if decide (consistency_model s = "read_your_writes")
      then handle_new_article_read_your_writes article session
      else mret invalid_for_model
  | Msg.write_article article =>
      if decide (consistency_model s = "quorum")
      then handle_write_article article
      else mret invalid_for_model
  | Msg.get_articles => handle_get_articles
  | Msg.get_article_content article_id => handle_get_article_content article_id
  | Msg.request_missing_articles client_id counters =>
      if decide (consistency_model s = "read_your_writes")
      then handle_request_missing_articles client_id counters
      else mret invalid_for_model
  | Msg.send_missing_articles _ =>
      if decide (consistency_model s = "read_your_writes")
      then raise AttributeError
      else mret invalid_for_model
  | Msg.get_next_article_id => handle_get_next_article_id
  | Msg.new_articles articles_ =>
      if decide (consistency_model s = "read_your_writes")
      then handle_new_articles articles_
      else mret invalid_for_model
  | Msg.other _ => mret (Rsp.error "Unknown message type")
  end.

End Unified.

(** ** [src/quorum/server.py]

    The standalone Quorum server.  Its class has the attributes of the unified
    one except [consistency_model] and [client_write_counters], which nothing
    below reads; the embedding shares the record.  The loops of its write
    and read handlers are, word for word, [Unified.collect_acknowledgments]
    and [Unified.collect_articles], and [handle_write_article],
    [handle_get_articles] and [handle_get_article_content] are the unified
    ones. *)

Module Quorum.
Import Unified.

(** No [min] here: a quorum larger than the server list makes
    [random.sample] raise. *)
Definition select_quorum (quorum_size : nat) : M Server (list address) :=
  s ← self;
  let servers := server_addresses s in
  random_sample servers quorum_size.

Definition handle_post_article (p : Post.t) : M Server Rsp.t :=
  s ← self;
  if is_coordinator s then
    let title := Post.title p in
    let content := Post.content p in
    let article_id := next_article_id s in
    assign (set_next_article_id (article_id + 1)) ;;
    let article := Article.mk article_id None title content None None in
    write_quorum ← select_quorum (NW s);
    acknowledgments ← collect_acknowledgments article write_quorum;
    if decide (NW s ≤ length acknowledgments)%nat
    then mret (Rsp.post_success (Some article_id))
    else mret (Rsp.error "Failed to write to quorum")
  else
    forward_to_coordinator (Msg.post_article p).

Definition handle_reply_article (p : Post.t) : M Server Rsp.t :=
  s ← self;
  if is_coordinator s then
    let parent_id := Post.parent_id p in
    let title := Post.title p in
    let content := Post.content p in
    let article_id := next_article_id s in
    assign (set_next_article_id (article_id + 1)) ;;
    let article := Article.mk article_id parent_id title content None None in
    write_quorum ← select_quorum (NW s);
    acknowledgments ← collect_acknowledgments article write_quorum;
    if decide (NW s ≤ length acknowledgments)%nat
    then mret (Rsp.post_success (Some article_id))
    else mret (Rsp.error "Failed to write to quorum")
  else
    forward_to_coordinator (Msg.reply_article p).

Definition handle_read_articles : M Server Rsp.t :=
  s ← self;
  read_quorum ← select_quorum (NR s);
  articles_dict ← collect_articles read_quorum;
  let articles_list := summary_of <$> dict_values articles_dict in
  mret (Rsp.articles_list (sort_by Listing.id articles_list)).

Definition handle_read_article_content (article_id : Z) : M Server Rsp.t :=
  s ← self;
  read_quorum ← select_quorum (NR s);
  article ← first_with_article article_id read_quorum;
  match article with
  | Some article => mret (Rsp.article_content (wire_of article))
  | None => mret (Rsp.error "Article not found")
  end.

Definition handle_message (message : Msg.t) : M Server Rsp.t :=
  match message with
  | Msg.post_article p => handle_post_article p
  | Msg.reply_article p => handle_reply_article p
  | Msg.read_articles => handle_read_articles
  | Msg.read_article_content article_id => handle_read_article_content article_id
  | Msg.write_article article => handle_write_article article
  | Msg.get_articles => handle_get_articles
  | Msg.get_article_content article_id => handle_get_article_content article_id
  | _ => mret (Rsp.error "Unknown message type")
  end.

End Quorum.

(** ** [src/ryw/server.py]

    The standalone Read-Your-Writes server.  Its write handlers store
    whatever [get_next_article_id] returns, [None] included, so the id of a
    stored article is an [option]; requests and the replies of peers are typed
    as above, and what this server answers is typed by [Reply], where an id
    may be [None]. *)

Module Ryw.

Record Article := mkArticle {
  id : option Z;
  parent_id : option Z;
  title : string;
  content : string;
  client_id : string;
  write_counter : Z
}.

Record Server := mkServer {
  host : string;
  port : Z;
  coordinator_address : address;
  server_addresses : list address;
  is_coordinator : bool;
  next_article_id : Z;
  articles : list Article;
  client_write_counters : gmap string Z
}.

Definition init (host : string) (port : Z) (coordinator_address : address)
    (server_addresses : list address) (is_coordinator : bool) : Server :=
  mkServer host port coordinator_address server_addresses is_coordinator 1 [] ∅.

Inductive Reply :=
| connect_ack
| post_success (article_id : option Z)
| articles_list (articles : list (option Z * option Z * string))
| article_content (article : option Z * option Z * string * string)
| article_ack (article_id : option Z)
| send_missing_articles (articles : list Article)
| next_article_id_is (article_id : Z)
| error (message : string).

Definition set_next_article_id (v : Z) (s : Server) : Server :=
  mkServer (host s) (port s) (coordinator_address s) (server_addresses s)
           (is_coordinator s) v (articles s) (client_write_counters s).

Definition set_articles (v : list Article) (s : Server) : Server :=
  mkServer (host s) (port s) (coordinator_address s) (server_addresses s)
           (is_coordinator s) (next_article_id s) v (client_write_counters s).

Definition set_client_write_counters (v : gmap string Z) (s : Server) : Server :=
  mkServer (host s) (port s) (coordinator_address s) (server_addresses s)
           (is_coordinator s) (next_article_id s) (articles s) v.

Definition me (s : Server) : address := (host s, port s).

Definition append (article : Article) : M Server unit :=
  assign (λ s, set_articles (articles s ++ [article]) s).

Definition counter_of (s : Server) (client_id : string) : Z :=
  default 0 (client_write_counters s !! client_id).

Definition set_counter (client_id : string) (v : Z) : M Server unit :=
  assign (λ s, set_client_write_counters (<[client_id := v]> (client_write_counters s)) s).

Definition lookup_article (article_id : Z) (l : list Article) : option Article :=
  List.find (λ a, bool_decide (id a = Some article_id)) l.

Definition of_tagged (d : Tagged.t) : Article :=
  mkArticle (Some (Tagged.id d)) (Tagged.parent_id d) (Tagged.title d) (Tagged.content d)
            (Tagged.client_id d) (Tagged.write_counter d).

Definition get_next_article_id : M Server (option Z) :=
  s ← self;
  if is_coordinator s then
    let article_id := next_article_id s in
    assign (set_next_article_id (article_id + 1)) ;;
    mret (Some article_id)
  else
    let message := Msg.get_next_article_id in
    try_except
      (response ← send_message (coordinator_address s) message;
       match response with
       | Rsp.next_article_id article_id => mret (Some article_id)
       | _ => raise (Failure "Error getting article ID from coordinator")
       end)
      (λ _, mret None).

(** No test of [article_id] against [None] in this file. *)
Definition handle_post_article (p : Post.t) : M Server Reply :=
  let client_id := Post.client_id p in
  let write_counter := Post.write_counter p in
  let title := Post.title p in
  let content := Post.content p in
  article_id ← get_next_article_id;
  let article := mkArticle article_id None title content client_id write_counter in
  append article ;;
  set_counter client_id write_counter ;;
  mret (post_success article_id).

Definition handle_reply_article (p : Post.t) : M Server Reply :=
  let client_id := Post.client_id p in
  let write_counter := Post.write_counter p in
  let parent_id := Post.parent_id p in
  let title := Post.title p in
  let content := Post.content p in
  article_id ← get_next_article_id;
  let article := mkArticle article_id parent_id title content client_id write_counter in
  append article ;;
  set_counter client_id write_counter ;;
  mret (post_success article_id).

Definition handle_read_articles : M Server Reply :=
  s ← self;
  let listing := (λ a, (id a, parent_id a, title a)) <$> articles s in
  mret (articles_list listing).

Definition handle_read_article_content (article_id : Z) : M Server Reply :=
  s ← self;
  match lookup_article article_id (articles s) with
  | Some article =>
      mret (article_content (id article, parent_id article, title article, content article))
  | None => mret (error "Article not found")
  end.

Definition handle_new_article (article_data : Wire.t) (session : option (string * Z))
    : M Server Reply :=
  match session with
  | None => raise KeyError
  | Some (client_id, write_counter) =>
      let article :=
        mkArticle (Some (Wire.id article_data)) (Wire.parent_id article_data)
                  (Wire.title article_data) (Wire.content article_data)
                  client_id write_counter in
      append article ;;
      s ← self;
      set_counter client_id (Z.max (counter_of s client_id) write_counter) ;;
      mret (article_ack (id article))
  end.

Definition store_tagged (article_data : Tagged.t) : M Server unit :=
  let article := of_tagged article_data in
  append article ;;
  let client_id := Tagged.client_id article_data in
  let write_counter := Tagged.write_counter article_data in
  s ← self;
  set_counter client_id (Z.max (counter_of s client_id) write_counter).

Definition get_missing_articles (client_id : string) (missing_counters : list Z)
    : M Server unit :=
  let message := Msg.request_missing_articles client_id missing_counters in
  s ← self;
  for_ (server_addresses s) (λ addr,
    if decide (addr ≠ me s) then
      try_except
        (response ← send_message addr message;
         match response with
         | Rsp.send_missing_articles articles_ => for_ articles_ store_tagged
         | _ => mret tt
         end)
        (λ _, mret tt)
    else mret tt).

Definition handle_request_missing_articles (client : string) (counters : list Z)
    : M Server Reply :=
  s ← self;
  let articles_ :=
    filter (λ a, client_id a = client ∧ write_counter a ∈ counters) (articles s) in
  mret (send_missing_articles articles_).

Definition handle_get_next_article_id : M Server Reply :=
  s ← self;
  if is_coordinator s then
    let article_id := next_article_id s in
    assign (set_next_article_id (article_id + 1)) ;;
    mret (next_article_id_is article_id)
  else mret (error "Not coordinator").

(** [handle_send_missing_articles] is [pass]: the handler returns [None]
    and the connection loop sends nothing.  There is no branch for
    [new_articles], the message this file's own [propagate_articles]
    sends. *)
Definition handle_message (message : Msg.t) : M Server (option Reply) :=
  match message with
  | Msg.client_connect client_id client_write_counter =>
      s ← self;
      let latest_counter := counter_of s client_id in
      let missing_counters :=
        if decide (latest_counter < client_write_counter)
        then seqZ (latest_counter + 1) (client_write_counter - latest_counter)
        else [] in
      match missing_counters with
      | [] => mret tt
      | _ :: _ => get_missing_articles client_id missing_counters
      end ;;
      mret (Some connect_ack)
  | Msg.post_article p => Some <$> handle_post_article p
  | Msg.reply_article p => Some <$> handle_reply_article p
  | Msg.read_articles => Some <$> handle_read_articles
  | Msg.read_article_content article_id => Some <$> handle_read_article_content article_id
  | Msg.new_article article session => Some <$> handle_new_article article session
  | Msg.request_missing_articles client_id counters =>
      Some <$> handle_request_missing_articles client_id counters
  | Msg.send_missing_articles _ => mret None
  | Msg.get_next_article_id => Some <$> handle_get_next_article_id
  | _ => mret (Some (error "Unknown message type"))
  end.

End Ryw.

(** ** Definitions used to state the properties *)

(** The world after [k] more draws of the generator. *)
Definition advance {St} (w : World St) (k : nat) : World St :=
  mkWorld (srv w) (net w) (outbox w) (rng w) (drawn w + k).

(** The elements [sample_rounds] picks from [pool], as a function of the
    generator stream [r], of which [i] numbers are used. *)
Fixpoint picks {A} (pool : list A) (k : nat) (r : nat → nat) (i : nat) : list A :=
  match k with
  | O => []
  | S k' =>
      let j := (r i `mod` length pool)%nat in
      match pool !! j with
      | Some x => x :: picks (pool_remove pool j) k' r (S i)
      | None => []
      end
  end.

(** A reply that counts as an acknowledgment of a quorum write. *)
Definition is_write_ack (reply : option Rsp.t) : bool :=
  match reply with
  | Some Rsp.write_ack => true
  | _ => false
  end.

(** The write acknowledgments a coordinator in world [w] collects from
    [write_quorum]: one for each occurrence of its own address, and one for
    each [write_ack] among the replies to the calls it makes, which are the
    next [length peers] calls of [send_message]. *)
Definition acknowledged (w : World Unified.Server) (write_quorum : list address) : nat :=
  let own := filter (λ a, a = Unified.me (srv w)) write_quorum in
  let peers := filter (λ a, a ≠ Unified.me (srv w)) write_quorum in
  let replies := net w <$> seq (length (outbox w)) (length peers) in
  (length own + length (filter (λ r, is_write_ack r) replies))%nat.

(** The world after [self.articles = l], and after a call of
    [send_message]. *)
Definition with_articles (w : World Unified.Server) (l : list Article.t)
    : World Unified.Server :=
  mkWorld (Unified.set_articles l (srv w)) (net w) (outbox w) (rng w) (drawn w).

Definition with_call {St} (w : World St) (addr : address) (message : Msg.t) : World St :=
  mkWorld (srv w) (net w) (outbox w ++ [(addr, message)]) (rng w) (drawn w).

(** Three addresses and two streams for the examples: peers that reply as
    listed and are unreachable afterwards, and a generator that draws the
    listed numbers and then zeros. *)
Definition s1 : address := ("s1", 5001).
Definition s2 : address := ("s2", 5002).
Definition s3 : address := ("s3", 5003).

Definition replies_of (l : list (option Rsp.t)) : nat → option Rsp.t :=
  λ k, nth k l None.

Definition draws_of (l : list nat) : nat → nat :=
  λ i, nth i l 0%nat.

(** A world in which nothing was sent or drawn yet. *)
Definition boot {St} (s : St) (replies : list (option Rsp.t)) (draws : list nat) : World St :=
  mkWorld s (replies_of replies) [] (draws_of draws) 0.

(** The slots [j] drawn by [sample_rounds], one per round, each below the
    size of the pool of its round. *)
Fixpoint slots {A} (pool : list A) (k : nat) (r : nat → nat) (i : nat) : list nat :=
  match k with
  | O => []
  | S k' =>
      let j := (r i `mod` length pool)%nat in
      j :: slots (pool_remove pool j) k' r (S i)
  end.

(** The world [w] with another generator stream. *)
Definition with_rng {St} (w : World St) (r : nat → nat) : World St :=
  mkWorld (srv w) (net w) (outbox w) r (drawn w).

(** What the handler of a peer in state [s] returns for [message]; a handler
    that raises answers nothing.  This is the response the peer sends, whole;
    what [send_message] reads of it is [Transport.delivered]. *)
Definition answer (s : Unified.Server) (message : Msg.t) : option Rsp.t :=
  match fst (Unified.handle_message message (boot s [] [])) with
  | Returned response => Some response
  | Raised _ => None
  end.

(** The elements of [l], in order, whose key is neither in [seen] nor carried
    by an element earlier in [l]: what a merge by key keeps when the first
    occurrence wins. *)
Fixpoint first_by {A} (key : A → Z) (seen : list Z) (l : list A) : list A :=
  match l with
  | [] => []
  | x :: rest =>
      if decide (key x ∈ seen) then first_by key seen rest
      else x :: first_by key (key x :: seen) rest
  end.

(** The articles of a message that a store holding the ids [held] lacks when
    their turn comes. *)
Definition lacking (held : list Z) (message : list Tagged.t) : list Tagged.t :=
  first_by Tagged.id held message.

(** The greatest of [base] and the write counters that the articles of [l]
    carry for [client_id]. *)
Definition greatest_counter (base : Z) (client_id : string) (l : list Tagged.t) : Z :=
  foldr Z.max base (Tagged.write_counter <$> filter (λ d, Tagged.client_id d = client_id) l).

(** The world [w] around another server object. *)
Definition with_srv {St} (w : World St) (s : St) : World St :=
  mkWorld s (net w) (outbox w) (rng w) (drawn w).

(** A computation preserves [P] when [P] holds of the world it leaves,
    whether it returns or raises. *)
Definition preserves {St A} (P : World St → Prop) (m : M St A) : Prop :=
  ∀ w, P w → P (snd (m w)).

(** The state after [store_tagged]. *)
Definition stored (d : Tagged.t) (s : Unified.Server) : Unified.Server :=
  let s1 := Unified.set_articles (Unified.articles s ++ [Unified.of_tagged d]) s in
  Unified.set_client_write_counters
    (<[Tagged.client_id d :=
         Z.max (Unified.counter_of s1 (Tagged.client_id d)) (Tagged.write_counter d)]>
       (Unified.client_write_counters s1)) s1.

(** No session counter of [w] is below its value in [s0]. *)
Definition counters_from (s0 : Unified.Server) (w : World Unified.Server) : Prop :=
  ∀ c, Unified.counter_of s0 c ≤ Unified.counter_of (srv w) c.

(** The coordinator's state after it allocates an id, and after it appends
    the article it wrote under that id. *)
Definition allocate (s : Unified.Server) : Unified.Server :=
  Unified.set_next_article_id (Unified.next_article_id s + 1) s.

Definition written (s : Unified.Server) (parent_id : option Z) (title content : string)
    : Unified.Server :=
  Unified.set_articles
    (Unified.articles s
     ++ [Article.mk (Unified.next_article_id s) parent_id title content None None])
    (allocate s).

(** A server in state [s] handles [message], in any world, and is left in
    state [s']. *)
Definition handles (s : Unified.Server) (message : Msg.t) (s' : Unified.Server) : Prop :=
  ∃ w, srv w = s ∧ srv (snd (Unified.handle_message message w)) = s'.

Definition is_new_article (message : Msg.t) : bool :=
  match message with
  | Msg.new_article _ _ => true
  | _ => false
  end.

(** A step of the coordinator of a Sequential cluster: it handles any message
    but [new_article], which in that cluster only the coordinator sends, and
    never to its own address. *)
Definition coordinator_step (s s' : Unified.Server) : Prop :=
  ∃ message, is_new_article message = false ∧ handles s message s'.

Definition sequential_coordinator (s : Unified.Server) : Prop :=
  Unified.consistency_model s = "sequential" ∧ Unified.is_coordinator s = true.

(** The states a Sequential coordinator reaches from its construction. *)
Definition coordinator_reachable (s : Unified.Server) : Prop :=
  ∃ host port coordinator_address server_addresses N NR NW,
    rtc coordinator_step
      (Unified.init host port coordinator_address server_addresses "sequential" N NR NW true)
      s.

(** Every stored id was allocated, and to one article only. *)
Definition allocated (s : Unified.Server) : Prop :=
  Forall (λ a, 1 ≤ Article.id a < Unified.next_article_id s) (Unified.articles s) ∧
  NoDup (Article.id <$> Unified.articles s).

(** An entry of [articles_list] without its content, as [read_articles]
    answers it. *)
Definition strip (d : Listing.t) : Listing.t :=
  Listing.mk (Listing.id d) (Listing.parent_id d) (Listing.title d) None.

(** The list that the reply of a peer contributes to a quorum read: nothing
    when the call fails or is not answered [articles_list]. *)
Definition listed (reply : option Rsp.t) : list Listing.t :=
  match reply with
  | Some (Rsp.articles_list l) => l
  | _ => []
  end.

(** The stores a quorum read visits, in the order of the quorum: the own
    store at the own address, and at a peer what its reply lists; [k] calls
    of [send_message] were made before. *)
Fixpoint visited (s : Unified.Server) (reply : nat → option Rsp.t) (k : nat)
    (read_quorum : list address) : list (list Listing.t) :=
  match read_quorum with
  | [] => []
  | server_addr :: rest =>
      if decide (server_addr = Unified.me s)
      then (Unified.summary_of <$> Unified.articles s) :: visited s reply k rest
      else listed (reply k) :: visited s reply (S k) rest
  end.

(** The merge the specification describes: by id, the first occurrence in
    visiting order taken, sorted by ascending id. *)
Definition merge_first_occurrence (stores : list (list Listing.t)) : list Listing.t :=
  sort_by Listing.id (strip <$> first_by Listing.id [] (concat stores)).

(** What the loop of [collect_articles] computes, as a function of the
    replies. *)
Fixpoint collected (s : Unified.Server) (reply : nat → option Rsp.t) (k : nat)
    (read_quorum : list address) (articles_dict : list (Z * Article.t))
    : list (Z * Article.t) :=
  match read_quorum with
  | [] => articles_dict
  | server_addr :: rest =>
      if decide (server_addr = Unified.me s)
      then collected s reply k rest (Unified.merge_own articles_dict (Unified.articles s))
      else collected s reply (S k) rest (Unified.merge_peer articles_dict (listed (reply k)))
  end.

(** A dictionary of articles is keyed by their ids, each key once. *)
Definition keyed (d : list (Z * Article.t)) : Prop :=
  NoDup d.*1 ∧ Forall (λ e, e.1 = Article.id e.2) d.

(** The entries of a dictionary are keyed by the id of their article, and
    every article in it summarises to an entry of [pre], content apart. *)
Definition from_visited (pre : list Listing.t) (acc : list (Z * Article.t)) : Prop :=
  ∀ k v, (k, v) ∈ acc → k = Article.id v ∧ Unified.summary_of v ∈ strip <$> pre.

(** ** [handle_connection] of [src/server.py] *)

Module Connection.

(** The character ['\n']. *)
Definition newline : Ascii.ascii := Ascii.ascii_of_nat 10.

(** [data.split('\n')]: the pieces between the newlines of [data], one more
    than there are newlines. *)
Fixpoint split_lines (data : string) : list string :=
  match data with
  | EmptyString => [EmptyString]
  | String c rest =>
      if decide (c = newline) then EmptyString :: split_lines rest
      else match split_lines rest with
           | piece :: pieces => String c piece :: pieces
           | [] => [String c EmptyString]
           end
  end.

(** [json.dumps(message) + '\n'], one after the other: what
    [send_message] and the clients put on a connection. *)
Definition framed (texts : list string) : string :=
  foldr (λ text rest, text +:+ String newline rest) EmptyString texts.

Section Loop.

(** [json.loads], of the standard library: the message that a line decodes
    to, [None] when it raises. *)
Variable loads : string → option Msg.t.

(** The loop [for msg in messages] on one chunk of data.  [conn] is what
    was sent back on the connection so far; every response of this server is
    a dictionary with a type, so [if response] holds.  An exception leaves the
    loop. *)
Fixpoint handle_messages (messages : list string) (conn : list Rsp.t)
    (w : World Unified.Server) : result unit * list Rsp.t * World Unified.Server :=
  match messages with
  | [] => (Returned tt, conn, w)
  | msg :: rest =>
      if decide (msg = EmptyString) then handle_messages rest conn w
      else
        match loads msg with
        | None => (Raised ValueError, conn, w)
        | Some message =>
            match Unified.handle_message message w with
            | (Returned response, w') => handle_messages rest (conn ++ [response]) w'
            | (Raised e, w') => (Raised e, conn, w')
            end
        end
  end.

(** [handle_connection] on the chunks that [recv] returns, decoded; the
    list ends where the peer closes.  An empty chunk ends the loop, and so
    does an exception, which is printed; the connection is closed then. *)
Fixpoint handle_connection (received : list string) (conn : list Rsp.t)
    (w : World Unified.Server) : list Rsp.t * World Unified.Server :=
  match received with
  | [] => (conn, w)
  | data :: later =>
      if decide (data = EmptyString) then (conn, w)
      else
        match handle_messages (split_lines data) conn w with
        | (Returned _, conn', w') => handle_connection later conn' w'
        | (Raised _, conn', w') => (conn', w')
        end
  end.

End Loop.

End Connection.

(** ** [send_message] of [src/server.py]: the reply that is read *)

Module Transport.

(** [s.recv(bufsize)] once all that the peer sent has arrived, the best case
    for the caller: the first [bufsize] bytes of it.  [json.dumps] writes
    ASCII, one byte for each character. *)
Fixpoint recv (bufsize : nat) (sent : string) : string :=
  match bufsize, sent with
  | S bufsize', String c rest => String c (recv bufsize' rest)
  | _, _ => EmptyString
  end.

Section Reply.

(** [json.dumps] and [json.loads] of the standard library, on responses;
    [loads] is [None] where [json.loads] raises. *)
Variable dumps : Rsp.t → string.
Variable loads : string → option Rsp.t.

(** What [send_message] returns when the peer's handler produced
    [response] ([None]: it produced none, or could not be reached).  The peer
    sends [json.dumps(response) + '\n']; [send_message] reads once, 4096 bytes
    at most, and decodes what it read.  [None]: [send_message] raises. *)
Definition delivered (response : option Rsp.t) : option Rsp.t :=
  match response with
  | Some r => loads (recv 4096 (dumps r +:+ String Connection.newline EmptyString))
  | None => None
  end.

(** A response that one read holds and that decodes to itself, with or
    without the newline after it. *)
Definition readable (r : Rsp.t) : Prop :=
  (String.length (dumps r) ≤ 4096)%nat ∧
  loads (dumps r) = Some r ∧
  loads (dumps r +:+ String Connection.newline EmptyString) = Some r.

End Reply.

End Transport.

(** [next((a for a in self.articles if a.id == article_id), None)] of
    [src/ryw/server.py] on the value of [message.get('article_id')], which is
    [None] when the key is absent or null: the comparison holds of two
    [None]. *)
Definition standalone_lookup (article_id : option Z) (l : list Ryw.Article)
    : option Ryw.Article :=
  List.find (λ a, bool_decide (Ryw.id a = article_id)) l.

(** [handle_read_article_content] of [src/ryw/server.py] on that value. *)
Definition standalone_read_article_content (article_id : option Z)
    : M Ryw.Server Ryw.Reply :=
  s ← self;
  match standalone_lookup article_id (Ryw.articles s) with
  | Some article =>
      mret (Ryw.article_content
              (Ryw.id article, Ryw.parent_id article, Ryw.title article, Ryw.content article))
  | None => mret (Ryw.error "Article not found")
  end.

(** ** [__main__] of [src/server.py] *)

Module Main.

(** The test on the sizes typed in for Quorum mode,
    [if NR + NW <= N or NW <= N / 2], after which the program exits.  [N / 2]
    is the quotient of the two integers as a rational number, which is what
    the division yields for every [N] that a floating-point number holds
    exactly. *)
Definition rejected (N NR NW : Z) : bool :=
  bool_decide (NR + NW ≤ N)
  || QArith_base.Qle_bool (QArith_base.inject_Z NW)
       (QArith_base.Qdiv (QArith_base.inject_Z N) (QArith_base.inject_Z 2)).

(** The server list: the own address, then the addresses typed in that
    differ from it. *)
Definition addresses (host : string) (port : Z) (others : list address) : list address :=
  (host, port) :: filter (λ addr, addr ≠ (host, port)) others.

End Main.

(** ** [display_articles] of the clients *)

Module Client.






End Client.

(** ** Further definitions used to state the properties *)

(** The addresses that the loops [for addr in self.server_addresses] call:
    every entry but the own address, in the order of the list. *)
Definition peers (s : Unified.Server) : list address :=
  filter (λ addr, addr ≠ Unified.me s) (Unified.server_addresses s).

(** The attributes that [__init__] sets from its arguments. *)
Definition configuration (s : Unified.Server)
    : string * Z * address * list address * bool * string * nat * nat * nat :=
  (Unified.host s, Unified.port s, Unified.coordinator_address s,
   Unified.server_addresses s, Unified.is_coordinator s, Unified.consistency_model s,
   Unified.N s, Unified.NR s, Unified.NW s).

(** An article that carries a session tag. *)
Definition tagged (a : Article.t) : Prop :=
  is_Some (Article.client_id a) ∧ is_Some (Article.write_counter a).

(** The server object [s] grew out of [s0]: same configuration, the store of
    [s0] extended at its end, an id counter that is not below and, on a
    server that is not the coordinator, not above either. *)
Definition grown_from (s0 s : Unified.Server) : Prop :=
  configuration s = configuration s0 ∧
  Unified.articles s0 `prefix_of` Unified.articles s ∧
  Unified.next_article_id s0 ≤ Unified.next_article_id s ∧
  (Unified.is_coordinator s0 = false →
   Unified.next_article_id s = Unified.next_article_id s0) ∧
  (Unified.consistency_model s0 ≠ "read_your_writes" →
   Unified.client_write_counters s = Unified.client_write_counters s0).

(** The world after the calls [l] of [send_message]. *)
Definition with_calls {St} (w : World St) (l : list (address * Msg.t)) : World St :=
  mkWorld (srv w) (net w) (outbox w ++ l) (rng w) (drawn w).

(** One call with [message] to each address of [l]. *)
Definition calls (l : list address) (message : Msg.t) : list (address * Msg.t) :=
  (λ addr, (addr, message)) <$> l.

(** The articles that a reply to [request_missing_articles] carries: none
    when the call fails or is answered otherwise. *)
Definition sent_articles (reply : option Rsp.t) : list Tagged.t :=
  match reply with
  | Some (Rsp.send_missing_articles l) => l
  | _ => []
  end.

(** The articles that the replies to the calls [k], ..., [k + n - 1] carry,
    in the order of the calls. *)
Definition fetched (reply : nat → option Rsp.t) (k n : nat) : list Tagged.t :=
  concat ((λ i, sent_articles (reply i)) <$> seq k n).

(** The server object after [store_tagged] ran on each article of [l]. *)
Definition store_all (l : list Tagged.t) (s : Unified.Server) : Unified.Server :=
  foldl (λ s d, stored d s) s l.

(** A reply that carries an article. *)
Definition is_article_content (reply : option Rsp.t) : bool :=
  match reply with
  | Some (Rsp.article_content _) => true
  | _ => false
  end.


(** [synchronize] on one entry of a reply: appended, with the content listed
    or the empty string, unless an article of that id is held. *)
Definition absorb (l : list Article.t) (d : Listing.t) : list Article.t :=
  match Unified.lookup_article (Listing.id d) l with
  | None => l ++ [Unified.of_listing d]
  | Some _ => l
  end.

(** The entries that the replies to the calls [k], ..., [k + n - 1] list, in
    the order of the calls. *)
Definition listings (reply : nat → option Rsp.t) (k n : nat) : list Listing.t :=
  concat ((λ i, listed (reply i)) <$> seq k n).

(** The requests of a connection handled one after the other, the responses
    sent back in [conn], up to the first handler that raises. *)
Fixpoint served (requests : list Msg.t) (conn : list Rsp.t) (w : World Unified.Server)
    : result unit * list Rsp.t * World Unified.Server :=
  match requests with
  | [] => (Returned tt, conn, w)
  | message :: rest =>
      match Unified.handle_message message w with
      | (Returned response, w') => served rest (conn ++ [response]) w'
      | (Raised e, w') => (Raised e, conn, w')
      end
  end.

(** A text without a newline in it. *)
Fixpoint one_line (text : string) : bool :=
  match text with
  | EmptyString => true
  | String c rest => negb (bool_decide (c = Connection.newline)) && one_line rest
  end.






(** The worlds in which [Q] holds of the server object, and the server runs
    in mode [model] as coordinator or not. *)
Definition updated (Q : Unified.Server → Prop) (model : string) (coordinator : bool)
    (w : World Unified.Server) : Prop :=
  Q (srv w) ∧ Unified.consistency_model (srv w) = model ∧
  Unified.is_coordinator (srv w) = coordinator.

(** * Properties *)

(** ** Running computations *)

Lemma run_bind {St A B} (m : M St A) (f : A → M St B) (w : World St) :
  (m ≫= f) w =
  match m w with
  | (Returned a, w') => f a w'
  | (Raised e, w') => (Raised e, w')
  end.
Proof. reflexivity. Qed.

Lemma run_self {St} (w : World St) : self w = (Returned (srv w), w).
Proof. reflexivity. Qed.

Lemma pool_remove_Permutation {A} (pool : list A) (j : nat) (x : A) :
  pool !! j = Some x → x :: pool_remove pool j ≡ₚ pool.
Proof.
  intros Hj. unfold pool_remove.
  destruct (last pool) as [z|] eqn:Hlast.
  - apply last_Some in Hlast as [init ->].
    rewrite length_app, Nat.add_sub. simpl.
    destruct (decide (j < length init)%nat) as [Hlt|Hge].
    + rewrite lookup_app_l in Hj by done.
      rewrite insert_app_l by done.
      rewrite take_app_length' by (by rewrite length_insert).
      rewrite insert_take_drop by done.
      rewrite <- (take_drop_middle init j x Hj) at 3.
      rewrite <- app_assoc. simpl.
      rewrite <- !Permutation_middle.
      apply perm_skip. by rewrite app_nil_r.
    + pose proof (lookup_lt_Some _ _ _ Hj) as Hlen. rewrite length_app in Hlen. simpl in Hlen.
      assert (j = length init) as -> by lia.
      rewrite list_lookup_middle in Hj by done. injection Hj as ->.
      rewrite list_insert_id by (by apply list_lookup_middle).
      rewrite take_app_length.
      apply Permutation_cons_append.
  - destruct pool; [done|]. 
    exfalso. assert (is_Some (last (a :: pool))) as [? ?] by (by apply last_is_Some). congruence.
Qed.

Lemma pool_remove_length {A} (pool : list A) (j : nat) :
  length (pool_remove pool j) = (length pool - 1)%nat.
Proof.
  unfold pool_remove. destruct (last pool) eqn:Hlast.
  - rewrite length_take, length_insert. lia.
  - destruct pool; [done|].
    exfalso. assert (is_Some (last (a :: pool))) as [? ?] by (by apply last_is_Some). congruence.
Qed.

Lemma picks_spec {A} (k : nat) : ∀ (pool : list A) r i,
  (k ≤ length pool)%nat →
  length (picks pool k r i) = k ∧ picks pool k r i ⊆+ pool.
Proof.
  induction k as [|k IH]; intros pool r i Hk; simpl.
  - split; [done|]. apply submseteq_nil_l.
  - assert (r i `mod` length pool < length pool)%nat as Hj by (apply Nat.mod_upper_bound; lia).
    apply lookup_lt_is_Some_2 in Hj as [x Hx]. rewrite Hx. simpl.
    destruct (IH (pool_remove pool (r i `mod` length pool)%nat) r (S i)) as [Hlen Hsub].
    { rewrite pool_remove_length. lia. }
    split; [by rewrite Hlen|].
    etrans; [apply submseteq_skip, Hsub|].
    apply Permutation_submseteq. by apply pool_remove_Permutation.
Qed.

Lemma sample_rounds_run {St A} (k : nat) : ∀ (pool : list A) (w : World St),
  (k ≤ length pool)%nat →
  sample_rounds pool k w = (Returned (picks pool k (rng w) (drawn w)), advance w k).
Proof.
  induction k as [|k IH]; intros pool w Hk; simpl.
  - unfold advance. rewrite Nat.add_0_r. by destruct w.
  - rewrite run_bind. unfold randbelow at 1. 
    assert (rng w (drawn w) `mod` length pool < length pool)%nat as Hj by (apply Nat.mod_upper_bound; lia).
    apply lookup_lt_is_Some_2 in Hj as [x Hx]. rewrite Hx.
    rewrite run_bind, IH by (rewrite pool_remove_length; lia).
    simpl. unfold advance. simpl. do 3 f_equal. lia.
Qed.

(** ** Quorum selection *)

Lemma unified_select_quorum_run (w : World Unified.Server) (quorum_size : nat) :
  let servers := Unified.server_addresses (srv w) in
  let k := (quorum_size `min` length servers)%nat in
  Unified.select_quorum quorum_size w
  = (Returned (picks servers k (rng w) (drawn w)), advance w k).
Proof.
  intros servers k. unfold Unified.select_quorum.
  rewrite run_bind, run_self. unfold random_sample.
  destruct (decide _) as [Hle|Hgt]; [|subst k servers; lia].
  by apply sample_rounds_run.
Qed.

Lemma standalone_select_quorum_run (w : World Unified.Server) (quorum_size : nat) :
  let servers := Unified.server_addresses (srv w) in
  Quorum.select_quorum quorum_size w
  = if decide (quorum_size ≤ length servers)%nat
    then (Returned (picks servers quorum_size (rng w) (drawn w)), advance w quorum_size)
    else (Raised ValueError, w).
Proof.
  intros servers. unfold Quorum.select_quorum.
  rewrite run_bind, run_self. unfold random_sample. fold servers.
  destruct (decide _) as [Hle|Hgt]; [|done].
  by apply sample_rounds_run.
Qed.

(** ** Acknowledgments of a quorum write *)

Lemma acknowledged_nil w : acknowledged w [] = 0%nat.
Proof. reflexivity. Qed.

Lemma acknowledged_own w a q l :
  a = Unified.me (srv w) →
  acknowledged w (a :: q) = S (acknowledged (with_articles w l) q).
Proof.
  intros ->. unfold acknowledged. rewrite !filter_cons.
  destruct (decide (Unified.me (srv w) = Unified.me (srv w))); [|done].
  destruct (decide (Unified.me (srv w) ≠ Unified.me (srv w))); [done|].
  reflexivity.
Qed.

Lemma acknowledged_peer w a q message :
  a ≠ Unified.me (srv w) →
  acknowledged w (a :: q) =
  ((if is_write_ack (net w (length (outbox w))) then 1 else 0)
   + acknowledged (with_call w a message) q)%nat.
Proof.
  intros Hne. unfold acknowledged. rewrite !filter_cons.
  destruct (decide (a = Unified.me (srv w))); [done|].
  destruct (decide (a ≠ Unified.me (srv w))); [|done].
  cbn [length seq with_call outbox net srv]. rewrite fmap_cons, filter_cons, length_app.
  cbn [length].
  replace (length (outbox w) + 1)%nat with (S (length (outbox w))) by lia.
  destruct (decide _) as [Hack|Hack];
    destruct (is_write_ack (net w (length (outbox w)))); try done; cbn [length]; lia.
Qed.

Lemma write_to_member_own article acc a w :
  a = Unified.me (srv w) →
  Unified.write_to_member article acc a w
  = (Returned (acc ++ [a]), with_articles w (Unified.articles (srv w) ++ [article])).
Proof.
  intros Heq. unfold Unified.write_to_member. rewrite run_bind, run_self.
  destruct (decide _); [|done]. reflexivity.
Qed.

Lemma write_to_member_peer article acc a w :
  a ≠ Unified.me (srv w) →
  Unified.write_to_member article acc a w
  = (Returned (if is_write_ack (net w (length (outbox w))) then acc ++ [a] else acc),
     with_call w a (Msg.write_article (Unified.wire_of article))).
Proof.
  intros Hne. unfold Unified.write_to_member. rewrite run_bind, run_self.
  destruct (decide _); [done|].
  unfold try_except. rewrite run_bind. unfold send_message.
  by destruct (net w (length (outbox w))) as [[]|].
Qed.

Lemma collect_acknowledgments_length article : ∀ write_quorum acc w,
  ∃ acknowledgments w',
    for_acc write_quorum acc (Unified.write_to_member article) w
    = (Returned acknowledgments, w') ∧
    length acknowledgments = (length acc + acknowledged w write_quorum)%nat.
Proof.
  induction write_quorum as [|a q IH]; intros acc w.
  - exists acc, w. split; [done|]. rewrite acknowledged_nil. lia.
  - cbn [for_acc]. rewrite run_bind.
    destruct (decide (a = Unified.me (srv w))) as [Heq|Hne].
    + rewrite write_to_member_own by done.
      rewrite (acknowledged_own w a q (Unified.articles (srv w) ++ [article])) by done.
      destruct (IH (acc ++ [a]) (with_articles w (Unified.articles (srv w) ++ [article])))
        as (acks & w' & Hrun & Hlen).
      exists acks, w'. split; [exact Hrun|].
      rewrite Hlen, length_app. simpl. lia.
    + rewrite write_to_member_peer by done.
      rewrite (acknowledged_peer w a q (Msg.write_article (Unified.wire_of article))) by done.
      set (w1 := with_call w a _).
      destruct (is_write_ack (net w (length (outbox w)))).
      * destruct (IH (acc ++ [a]) w1) as (acks & w' & Hrun & Hlen).
        exists acks, w'. split; [exact Hrun|]. rewrite Hlen, length_app. simpl. lia.
      * destruct (IH acc w1) as (acks & w' & Hrun & Hlen).
        exists acks, w'. split; [exact Hrun|]. rewrite Hlen. lia.
Qed.

Lemma acknowledged_same (w w' : World Unified.Server) q :
  Unified.me (srv w') = Unified.me (srv w) → net w' = net w →
  length (outbox w') = length (outbox w) →
  acknowledged w' q = acknowledged w q.
Proof. intros Hme Hnet Hout. unfold acknowledged. by rewrite Hme, Hnet, Hout. Qed.

(** ** The samples of [random.sample] *)

Lemma picks_ext {A} (k : nat) : ∀ (pool : list A) r r' i,
  (∀ n, (i ≤ n)%nat → r n = r' n) →
  picks pool k r i = picks pool k r' i.
Proof.
  induction k as [|k IH]; intros pool r r' i Hext; [done|].
  cbn [picks]. rewrite <- (Hext i) by lia.
  destruct (pool !! _); [|done].
  f_equal. apply IH. intros n Hn. apply Hext. lia.
Qed.

Lemma picks_complete {A} (q : list A) : ∀ (pool : list A) i,
  q ⊆+ pool → ∃ r, picks pool (length q) r i = q.
Proof.
  induction q as [|x q IH]; intros pool i Hsub.
  - by exists (λ _, 0%nat).
  - apply submseteq_cons_l in Hsub as (pool' & Hperm & Hsub).
    assert (x ∈ pool) as Hin by (rewrite Hperm; left).
    apply list_elem_of_lookup in Hin as [j Hj].
    assert (pool_remove pool j ≡ₚ pool') as Hrest.
    { apply (Permutation_cons_inv (a := x)).
      by rewrite pool_remove_Permutation. }
    destruct (IH (pool_remove pool j) (S i)) as [r' Hr'].
    { by rewrite Hrest. }
    exists (λ n, if decide (n = i) then j else r' n).
    cbn [picks length]. destruct (decide (i = i)); [|done].
    rewrite Nat.mod_small by (by eapply lookup_lt_Some).
    rewrite Hj. f_equal. etrans; [|exact Hr']. apply picks_ext.
    intros n Hn. destruct (decide (n = i)); [lia|done].
Qed.

Lemma picks_slots_inj {A} (k : nat) : ∀ (pool : list A) r r' i i',
  NoDup pool → (k ≤ length pool)%nat →
  picks pool k r i = picks pool k r' i' →
  slots pool k r i = slots pool k r' i'.
Proof.
  induction k as [|k IH]; intros pool r r' i i' Hnd Hk; [done|].
  cbn [picks slots].
  assert (r i `mod` length pool < length pool)%nat as Hj
    by (apply Nat.mod_upper_bound; lia).
  assert (r' i' `mod` length pool < length pool)%nat as Hj'
    by (apply Nat.mod_upper_bound; lia).
  apply lookup_lt_is_Some_2 in Hj as [x Hx], Hj' as [x' Hx'].
  rewrite Hx, Hx'. intros [= -> Hrest].
  assert (r i `mod` length pool = r' i' `mod` length pool)%nat as Hsame
    by (by eapply NoDup_lookup).
  rewrite Hsame in *. f_equal. apply IH; [| |done].
  - pose proof (pool_remove_Permutation pool _ _ Hx') as Hperm.
    rewrite <- Hperm in Hnd. by apply NoDup_cons in Hnd as [_ ?].
  - rewrite pool_remove_length. lia.
Qed.

Lemma NoDup_submseteq_inv {A} (q l : list A) : q ⊆+ l → NoDup l → NoDup q.
Proof.
  intros Hsub Hnd. apply submseteq_Permutation in Hsub as [rest Hperm].
  rewrite Hperm in Hnd. by apply NoDup_app in Hnd as [? _].
Qed.

(** C7, as amended.  [select_quorum(k)] of [src/server.py] returns
    [min(k, len(server_addresses))] addresses taken from distinct positions
    of the server list, its own address possibly among them: as many as
    asked only when the list is long enough, and free of repetitions when the
    list is.  Every such list is the quorum for some draws of the generator,
    and on a list without repetitions different slots drawn give different
    quorums.  When [k] servers exist, [select_quorum] of
    [src/quorum/server.py] returns the same list. *)
Theorem select_quorum_sample (w : World Unified.Server) (quorum_size : nat) :
  let servers := Unified.server_addresses (srv w) in
  let k := (quorum_size `min` length servers)%nat in
  ∃ quorum,
    Unified.select_quorum quorum_size w = (Returned quorum, advance w k) ∧
    length quorum = k ∧
    quorum ⊆+ servers ∧
    (NoDup servers → NoDup quorum) ∧
    (∀ q, q ⊆+ servers → length q = k →
       ∃ r, fst (Unified.select_quorum quorum_size (with_rng w r)) = Returned q) ∧
    (∀ r, NoDup servers →
       fst (Unified.select_quorum quorum_size (with_rng w r)) = Returned quorum →
       slots servers k r (drawn w) = slots servers k (rng w) (drawn w)) ∧
    ((quorum_size ≤ length servers)%nat →
       Quorum.select_quorum quorum_size w = (Returned quorum, advance w k)).
Proof.
  intros servers k.
  exists (picks servers k (rng w) (drawn w)).
  destruct (picks_spec k servers (rng w) (drawn w)) as [Hlen Hsub]; [subst k; lia|].
  split; [apply unified_select_quorum_run|].
  split; [done|]. split; [done|].
  split; [intros Hnd; by eapply NoDup_submseteq_inv|].
  split; [|split].
  - intros q Hq Hqlen. destruct (picks_complete q servers (drawn w) Hq) as [r Hr].
    exists r. rewrite unified_select_quorum_run. cbn [fst with_rng srv rng drawn].
    fold servers. fold k. by rewrite <- Hqlen, Hr.
  - intros r Hnd. rewrite unified_select_quorum_run. cbn [fst with_rng srv rng drawn].
    fold servers. fold k. intros [= Hsame].
    apply picks_slots_inj; [done|subst k; lia|done].
  - intros Hle. rewrite standalone_select_quorum_run. fold servers.
    destruct (decide _); [|done].
    subst k. by rewrite Nat.min_l.
Qed.

Lemma select_quorum_sample_witness :
  let w := boot (Unified.init "s1" 5001 s1 [s1; s2; s3] "quorum" 3 2 2 true) [] [2; 0]%nat in
  ∃ quorum,
    Unified.select_quorum 2 w = (Returned quorum, advance w 2) ∧
    length quorum = 2%nat ∧ NoDup quorum.
Proof.
  intros w. destruct (select_quorum_sample w 2) as (quorum & Hrun & Hlen & _ & Hnd & _).
  exists quorum. split; [exact Hrun|]. split; [exact Hlen|].
  apply Hnd. apply (bool_decide_unpack _). vm_compute. exact I.
Defined.

(** C7, as stated, fails: a server list shorter than the quorum size gives a
    smaller quorum, and an address the list repeats can be chosen twice. *)
Lemma select_quorum_counterexample :
  fst (Unified.select_quorum 2
         (boot (Unified.init "s1" 5001 s1 [s1] "quorum" 1 2 2 true) [] []))
  = Returned [s1] ∧
  fst (Unified.select_quorum 2
         (boot (Unified.init "s1" 5001 s1 [s1; s2; s2] "quorum" 3 2 2 true) [] [1; 1]%nat))
  = Returned [s2; s2].
Proof. split; reflexivity. Qed.

(** In [src/quorum/server.py] the call raises instead. *)
Lemma standalone_select_quorum_raises (w : World Unified.Server) (quorum_size : nat) :
  (length (Unified.server_addresses (srv w)) < quorum_size)%nat →
  Quorum.select_quorum quorum_size w = (Raised ValueError, w).
Proof.
  intros Hlt. rewrite standalone_select_quorum_run.
  destruct (decide _); [lia|done].
Qed.

(** ** Dispatch *)

(** C10.  Outside Read-Your-Writes mode, [client_connect] is answered
    [connect_ack] and changes nothing: not the store, the session map or the
    next article id, and no message is sent. *)
Theorem client_connect_other_modes (w : World Unified.Server)
    (client_id : string) (write_counter : Z) :
  Unified.consistency_model (srv w) = "sequential" ∨
  Unified.consistency_model (srv w) = "quorum" →
  Unified.handle_message (Msg.client_connect client_id write_counter) w
  = (Returned Rsp.connect_ack, w).
Proof.
  intros Hmodel. unfold Unified.handle_message. rewrite run_bind, run_self.
  destruct (decide _) as [Hryw|_]; [|done].
  destruct Hmodel as [Hm|Hm]; rewrite Hm in Hryw; discriminate.
Qed.

Lemma client_connect_other_modes_witness :
  let w := boot (Unified.init "s2" 5002 s1 [s2; s1; s3] "sequential" 3 2 2 false) [] [] in
  Unified.consistency_model (srv w) = "sequential" ∧
  Unified.handle_message (Msg.client_connect "X" 4) w = (Returned Rsp.connect_ack, w).
Proof.
  intros w. split; [reflexivity|].
  apply (client_connect_other_modes w "X" 4). left. reflexivity.
Defined.

(** ** Read-Your-Writes: allocation of ids *)

Lemma get_next_article_id_none (w w' : World Unified.Server) :
  Unified.get_next_article_id w = (Returned None, w') → srv w' = srv w.
Proof.
  unfold Unified.get_next_article_id. rewrite run_bind, run_self.
  destruct (Unified.is_coordinator (srv w)); [done|].
  unfold try_except. rewrite run_bind.
  unfold send_message.
  destruct (net w (length (outbox w))) as [[]|]; cbn; by intros [= <-].
Qed.

Lemma get_next_article_id_returns (w : World Unified.Server) :
  ∃ article_id w', Unified.get_next_article_id w = (Returned article_id, w').
Proof.
  unfold Unified.get_next_article_id. rewrite run_bind, run_self.
  destruct (Unified.is_coordinator (srv w)); [by eexists _, _|].
  unfold try_except. rewrite run_bind.
  unfold send_message.
  destruct (net w (length (outbox w))) as [[]|]; cbn; by eexists _, _.
Qed.

(** X29.  C3 on [src/server.py]: when no id is obtained, the write handlers answer
    the error and leave the server object as it was. *)
Lemma allocation_failure_unified (w w1 : World Unified.Server) (p : Post.t) :
  Unified.get_next_article_id w = (Returned None, w1) →
  let failed := Rsp.error "Failed to get article ID from coordinator" in
  Unified.handle_post_article_read_your_writes p w = (Returned failed, w1) ∧
  Unified.handle_reply_article_read_your_writes p w = (Returned failed, w1) ∧
  srv w1 = srv w.
Proof.
  intros Hnone failed.
  unfold Unified.handle_post_article_read_your_writes,
    Unified.handle_reply_article_read_your_writes.
  rewrite !run_bind, Hnone. repeat split. by eapply get_next_article_id_none.
Qed.

(** C3 on [src/ryw/server.py], at a server whose coordinator is unreachable:
    the post is answered [post_success] with no id, an article without id is
    stored, and the session counter is set. *)
Lemma allocation_failure_standalone :
  let w := boot (Ryw.init "s2" 5002 s1 [s2; s1] false) [None] [] in
  let post := Msg.post_article (Post.mk "X" 1 None "T" "C") in
  let reply := Msg.reply_article (Post.mk "X" 1 (Some 4) "T" "C") in
  fst (Ryw.get_next_article_id w) = Returned None ∧
  fst (Ryw.handle_message post w) = Returned (Some (Ryw.post_success None)) ∧
  Ryw.articles (srv (snd (Ryw.handle_message post w)))
  = [Ryw.mkArticle None None "T" "C" "X" 1] ∧
  Ryw.client_write_counters (srv (snd (Ryw.handle_message post w))) !! "X" = Some 1 ∧
  fst (Ryw.handle_message reply w) = Returned (Some (Ryw.post_success None)) ∧
  Ryw.articles (srv (snd (Ryw.handle_message reply w)))
  = [Ryw.mkArticle None (Some 4) "T" "C" "X" 1].
Proof. repeat split; reflexivity. Qed.

(** ** Read-Your-Writes: session counters *)

(** C4 at a failing input: a post that carries a smaller [write_counter]
    than the one recorded lowers the session counter, in both files. *)
Lemma post_lowers_session_counter :
  let first := Msg.post_article (Post.mk "X" 5 None "T" "C") in
  let second := Msg.post_article (Post.mk "X" 3 None "U" "D") in
  let w0 := boot (Unified.init "s1" 5001 s1 [s1; s2] "read_your_writes" 3 2 2 true) [] [] in
  let w1 := snd (Unified.handle_message first w0) in
  let w2 := snd (Unified.handle_message second w1) in
  let v0 := boot (Ryw.init "s1" 5001 s1 [s1; s2] true) [] [] in
  let v1 := snd (Ryw.handle_message first v0) in
  let v2 := snd (Ryw.handle_message second v1) in
  Unified.counter_of (srv w0) "X" = 0 ∧
  Unified.counter_of (srv w1) "X" = 5 ∧
  Unified.counter_of (srv w2) "X" = 3 ∧
  Ryw.counter_of (srv v1) "X" = 5 ∧
  Ryw.counter_of (srv v2) "X" = 3.
Proof. repeat split; reflexivity. Qed.

(** ** Properties kept by every exit of a computation *)

Section Preserves.
Context {St : Type} (P : World St → Prop).

Lemma preserves_ret {A} (a : A) : preserves P (mret a).
Proof. by intros w. Qed.

Lemma preserves_bind {A B} (m : M St A) (f : A → M St B) :
  preserves P m → (∀ a, preserves P (f a)) → preserves P (m ≫= f).
Proof.
  intros Hm Hf w Hw. rewrite run_bind. specialize (Hm w Hw).
  destruct (m w) as [[a|e] w']; [by apply Hf|done].
Qed.

Lemma preserves_self_bind {B} (f : St → M St B) :
  (∀ w, P w → P (snd (f (srv w) w))) → preserves P (self ≫= f).
Proof. intros Hf w Hw. rewrite run_bind, run_self. by apply Hf. Qed.

Lemma preserves_try {A} (body : M St A) (handler : exn → M St A) :
  preserves P body → (∀ e, preserves P (handler e)) → preserves P (try_except body handler).
Proof.
  intros Hb Hh w Hw. unfold try_except. specialize (Hb w Hw).
  destruct (body w) as [[a|e] w']; [done|by apply Hh].
Qed.

Lemma preserves_for {A} (l : list A) (body : A → M St unit) :
  (∀ x, preserves P (body x)) → preserves P (for_ l body).
Proof.
  intros Hbody. induction l as [|x l IH]; [by apply preserves_ret|].
  apply preserves_bind; [apply Hbody|by intros _].
Qed.

Lemma preserves_send (addr : address) (message : Msg.t) :
  (∀ w, P w → P (with_call w addr message)) → preserves P (send_message addr message).
Proof.
  intros Hcall w Hw. unfold send_message.
  destruct (net w (length (outbox w))); by apply Hcall.
Qed.

End Preserves.

(** ** Session counters on the receiving paths *)

Lemma store_tagged_run (d : Tagged.t) (w : World Unified.Server) :
  Unified.store_tagged d w = (Returned tt, with_srv w (stored d (srv w))).
Proof. reflexivity. Qed.

Lemma counter_of_stored (d : Tagged.t) (s : Unified.Server) (c : string) :
  Unified.counter_of (stored d s) c
  = if decide (Tagged.client_id d = c)
    then Z.max (Unified.counter_of s c) (Tagged.write_counter d)
    else Unified.counter_of s c.
Proof.
  unfold stored, Unified.counter_of. cbn.
  destruct (decide _) as [<-|Hne].
  - by rewrite lookup_insert_eq.
  - by rewrite lookup_insert_ne.
Qed.

Lemma counters_from_stored s0 d : preserves (counters_from s0) (Unified.store_tagged d).
Proof.
  intros w Hw c. rewrite store_tagged_run. cbn [snd with_srv srv].
  rewrite counter_of_stored. specialize (Hw c). destruct (decide _); lia.
Qed.

(** X23.  C4 on the paths that receive articles: [new_article], [new_articles],
    the missing-article fetch and [client_connect] never lower a session
    counter, and a fresh server has every counter at 0. *)
Lemma receiving_paths_monotone (w : World Unified.Server) (c : string) :
  (∀ host port coord addrs model N NR NW is_coord,
     Unified.counter_of (Unified.init host port coord addrs model N NR NW is_coord) c = 0) ∧
  (∀ article session,
     Unified.counter_of (srv w) c
     ≤ Unified.counter_of
         (srv (snd (Unified.handle_new_article_read_your_writes article session w))) c) ∧
  (∀ articles_,
     Unified.counter_of (srv w) c
     ≤ Unified.counter_of (srv (snd (Unified.handle_new_articles articles_ w))) c) ∧
  (∀ client_id counters,
     Unified.counter_of (srv w) c
     ≤ Unified.counter_of (srv (snd (Unified.get_missing_articles client_id counters w))) c) ∧
  (∀ client_id write_counter,
     Unified.counter_of (srv w) c
     ≤ Unified.counter_of (srv (snd (Unified.handle_client_connect client_id write_counter w))) c).
Proof.
  assert (counters_from (srv w) w) as Hw by (intros ?; lia).
  assert (∀ client_id counters,
            preserves (counters_from (srv w)) (Unified.get_missing_articles client_id counters))
    as Hmissing.
  { intros client_id counters. apply preserves_self_bind. intros w1 Hw1.
    apply preserves_for; [|done]. intros addr.
    destruct (decide _); [|apply preserves_ret].
    apply preserves_try; [|intros; apply preserves_ret].
    apply preserves_bind; [by apply preserves_send|].
    intros []; try apply preserves_ret.
    apply preserves_for. intros d. apply counters_from_stored. }
  split; [done|]. split; [|split; [|split]].
  - intros article [[client_id write_counter]|]; [|cbn; lia].
    pose proof (counters_from_stored (srv w)
      (Tagged.mk (Wire.id article) (Wire.parent_id article) (Wire.title article)
                 (Wire.content article) client_id write_counter) w Hw c) as Hc.
    exact Hc.
  - intros articles_.
    assert (preserves (counters_from (srv w)) (Unified.handle_new_articles articles_)) as Hp.
    { apply preserves_bind; [|intros; apply preserves_ret].
      apply preserves_for. intros d. apply preserves_self_bind. intros w1 Hw1.
      destruct (negb _); [|done]. by apply (counters_from_stored (srv w) d). }
    apply (Hp w Hw c).
  - intros client_id counters. apply (Hmissing client_id counters w Hw c).
  - intros client_id write_counter.
    assert (preserves (counters_from (srv w))
              (Unified.handle_client_connect client_id write_counter)) as Hp.
    { apply preserves_self_bind. intros w1 Hw1.
      apply preserves_bind; [|intros; apply preserves_ret|done].
      destruct (if decide _ then _ else _); [apply preserves_ret|apply Hmissing]. }
    apply (Hp w Hw c).
Qed.

(** ** Bulk propagation *)

Lemma holds_elem_of (article_id : Z) (l : list Article.t) :
  Unified.holds article_id l = true ↔ article_id ∈ Article.id <$> l.
Proof.
  unfold Unified.holds. rewrite existsb_exists, list_elem_of_fmap.
  split.
  - intros (a & Hin & Heq). apply bool_decide_eq_true in Heq.
    exists a. split; [done|]. by apply list_elem_of_In.
  - intros (a & Heq & Hin). exists a. split; [by apply list_elem_of_In|].
    by apply bool_decide_eq_true.
Qed.

Lemma filter_ext_elem {A} (P Q : A → Prop) `{∀ x, Decision (P x)} `{∀ x, Decision (Q x)}
    (l : list A) :
  (∀ x, x ∈ l → P x ↔ Q x) → filter P l = filter Q l.
Proof.
  induction l as [|x l IH]; intros Hsame; [done|].
  rewrite !filter_cons.
  assert (P x ↔ Q x) as Hx by (apply Hsame; left).
  rewrite IH by (intros y Hy; apply Hsame; by right).
  destruct (decide (P x)), (decide (Q x)); tauto.
Qed.

Lemma first_by_ext {A} (key : A → Z) (l : list A) : ∀ seen seen',
  (∀ x, x ∈ seen ↔ x ∈ seen') → first_by key seen l = first_by key seen' l.
Proof.
  induction l as [|d rest IH]; intros seen seen' Hsame; [done|].
  cbn [first_by]. pose proof (Hsame (key d)) as Hd.
  destruct (decide (_ ∈ seen)) as [Hin|Hout];
    destruct (decide (_ ∈ seen')) as [Hin'|Hout']; try tauto.
  - by apply IH.
  - f_equal. apply IH. intros x. rewrite !elem_of_cons. specialize (Hsame x). tauto.
Qed.

Lemma first_by_distinct {A} (key : A → Z) (l : list A) : ∀ seen,
  NoDup (key <$> l) → first_by key seen l = filter (λ d, key d ∉ seen) l.
Proof.
  induction l as [|d rest IH]; intros seen Hnd; [done|].
  rewrite fmap_cons in Hnd. apply NoDup_cons in Hnd as [Hfresh Hnd].
  cbn [first_by]. rewrite filter_cons.
  destruct (decide (_ ∈ seen)) as [Hin|Hout]; destruct (decide (_ ∉ seen)); try done.
  - by apply IH.
  - f_equal. rewrite IH by done. apply filter_ext_elem.
    intros x Hx. rewrite not_elem_of_cons.
    split; [tauto|]. intros Hseen. split; [|done].
    intros Heq. apply Hfresh. rewrite <- Heq. apply list_elem_of_fmap. eauto.
Qed.

Lemma greatest_counter_cons base c d l :
  greatest_counter base c (d :: l)
  = if decide (Tagged.client_id d = c)
    then Z.max (Tagged.write_counter d) (greatest_counter base c l)
    else greatest_counter base c l.
Proof.
  unfold greatest_counter. rewrite filter_cons. by destruct (decide _).
Qed.

Lemma greatest_counter_base base v c l :
  greatest_counter (Z.max base v) c l = Z.max v (greatest_counter base c l).
Proof.
  unfold greatest_counter.
  induction (Tagged.write_counter <$> filter _ l) as [|x xs IH]; cbn; lia.
Qed.

Lemma new_articles_loop (message : list Tagged.t) : ∀ (w : World Unified.Server),
  let appended := lacking (Article.id <$> Unified.articles (srv w)) message in
  ∃ s',
    for_ message (λ article_data,
      s ← self;
      if negb (Unified.holds (Tagged.id article_data) (Unified.articles s))
      then Unified.store_tagged article_data
      else mret tt) w
    = (Returned tt, with_srv w s') ∧
    Unified.articles s' = Unified.articles (srv w) ++ (Unified.of_tagged <$> appended) ∧
    (∀ c, Unified.counter_of s' c
          = greatest_counter (Unified.counter_of (srv w) c) c appended) ∧
    Unified.next_article_id s' = Unified.next_article_id (srv w).
Proof.
  induction message as [|d rest IH]; intros w appended; subst appended.
  - exists (srv w). cbn. rewrite app_nil_r. by destruct w.
  - unfold lacking. cbn [for_ first_by]. fold (lacking (Article.id <$> Unified.articles (srv w))).
    rewrite run_bind, run_bind, run_self.
    destruct (decide (Tagged.id d ∈ _)) as [Hin|Hout].
    + apply holds_elem_of in Hin as Hheld. rewrite Hheld. cbn [negb].
      apply (IH w).
    + assert (Unified.holds (Tagged.id d) (Unified.articles (srv w)) = false) as Hheld.
      { apply not_true_is_false. by rewrite holds_elem_of. }
      rewrite Hheld. cbn [negb]. rewrite store_tagged_run.
      destruct (IH (with_srv w (stored d (srv w)))) as (s' & Hrun & Harts & Hcnt & Hnext).
      exists s'. split; [exact Hrun|]. cbn [with_srv srv] in *.
      assert (lacking (Article.id <$> Unified.articles (stored d (srv w))) rest
              = lacking (Tagged.id d :: (Article.id <$> Unified.articles (srv w))) rest)
        as Hlack.
      { apply first_by_ext. intros x. cbn. rewrite fmap_app.
        change (Article.id <$> [Unified.of_tagged d]) with [Tagged.id d].
        rewrite elem_of_app, !elem_of_cons, elem_of_nil. tauto. }
      rewrite Hlack in Harts, Hcnt. split; [|split].
      * rewrite Harts. cbn. by rewrite <- app_assoc.
      * intros c. rewrite Hcnt, counter_of_stored, greatest_counter_cons.
        destruct (decide _); [|done]. by rewrite greatest_counter_base.
      * by rewrite Hnext.
Qed.

(** X24.  C5 on [src/server.py].  In Read-Your-Writes mode the receiver of
    [new_articles] appends, in the order of the message, exactly the articles
    whose id it does not hold when their turn comes, and leaves each session
    counter at the greatest of its former value and the write counters of the
    appended articles of that client.  When no id occurs twice in the
    message, the appended articles are those whose id was not in the store. *)
Lemma new_articles_appends_lacking (w : World Unified.Server) (message : list Tagged.t) :
  Unified.consistency_model (srv w) = "read_your_writes" →
  let held := Article.id <$> Unified.articles (srv w) in
  let appended := lacking held message in
  ∃ s',
    Unified.handle_message (Msg.new_articles message) w = (Returned Rsp.ack, with_srv w s') ∧
    Unified.articles s' = Unified.articles (srv w) ++ (Unified.of_tagged <$> appended) ∧
    (∀ c, Unified.counter_of s' c
          = greatest_counter (Unified.counter_of (srv w) c) c appended) ∧
    Unified.next_article_id s' = Unified.next_article_id (srv w) ∧
    (NoDup (Tagged.id <$> message) →
     appended = filter (λ d, Tagged.id d ∉ held) message).
Proof.
  intros Hmodel held appended.
  destruct (new_articles_loop message w) as (s' & Hrun & Harts & Hcnt & Hnext).
  exists s'. split; [|repeat split; try done; by apply first_by_distinct].
  unfold Unified.handle_message. rewrite run_bind, run_self.
  destruct (decide _); [|done].
  unfold Unified.handle_new_articles. rewrite run_bind.
  change (for_ message _ w) with
    (for_ message (λ article_data,
       s ← self;
       if negb (Unified.holds (Tagged.id article_data) (Unified.articles s))
       then Unified.store_tagged article_data
       else mret tt) w).
  by rewrite Hrun.
Qed.

Lemma new_articles_appends_lacking_witness :
  let w := boot (Unified.set_articles [Article.mk 1 None "T" "C" (Some "X") (Some 1)]
                   (Unified.init "s2" 5002 s1 [s2; s1] "read_your_writes" 3 2 2 false))
             [] [] in
  let message := [Tagged.mk 1 None "T" "C" "X" 1; Tagged.mk 2 (Some 1) "R" "D" "X" 2] in
  Unified.consistency_model (srv w) = "read_your_writes" ∧
  ∃ s',
    Unified.handle_message (Msg.new_articles message) w = (Returned Rsp.ack, with_srv w s') ∧
    Unified.articles s'
    = [Article.mk 1 None "T" "C" (Some "X") (Some 1);
       Article.mk 2 (Some 1) "R" "D" (Some "X") (Some 2)] ∧
    Unified.counter_of s' "X" = 2.
Proof.
  intros w message. split; [reflexivity|].
  destruct (new_articles_appends_lacking w message) as (s' & Hrun & Harts & Hcnt & _);
    [reflexivity|].
  exists s'. split; [exact Hrun|]. split; [exact Harts|]. exact (Hcnt "X").
Defined.

(** [handle_message] of [src/ryw/server.py] has no branch for
    [new_articles]: in every state the receiver answers "Unknown message
    type" and changes nothing. *)
Lemma new_articles_unknown_standalone (w : World Ryw.Server) (message : list Tagged.t) :
  Ryw.handle_message (Msg.new_articles message) w
  = (Returned (Some (Ryw.error "Unknown message type")), w).
Proof. reflexivity. Qed.

(** C5 at a failing input: a fresh server of [src/ryw/server.py] that
    receives the bulk propagation of one article answers with the error and
    neither stores the article nor raises the session counter. *)
Lemma new_articles_dropped_standalone :
  let w := boot (Ryw.init "s2" 5002 s1 [s2; s1] false) [] [] in
  let message := [Tagged.mk 1 None "T" "C" "X" 1] in
  fst (Ryw.handle_message (Msg.new_articles message) w)
  = Returned (Some (Ryw.error "Unknown message type")) ∧
  Ryw.articles (srv (snd (Ryw.handle_message (Msg.new_articles message) w))) = [] ∧
  Ryw.counter_of (srv (snd (Ryw.handle_message (Msg.new_articles message) w))) "X" = 0.
Proof. repeat split; reflexivity. Qed.

(** ** The Sequential coordinator *)

Lemma run_assign {St} (f : St → St) (w : World St) :
  assign f w = (Returned tt, with_srv w (f (srv w))).
Proof. reflexivity. Qed.

Lemma try_send_run {St} (addr : address) (message : Msg.t) (w : World St) :
  try_except (send_message addr message ;; mret tt) (λ _, mret tt) w
  = (Returned tt, with_call w addr message).
Proof.
  unfold try_except. rewrite run_bind. unfold send_message.
  by destruct (net w (length (outbox w))).
Qed.

Lemma propagate_article_sequential_run (article : Article.t) (w : World Unified.Server) :
  ∃ w', Unified.propagate_article_sequential article w = (Returned tt, w') ∧
        srv w' = srv w.
Proof.
  unfold Unified.propagate_article_sequential. rewrite run_bind, run_self.
  generalize (Unified.server_addresses (srv w)). generalize (Unified.me (srv w)).
  intros self_addr l. revert w.
  induction l as [|addr l IH]; intros w; [by exists w|].
  cbn [for_]. rewrite run_bind.
  destruct (decide (addr ≠ self_addr)).
  - rewrite try_send_run.
    destruct (IH (with_call w addr (Msg.new_article (Unified.wire_of article) None)))
      as (w' & Hrun & Hsrv).
    exists w'. by rewrite Hrun.
  - apply IH.
Qed.

Lemma sequential_post_run (w : World Unified.Server) (p : Post.t) :
  sequential_coordinator (srv w) →
  ∃ w',
    Unified.handle_message (Msg.post_article p) w
    = (Returned (Rsp.post_success (Some (Unified.next_article_id (srv w)))), w') ∧
    srv w' = written (srv w) None (Post.title p) (Post.content p).
Proof.
  intros [Hmodel Hcoord].
  unfold Unified.handle_message. rewrite run_bind, run_self.
  unfold Unified.handle_post_article. rewrite run_bind, run_self.
  destruct (decide _); [|done].
  unfold Unified.handle_post_article_sequential. rewrite run_bind, run_self, Hcoord.
  rewrite run_bind, run_assign. unfold Unified.append.
  rewrite run_bind, run_assign, run_bind.
  match goal with |- context [Unified.propagate_article_sequential ?a ?w1] =>
    destruct (propagate_article_sequential_run a w1) as (w' & Hrun & Hsrv)
  end.
  rewrite Hrun. exists w'. split; [done|]. by rewrite Hsrv.
Qed.

Lemma sequential_reply_run (w : World Unified.Server) (p : Post.t) :
  sequential_coordinator (srv w) →
  ∃ w',
    Unified.handle_message (Msg.reply_article p) w
    = (Returned (Rsp.post_success (Some (Unified.next_article_id (srv w)))), w') ∧
    srv w' = written (srv w) (Post.parent_id p) (Post.title p) (Post.content p).
Proof.
  intros [Hmodel Hcoord].
  unfold Unified.handle_message. rewrite run_bind, run_self.
  unfold Unified.handle_reply_article. rewrite run_bind, run_self.
  destruct (decide _); [|done].
  unfold Unified.handle_reply_article_sequential. rewrite run_bind, run_self, Hcoord.
  rewrite run_bind, run_assign. unfold Unified.append.
  rewrite run_bind, run_assign, run_bind.
  match goal with |- context [Unified.propagate_article_sequential ?a ?w1] =>
    destruct (propagate_article_sequential_run a w1) as (w' & Hrun & Hsrv)
  end.
  rewrite Hrun. exists w'. split; [done|]. by rewrite Hsrv.
Qed.

(** What a step can do to the coordinator: nothing, an allocation, or an
    allocation and the append of the article written under the new id. *)
Lemma coordinator_step_cases (s s' : Unified.Server) :
  sequential_coordinator s → coordinator_step s s' →
  s' = s ∨ s' = allocate s ∨ ∃ parent_id title content, s' = written s parent_id title content.
Proof.
  intros Hseq (message & Hnot & w & <- & <-).
  pose proof Hseq as [Hmodel Hcoord].
  destruct message; try discriminate Hnot.
  - left. unfold Unified.handle_message. rewrite run_bind, run_self.
    destruct (decide _) as [Hryw|]; [|done]. rewrite Hmodel in Hryw. discriminate.
  - right. right. destruct (sequential_post_run w p Hseq) as (w' & Hrun & Hsrv).
    rewrite Hrun. eauto.
  - right. right. destruct (sequential_reply_run w p Hseq) as (w' & Hrun & Hsrv).
    rewrite Hrun. eauto.
  - left. unfold Unified.handle_message. rewrite run_bind, run_self.
    unfold Unified.handle_read_articles. rewrite run_bind, run_self.
    by destruct (decide _).
  - left. unfold Unified.handle_message. rewrite run_bind, run_self.
    unfold Unified.handle_read_article_content. rewrite run_bind, run_self.
    destruct (decide _); [|done].
    unfold Unified.handle_read_article_content_sequential. rewrite run_bind, run_self.
    by destruct (Unified.lookup_article _ _).
  - left. unfold Unified.handle_message. rewrite run_bind, run_self.
    destruct (decide _) as [Hq|]; [|done]. rewrite Hmodel in Hq. discriminate.
  - by left.
  - left. unfold Unified.handle_message. rewrite run_bind, run_self.
    unfold Unified.handle_get_article_content. rewrite run_bind, run_self.
    by destruct (Unified.lookup_article _ _).
  - left. unfold Unified.handle_message. rewrite run_bind, run_self.
    destruct (decide _) as [Hq|]; [|done]. rewrite Hmodel in Hq. discriminate.
  - left. unfold Unified.handle_message. rewrite run_bind, run_self.
    destruct (decide _) as [Hq|]; [|done]. rewrite Hmodel in Hq. discriminate.
  - right. left. unfold Unified.handle_message. rewrite run_bind, run_self.
    unfold Unified.handle_get_next_article_id. rewrite run_bind, run_self, Hcoord.
    reflexivity.
  - left. unfold Unified.handle_message. rewrite run_bind, run_self.
    destruct (decide _) as [Hq|]; [|done]. rewrite Hmodel in Hq. discriminate.
  - by left.
Qed.

Lemma allocated_allocate s : allocated s → allocated (allocate s).
Proof.
  intros [Hids Hnd]. split; [|done]. cbn.
  eapply Forall_impl; [exact Hids|]. cbn. intros a ?. lia.
Qed.

Lemma allocated_written s parent_id title content :
  1 ≤ Unified.next_article_id s → allocated s → allocated (written s parent_id title content).
Proof.
  intros Hpos [Hids Hnd]. split; cbn.
  - apply Forall_app. split.
    + eapply Forall_impl; [exact Hids|]. cbn. intros a ?. lia.
    + apply Forall_singleton. cbn. lia.
  - rewrite fmap_app. apply NoDup_app. split; [done|]. split; [|apply NoDup_singleton].
    intros x Hx. cbn. rewrite list_elem_of_singleton. intros ->.
    apply list_elem_of_fmap in Hx as (a & Heq & Ha).
    rewrite Forall_forall in Hids. specialize (Hids a Ha). lia.
Qed.

(** The invariant of a step, and what a step keeps of the store. *)
Lemma coordinator_step_invariant (s s' : Unified.Server) :
  sequential_coordinator s → 1 ≤ Unified.next_article_id s → allocated s →
  coordinator_step s s' →
  sequential_coordinator s' ∧ 1 ≤ Unified.next_article_id s' ∧ allocated s' ∧
  Unified.articles s `prefix_of` Unified.articles s'.
Proof.
  intros Hseq Hpos Halloc Hstep.
  destruct (coordinator_step_cases s s' Hseq Hstep)
    as [->|[->|(parent_id & title & content & ->)]].
  - done.
  - split; [exact Hseq|]. split; [cbn; lia|]. split; [by apply allocated_allocate|done].
  - split; [exact Hseq|]. split; [cbn; lia|]. split; [by apply allocated_written|].
    by apply prefix_app_r.
Qed.

Lemma coordinator_steps_invariant (s s' : Unified.Server) :
  sequential_coordinator s → 1 ≤ Unified.next_article_id s → allocated s →
  rtc coordinator_step s s' →
  sequential_coordinator s' ∧ 1 ≤ Unified.next_article_id s' ∧ allocated s' ∧
  Unified.articles s `prefix_of` Unified.articles s'.
Proof.
  intros Hseq Hpos Halloc Hsteps. induction Hsteps as [s|s s1 s' Hstep Hsteps IH]; [done|].
  destruct (coordinator_step_invariant s s1 Hseq Hpos Halloc Hstep)
    as (Hseq1 & Hpos1 & Halloc1 & Hpre1).
  destruct (IH Hseq1 Hpos1 Halloc1) as (? & ? & ? & Hpre).
  split; [done|]. split; [done|]. split; [done|]. by etrans.
Qed.

(** C2 on the coordinator of a Sequential cluster: every stored id is at
    least 1 and stored once. *)
Lemma coordinator_reachable_allocated (s : Unified.Server) :
  coordinator_reachable s →
  sequential_coordinator s ∧ 1 ≤ Unified.next_article_id s ∧ allocated s.
Proof.
  intros (host & port & coord & addrs & N & NR & NW & Hsteps).
  eapply coordinator_steps_invariant in Hsteps as (? & ? & ? & _); try done.
  - cbn. split; [apply Forall_nil_2|apply NoDup_nil_2].
Qed.

(** ** Reading back what was posted *)

Lemma lookup_article_fresh (article_id : Z) (l : list Article.t) :
  Forall (λ a, Article.id a < article_id) l → Unified.lookup_article article_id l = None.
Proof.
  unfold Unified.lookup_article. induction 1 as [|a l Ha _ IH]; [done|].
  cbn. rewrite bool_decide_eq_false_2 by lia. exact IH.
Qed.

Lemma lookup_article_appended (a : Article.t) (l more : list Article.t) :
  Unified.lookup_article (Article.id a) l = None →
  Unified.lookup_article (Article.id a) ((l ++ [a]) ++ more) = Some a.
Proof.
  unfold Unified.lookup_article. intros Hnone.
  rewrite <- app_assoc. induction l as [|b l IH]; cbn in *.
  - by rewrite bool_decide_eq_true_2.
  - destruct (bool_decide (Article.id b = Article.id a)); [done|by apply IH].
Qed.

Lemma sequential_read_content_run (w : World Unified.Server) (article_id : Z) :
  Unified.consistency_model (srv w) = "sequential" →
  Unified.handle_message (Msg.read_article_content article_id) w
  = (match Unified.lookup_article article_id (Unified.articles (srv w)) with
     | Some article => Returned (Rsp.article_content (Unified.wire_of article))
     | None => Returned (Rsp.error "Article not found")
     end, w).
Proof.
  intros Hmodel. unfold Unified.handle_message. rewrite run_bind, run_self.
  unfold Unified.handle_read_article_content. rewrite run_bind, run_self.
  destruct (decide _); [|done].
  unfold Unified.handle_read_article_content_sequential. rewrite run_bind, run_self.
  by destruct (Unified.lookup_article _ _).
Qed.

(** C8.  On the coordinator of a Sequential cluster, the server that handles
    a post locally, [post_article] is answered [post_success] with an id, and
    [read_article_content] of that id, then and after any further steps of the
    server, is answered [article_content] with the title and the content
    posted. *)
Theorem post_then_fetch (w : World Unified.Server) (p : Post.t) :
  coordinator_reachable (srv w) →
  ∃ article_id w',
    Unified.handle_message (Msg.post_article p) w
    = (Returned (Rsp.post_success (Some article_id)), w') ∧
    ∀ w'', rtc coordinator_step (srv w') (srv w'') →
      fst (Unified.handle_message (Msg.read_article_content article_id) w'')
      = Returned (Rsp.article_content
                    (Wire.mk article_id None (Post.title p) (Post.content p))).
Proof.
  intros Hreach.
  destruct (coordinator_reachable_allocated _ Hreach) as (Hseq & Hpos & Halloc).
  destruct (sequential_post_run w p Hseq) as (w' & Hrun & Hsrv).
  exists (Unified.next_article_id (srv w)), w'. split; [exact Hrun|].
  intros w'' Hsteps.
  assert (sequential_coordinator (srv w') ∧ 1 ≤ Unified.next_article_id (srv w') ∧
          allocated (srv w')) as (Hseq' & Hpos' & Halloc').
  { rewrite Hsrv. split; [exact Hseq|]. split; [cbn; lia|]. by apply allocated_written. }
  destruct (coordinator_steps_invariant _ _ Hseq' Hpos' Halloc' Hsteps)
    as ([Hmodel _] & _ & _ & [more Hmore]).
  rewrite sequential_read_content_run by done. cbn [fst].
  rewrite Hmore, Hsrv. cbn [written Unified.articles Unified.set_articles].
  set (a := Article.mk _ _ _ _ _ _).
  rewrite (lookup_article_appended a); [done|].
  apply lookup_article_fresh. destruct Halloc as [Hids _].
  eapply Forall_impl; [exact Hids|]. cbn. intros b ?. lia.
Qed.

Lemma post_then_fetch_witness :
  let w := boot (Unified.init "s1" 5001 s1 [s1; s2] "sequential" 3 2 2 true) [None] [] in
  ∃ article_id w',
    Unified.handle_message (Msg.post_article (Post.mk "" 0 None "hello" "world")) w
    = (Returned (Rsp.post_success (Some article_id)), w') ∧
    fst (Unified.handle_message (Msg.read_article_content article_id) w')
    = Returned (Rsp.article_content (Wire.mk article_id None "hello" "world")).
Proof.
  intros w.
  destruct (post_then_fetch w (Post.mk "" 0 None "hello" "world"))
    as (article_id & w' & Hrun & Hfetch).
  { exists "s1", 5001, s1, [s1; s2], 3%nat, 2%nat, 2%nat. apply rtc_refl. }
  exists article_id, w'. split; [exact Hrun|]. apply Hfetch. apply rtc_refl.
Defined.

(** ** Replies *)

(** C9, as stated, fails: the first reply a fresh coordinator receives, to a
    parent 7 that does not exist, is stored under id 1 with parent 7. *)
Lemma reply_parent_counterexample :
  let w := boot (Unified.init "s1" 5001 s1 [s1] "sequential" 3 2 2 true) [] [] in
  let reply := Msg.reply_article (Post.mk "" 0 (Some 7) "R" "B") in
  coordinator_step (srv w) (srv (snd (Unified.handle_message reply w))) ∧
  fst (Unified.handle_message reply w) = Returned (Rsp.post_success (Some 1)) ∧
  Unified.articles (srv (snd (Unified.handle_message reply w)))
  = [Article.mk 1 (Some 7) "R" "B" None None] ∧
  ¬ 7 < 1.
Proof.
  intros w reply. split; [|split; [reflexivity|split; [reflexivity|lia]]].
  exists reply. split; [reflexivity|]. by exists w.
Qed.

Lemma ryw_reply_run (w w1 : World Unified.Server) (p : Post.t) (article_id : Z) :
  Unified.consistency_model (srv w) = "read_your_writes" →
  Unified.get_next_article_id w = (Returned (Some article_id), w1) →
  ∃ s',
    Unified.handle_message (Msg.reply_article p) w
    = (Returned (Rsp.post_success (Some article_id)), with_srv w1 s') ∧
    Unified.articles s'
    = Unified.articles (srv w1)
      ++ [Article.mk article_id (Post.parent_id p) (Post.title p) (Post.content p)
                     (Some (Post.client_id p)) (Some (Post.write_counter p))].
Proof.
  intros Hmodel Hid. unfold Unified.handle_message. rewrite run_bind, run_self.
  unfold Unified.handle_reply_article. rewrite run_bind, run_self.
  destruct (decide _) as [Hseq|_]; [rewrite Hmodel in Hseq; discriminate|].
  destruct (decide _); [|done].
  unfold Unified.handle_reply_article_read_your_writes. rewrite run_bind, Hid.
  eexists. split; reflexivity.
Qed.

(** C9, as amended.  [reply_article] is accepted whatever its [parent_id],
    held by the store or not, below the new id or not: the Sequential
    coordinator, and a Read-Your-Writes server that obtained an id, store the
    reply with the [parent_id] of the request and answer [post_success].  A
    reply to an article that the Sequential coordinator holds gets an id
    strictly greater than its [parent_id]. *)
Theorem reply_accepted_unvalidated (w : World Unified.Server) (p : Post.t) :
  (sequential_coordinator (srv w) →
   ∃ w',
     Unified.handle_message (Msg.reply_article p) w
     = (Returned (Rsp.post_success (Some (Unified.next_article_id (srv w)))), w') ∧
     Unified.articles (srv w')
     = Unified.articles (srv w)
       ++ [Article.mk (Unified.next_article_id (srv w)) (Post.parent_id p)
                      (Post.title p) (Post.content p) None None]) ∧
  (Unified.consistency_model (srv w) = "read_your_writes" →
   ∀ article_id w1,
     Unified.get_next_article_id w = (Returned (Some article_id), w1) →
     ∃ w',
       Unified.handle_message (Msg.reply_article p) w
       = (Returned (Rsp.post_success (Some article_id)), w') ∧
       Unified.articles (srv w')
       = Unified.articles (srv w1)
         ++ [Article.mk article_id (Post.parent_id p) (Post.title p) (Post.content p)
                        (Some (Post.client_id p)) (Some (Post.write_counter p))]) ∧
  (coordinator_reachable (srv w) →
   ∀ parent, Post.parent_id p = Some parent →
     parent ∈ Article.id <$> Unified.articles (srv w) →
     parent < Unified.next_article_id (srv w)).
Proof.
  split; [|split].
  - intros Hseq. destruct (sequential_reply_run w p Hseq) as (w' & Hrun & Hsrv).
    exists w'. split; [exact Hrun|]. by rewrite Hsrv.
  - intros Hmodel article_id w1 Hid.
    destruct (ryw_reply_run w w1 p article_id Hmodel Hid) as (s' & Hrun & Harts).
    by exists (with_srv w1 s').
  - intros Hreach parent _ Hin.
    destruct (coordinator_reachable_allocated _ Hreach) as (_ & _ & [Hids _]).
    apply list_elem_of_fmap in Hin as (a & -> & Ha).
    rewrite Forall_forall in Hids. specialize (Hids a Ha). lia.
Qed.

Lemma reply_accepted_unvalidated_witness :
  let w := boot (Unified.init "s1" 5001 s1 [s1] "sequential" 3 2 2 true) [] [] in
  let p := Post.mk "" 0 (Some 7) "R" "B" in
  sequential_coordinator (srv w) ∧
  ∃ w',
    Unified.handle_message (Msg.reply_article p) w
    = (Returned (Rsp.post_success (Some 1)), w') ∧
    Unified.articles (srv w') = [Article.mk 1 (Some 7) "R" "B" None None].
Proof.
  intros w p. split; [by split|].
  apply (proj1 (reply_accepted_unvalidated w p)). by split.
Defined.

(** ** Duplicates in a store *)

(** C2 at a failing input, a Read-Your-Writes cluster of three.  Client X
    posts at the coordinator [s1] with write counter 1, connects to [s3],
    which fetches the article from [s1], then connects to [s2], which asks
    [s1] and [s3], receives the article from both and stores it twice. *)
Lemma missing_fetch_stores_twice :
  let fresh address addresses is_coordinator :=
    Unified.init address.1 address.2 s1 addresses "read_your_writes" 3 2 2 is_coordinator in
  let after s message replies := srv (snd (Unified.handle_message message (boot s replies []))) in
  let post := Msg.post_article (Post.mk "X" 1 None "T" "C") in
  let connect := Msg.client_connect "X" 1 in
  let ask := Msg.request_missing_articles "X" [1] in
  let c1 := after (fresh s1 [s1; s2; s3] true) post [] in
  let p2 := fresh s2 [s2; s1; s3] false in
  let p3 := after (fresh s3 [s3; s1; s2] false) connect [answer c1 ask; answer p2 ask] in
  let w2 := boot p2 [answer c1 ask; answer p3 ask] [] in
  outbox (snd (Unified.handle_message connect w2)) = [(s1, ask); (s3, ask)] ∧
  fst (Unified.handle_message connect w2) = Returned Rsp.connect_ack ∧
  Unified.articles (srv (snd (Unified.handle_message connect w2)))
  = [Article.mk 1 None "T" "C" (Some "X") (Some 1);
     Article.mk 1 None "T" "C" (Some "X") (Some 1)] ∧
  ¬ NoDup (Article.id <$> Unified.articles (srv (snd (Unified.handle_message connect w2)))).
Proof.
  intros fresh after post connect ask c1 p2 p3 w2.
  assert (Unified.handle_message connect w2
          = (Returned Rsp.connect_ack,
             mkWorld (Unified.set_client_write_counters (<["X" := 1]> (<["X" := 1]> ∅))
                        (Unified.set_articles
                           [Article.mk 1 None "T" "C" (Some "X") (Some 1);
                            Article.mk 1 None "T" "C" (Some "X") (Some 1)] p2))
                     (net w2) [(s1, ask); (s3, ask)] (rng w2) 0)) as Hrun
    by (vm_compute; reflexivity).
  rewrite Hrun. repeat split.
  cbn. intros Hnd. apply NoDup_cons in Hnd as [Hnot _]. apply Hnot. left.
Qed.

(** ** Dictionaries and sorting *)

Lemma dict_set_fresh {V} (k : Z) (v : V) (d : list (Z * V)) :
  k ∉ d.*1 → dict_set k v d = d ++ [(k, v)].
Proof.
  induction d as [|[k' v'] d IH]; intros Hk; [done|].
  cbn in *. apply not_elem_of_cons in Hk as [Hne Hk].
  destruct (decide (k' = k)); [congruence|]. by rewrite IH.
Qed.

Lemma dict_set_keys {V} (k : Z) (v : V) (d : list (Z * V)) :
  k ∈ d.*1 → (dict_set k v d).*1 = d.*1.
Proof.
  induction d as [|[k' v'] d IH]; intros Hk; [by apply elem_of_nil in Hk|].
  cbn in *. destruct (decide (k' = k)) as [->|Hne]; [done|].
  cbn. f_equal. apply IH. apply elem_of_cons in Hk as [?|?]; [congruence|done].
Qed.

Lemma dict_set_elem_of {V} (k : Z) (v : V) (d : list (Z * V)) (e : Z * V) :
  e ∈ dict_set k v d → e = (k, v) ∨ e ∈ d.
Proof.
  induction d as [|[k' v'] d IH]; cbn.
  - rewrite list_elem_of_singleton. tauto.
  - destruct (decide (k' = k)); rewrite !elem_of_cons; [tauto|].
    intros [?|?]; [tauto|]. destruct IH; tauto.
Qed.

Lemma dict_set_fmap_present {V W} (g : V → W) (k : Z) (v : V) (d : list (Z * V)) :
  k ∈ d.*1 → (∀ v0, (k, v0) ∈ d → g v0 = g v) →
  g <$> (dict_set k v d).*2 = g <$> d.*2.
Proof.
  induction d as [|[k' v'] d IH]; intros Hk Hg; [by apply elem_of_nil in Hk|].
  cbn in *. destruct (decide (k' = k)) as [->|Hne]; cbn.
  - f_equal. symmetry. apply Hg. left.
  - f_equal. apply IH.
    + apply elem_of_cons in Hk as [?|?]; [congruence|done].
    + intros v0 Hv0. apply Hg. by right.
Qed.

Lemma dict_mem_elem_of {V} (k : Z) (d : list (Z * V)) :
  dict_mem k d = true ↔ k ∈ d.*1.
Proof. unfold dict_mem. apply bool_decide_eq_true. Qed.

Lemma dict_set_keyed (a : Article.t) (d : list (Z * Article.t)) :
  keyed d → keyed (dict_set (Article.id a) a d).
Proof.
  intros [Hnd Hkeys]. destruct (decide (Article.id a ∈ d.*1)) as [Hin|Hout].
  - split; [by rewrite dict_set_keys|].
    apply Forall_forall. intros e He. apply dict_set_elem_of in He as [->|He]; [done|].
    rewrite Forall_forall in Hkeys. by apply Hkeys.
  - rewrite dict_set_fresh by done. split.
    + rewrite fmap_app. apply NoDup_app. split; [done|].
      split; [|apply NoDup_singleton].
      intros x Hx. cbn. rewrite list_elem_of_singleton. by intros ->.
    + apply Forall_app. split; [done|]. by apply Forall_singleton.
Qed.

Lemma insert_by_Permutation {A} (key : A → Z) (x : A) (l : list A) :
  insert_by key x l ≡ₚ x :: l.
Proof.
  induction l as [|y l IH]; [done|]. cbn.
  destruct (decide _); [done|]. rewrite IH. apply perm_swap.
Qed.

Lemma sort_by_Permutation {A} (key : A → Z) (l : list A) : sort_by key l ≡ₚ l.
Proof.
  induction l as [|x l IH]; [done|]. cbn.
  by rewrite insert_by_Permutation, IH.
Qed.

Lemma insert_by_sorted {A} (key : A → Z) (x : A) (l : list A) :
  StronglySorted (λ a b, key a ≤ key b) l →
  StronglySorted (λ a b, key a ≤ key b) (insert_by key x l).
Proof.
  induction 1 as [|y l Hl IH Hy]; cbn.
  - repeat constructor.
  - destruct (decide _) as [Hle|Hgt].
    + constructor; [by constructor|]. constructor; [done|].
      eapply Forall_impl; [exact Hy|]. cbn. intros z ?. lia.
    + constructor; [done|]. rewrite insert_by_Permutation.
      constructor; [lia|done].
Qed.

Lemma sort_by_sorted {A} (key : A → Z) (l : list A) :
  StronglySorted (λ a b, key a ≤ key b) (sort_by key l).
Proof.
  induction l as [|x l IH]; [constructor|]. by apply insert_by_sorted.
Qed.

Lemma sorted_strictly {A} (key : A → Z) (l : list A) :
  StronglySorted (λ a b, key a ≤ key b) l → NoDup (key <$> l) →
  StronglySorted (λ a b, key a < key b) l.
Proof.
  induction 1 as [|x l Hl IH Hx]; intros Hnd; [constructor|].
  rewrite fmap_cons in Hnd. apply NoDup_cons in Hnd as [Hfresh Hnd].
  constructor; [by apply IH|].
  apply Forall_forall. intros y Hy. rewrite Forall_forall in Hx.
  specialize (Hx y Hy). assert (key x ≠ key y); [|lia].
  intros Heq. apply Hfresh. rewrite Heq. apply list_elem_of_fmap. eauto.
Qed.

(** ** First occurrences *)

Ltac split_elem_of :=
  repeat first [rewrite fmap_cons | rewrite fmap_app | rewrite elem_of_app
               | rewrite elem_of_cons | rewrite elem_of_nil].

Lemma first_by_app {A} (key : A → Z) (l1 l2 : list A) : ∀ seen,
  first_by key seen (l1 ++ l2)
  = first_by key seen l1 ++ first_by key ((key <$> l1) ++ seen) l2.
Proof.
  induction l1 as [|x l1 IH]; intros seen; [done|].
  cbn. destruct (decide _) as [Hin|Hout].
  - rewrite IH. f_equal. apply first_by_ext. intros y.
    split_elem_of. split; [tauto|]. intros [->|?]; tauto.
  - cbn. f_equal. rewrite IH. f_equal. apply first_by_ext. intros y.
    split_elem_of. tauto.
Qed.

Lemma first_by_keys {A} (key : A → Z) (l : list A) : ∀ seen x,
  x ∈ (key <$> first_by key seen l) ++ seen ↔ x ∈ (key <$> l) ++ seen.
Proof.
  induction l as [|y l IH]; intros seen x; [done|].
  cbn. destruct (decide _) as [Hin|Hout].
  - rewrite IH. split_elem_of. split; [tauto|].
    intros [->|?]; tauto.
  - cbn. specialize (IH (key y :: seen) x). revert IH.
    split_elem_of. tauto.
Qed.

Lemma first_by_fmap {A B} (key : B → Z) (f : A → B) (l : list A) : ∀ seen,
  first_by key seen (f <$> l) = f <$> first_by (key ∘ f) seen l.
Proof.
  induction l as [|x l IH]; intros seen; [done|].
  cbn. destruct (decide _); [done|]. cbn. by rewrite IH.
Qed.

Lemma first_by_sublist {A} (key : A → Z) (l : list A) : ∀ seen x,
  x ∈ first_by key seen l → x ∈ l.
Proof.
  induction l as [|y l IH]; intros seen x; [done|].
  cbn. destruct (decide _).
  - intros ?. right. by eapply IH.
  - rewrite !elem_of_cons. intros [?|?]; [tauto|]. right. by eapply IH.
Qed.

(** ** The merge of a quorum read *)

Lemma merge_peer_cons acc x l :
  Unified.merge_peer acc (x :: l)
  = Unified.merge_peer
      (if dict_mem (Listing.id x) acc then acc
       else dict_set (Listing.id x) (Unified.of_listing x) acc) l.
Proof. reflexivity. Qed.

Lemma merge_own_cons acc a own :
  Unified.merge_own acc (a :: own)
  = Unified.merge_own (dict_set (Article.id a) a acc) own.
Proof. reflexivity. Qed.

Lemma merge_peer_run (l : list Listing.t) : ∀ acc,
  Unified.merge_peer acc l
  = acc ++ ((λ x, (Listing.id x, Unified.of_listing x)) <$> first_by Listing.id acc.*1 l).
Proof.
  induction l as [|x l IH]; intros acc.
  - cbn. by rewrite app_nil_r.
  - rewrite merge_peer_cons. cbn [first_by].
    destruct (decide (Listing.id x ∈ acc.*1)) as [Hin|Hout].
    + rewrite (proj2 (dict_mem_elem_of _ _) Hin). apply IH.
    + destruct (dict_mem (Listing.id x) acc) eqn:Hmem;
        [by apply dict_mem_elem_of in Hmem|].
      rewrite dict_set_fresh by done. rewrite IH, <- app_assoc. cbn. do 3 f_equal.
      apply first_by_ext. intros y. split_elem_of. cbn. split_elem_of. tauto.
Qed.

Lemma merge_peer_keyed (l : list Listing.t) acc : keyed acc → keyed (Unified.merge_peer acc l).
Proof.
  revert acc. induction l as [|x l IH]; intros acc Hacc; [done|].
  rewrite merge_peer_cons. apply IH. destruct (dict_mem _ _); [done|].
  by apply (dict_set_keyed (Unified.of_listing x)).
Qed.

Lemma merge_own_keyed (own : list Article.t) acc : keyed acc → keyed (Unified.merge_own acc own).
Proof.
  revert acc. induction own as [|a own IH]; intros acc Hacc; [done|].
  rewrite merge_own_cons. apply IH. by apply dict_set_keyed.
Qed.

Lemma merge_own_run (own : list Article.t) : ∀ acc,
  (∀ a v, a ∈ own → (Article.id a, v) ∈ acc →
     Unified.summary_of v = Unified.summary_of a) →
  (∀ a a', a ∈ own → a' ∈ own → Article.id a = Article.id a' →
     Unified.summary_of a = Unified.summary_of a') →
  (Unified.merge_own acc own).*1
  = acc.*1 ++ (Article.id <$> first_by Article.id acc.*1 own) ∧
  Unified.summary_of <$> (Unified.merge_own acc own).*2
  = (Unified.summary_of <$> acc.*2)
    ++ (Unified.summary_of <$> first_by Article.id acc.*1 own) ∧
  (∀ e, e ∈ Unified.merge_own acc own → e ∈ acc ∨ ∃ a, a ∈ own ∧ e = (Article.id a, a)).
Proof.
  induction own as [|a own IH]; intros acc Hacc Hown.
  - cbn. rewrite !app_nil_r. by repeat split; [left].
  - rewrite merge_own_cons. cbn [first_by].
    destruct (IH (dict_set (Article.id a) a acc)) as (Hkeys & Hsums & Hentries).
    { intros a' v Ha' Hv. apply dict_set_elem_of in Hv as [[= Hid <-]|Hv].
      - apply Hown; [left|by right|done].
      - apply Hacc; [by right|done]. }
    { intros a1 a2 ? ?. apply Hown; by right. }
    assert (∀ e, e ∈ Unified.merge_own (dict_set (Article.id a) a acc) own →
                 e ∈ acc ∨ ∃ a0, a0 ∈ a :: own ∧ e = (Article.id a0, a0)) as Hentries'.
    { intros e He. destruct (Hentries e He) as [He'|(a0 & Ha0 & ->)].
      - apply dict_set_elem_of in He' as [->|?]; [right; exists a; split; [left|done]|by left].
      - right. exists a0. split; [by right|done]. }
    destruct (decide (Article.id a ∈ acc.*1)) as [Hin|Hout].
    + split; [|split; [|exact Hentries']].
      * by rewrite Hkeys, dict_set_keys.
      * rewrite Hsums, dict_set_keys by done.
        rewrite dict_set_fmap_present; [done|done|].
        intros v0 Hv0. apply Hacc; [left|done].
    + assert (first_by Article.id (acc.*1 ++ [Article.id a]) own
              = first_by Article.id (Article.id a :: acc.*1) own) as Hfirst.
      { apply first_by_ext. intros y. split_elem_of. tauto. }
      split; [|split; [|exact Hentries']].
      * rewrite Hkeys, dict_set_fresh by done.
        rewrite fmap_app, <- app_assoc. cbn. by rewrite Hfirst.
      * rewrite Hsums, dict_set_fresh by done.
        rewrite !fmap_app, <- app_assoc. cbn. by rewrite Hfirst.
Qed.

Lemma collected_first_occurrences (s : Unified.Server) (reply : nat → option Rsp.t)
    (every : list Listing.t) (read_quorum : list address) : ∀ k acc pre,
  (∀ x, x ∈ pre ++ concat (visited s reply k read_quorum) → x ∈ every) →
  (∀ a x, a ∈ Unified.articles s → x ∈ every → Listing.id x = Article.id a →
     strip x = Unified.summary_of a) →
  acc.*1 = Listing.id <$> first_by Listing.id [] pre →
  Unified.summary_of <$> acc.*2 = strip <$> first_by Listing.id [] pre →
  from_visited pre acc →
  Unified.summary_of <$> (collected s reply k read_quorum acc).*2
  = strip <$> first_by Listing.id [] (pre ++ concat (visited s reply k read_quorum)).
Proof.
  induction read_quorum as [|server_addr rest IH]; intros k acc pre Hevery Hagree Hkeys Hsums Hfrom.
  - cbn. by rewrite app_nil_r.
  - cbn [collected visited]. destruct (decide _) as [Hme|Hpeer]; cbn [concat].
    + set (own := Unified.articles s) in *.
      assert (∀ a, a ∈ own → Unified.summary_of a ∈ every) as Hownin.
      { intros a Ha. apply Hevery. cbn [visited]. destruct (decide _); [|done].
        cbn [concat]. rewrite !elem_of_app. right. left.
        apply list_elem_of_fmap. eauto. }
      destruct (merge_own_run own acc) as (Hkeys1 & Hsums1 & Hentries1).
      { intros a v Ha Hv. destruct (Hfrom _ _ Hv) as [_ Hin].
        apply list_elem_of_fmap in Hin as (x & Hx & Hxin). rewrite Hx.
        apply Hagree; [done| |].
        - apply Hevery. rewrite elem_of_app. by left.
        - assert (Listing.id (strip x) = Listing.id (Unified.summary_of v)) as Hid
            by (by rewrite <- Hx).
          cbn in Hid. destruct (Hfrom _ _ Hv) as [Hk _]. congruence. }
      { intros a a' Ha Ha' Hid.
        rewrite <- (Hagree a' (Unified.summary_of a)); [done|done|by apply Hownin|done]. }
      rewrite app_assoc. apply IH.
      * intros x Hx. apply Hevery. cbn [visited]. destruct (decide _); [|done].
        cbn [concat]. by rewrite app_assoc.
      * done.
      * rewrite Hkeys1, Hkeys, first_by_app, fmap_app. f_equal.
        rewrite first_by_fmap, <- list_fmap_compose. 
        apply (f_equal (fmap Article.id)). apply first_by_ext. intros y.
        pose proof (first_by_keys Listing.id pre [] y) as Hy.
        rewrite !app_nil_r in *. done.
      * rewrite Hsums1, Hsums, first_by_app, fmap_app. f_equal.
        rewrite first_by_fmap, <- list_fmap_compose.
        assert (first_by (Listing.id ∘ Unified.summary_of) ((Listing.id <$> pre) ++ []) own
                = first_by Article.id acc.*1 own) as ->.
        { apply first_by_ext. intros y. rewrite Hkeys.
          pose proof (first_by_keys Listing.id pre [] y) as Hy.
          rewrite !app_nil_r in *. done. }
        apply list_fmap_ext. intros ? ? ?. reflexivity.
      * intros k0 v Hv. destruct (Hentries1 _ Hv) as [Hacc|(a & Ha & Heq)].
        -- destruct (Hfrom _ _ Hacc) as [? Hin]. split; [done|].
           rewrite fmap_app, elem_of_app. by left.
        -- simplify_eq. split; [done|]. rewrite fmap_app, elem_of_app. right.
           rewrite <- list_fmap_compose. apply list_elem_of_fmap. exists a. done.
    + set (l := listed (reply k)) in *.
      rewrite app_assoc. apply IH.
      * intros x Hx. apply Hevery. cbn [visited]. destruct (decide _); [done|].
        cbn [concat]. by rewrite app_assoc.
      * done.
      * rewrite merge_peer_run, fmap_app, Hkeys, first_by_app, fmap_app. f_equal.
        rewrite <- list_fmap_compose.
        assert (first_by Listing.id ((Listing.id <$> pre) ++ []) l
                = first_by Listing.id (Listing.id <$> first_by Listing.id [] pre) l) as ->.
        { apply first_by_ext. intros y.
          pose proof (first_by_keys Listing.id pre [] y) as Hy.
          rewrite !app_nil_r in *. done. }
        done.
      * rewrite merge_peer_run, fmap_app, fmap_app, Hsums, first_by_app, fmap_app. f_equal.
        rewrite <- !list_fmap_compose. rewrite Hkeys.
        assert (first_by Listing.id ((Listing.id <$> pre) ++ []) l
                = first_by Listing.id (Listing.id <$> first_by Listing.id [] pre) l) as ->.
        { apply first_by_ext. intros y.
          pose proof (first_by_keys Listing.id pre [] y) as Hy.
          rewrite !app_nil_r in *. done. }
        done.
      * intros k0 v Hv. rewrite merge_peer_run in Hv.
        apply elem_of_app in Hv as [Hacc|Hnew].
        -- destruct (Hfrom _ _ Hacc) as [? Hin]. split; [done|].
           rewrite fmap_app, elem_of_app. by left.
        -- apply list_elem_of_fmap in Hnew as (x & Heq & Hx). simplify_eq.
           split; [done|]. rewrite fmap_app, elem_of_app. right.
           apply list_elem_of_fmap. exists x. split; [done|].
           by eapply first_by_sublist.
Qed.

Lemma collected_keyed (s : Unified.Server) (reply : nat → option Rsp.t)
    (read_quorum : list address) : ∀ k acc,
  keyed acc → keyed (collected s reply k read_quorum acc).
Proof.
  induction read_quorum as [|server_addr rest IH]; intros k acc Hacc; [done|].
  cbn [collected]. destruct (decide _); apply IH.
  - by apply merge_own_keyed.
  - by apply merge_peer_keyed.
Qed.

Lemma read_from_member_run (acc : list (Z * Article.t)) (server_addr : address)
    (w : World Unified.Server) :
  Unified.read_from_member acc server_addr w
  = if decide (server_addr = Unified.me (srv w))
    then (Returned (Unified.merge_own acc (Unified.articles (srv w))), w)
    else (Returned (Unified.merge_peer acc (listed (net w (length (outbox w))))),
          with_call w server_addr Msg.get_articles).
Proof.
  unfold Unified.read_from_member. rewrite run_bind, run_self.
  destruct (decide _); [done|].
  unfold try_except. rewrite run_bind. unfold send_message.
  by destruct (net w (length (outbox w))) as [[]|].
Qed.

Lemma collect_articles_run (read_quorum : list address) : ∀ acc (w : World Unified.Server),
  ∃ w',
    for_acc read_quorum acc Unified.read_from_member w
    = (Returned (collected (srv w) (net w) (length (outbox w)) read_quorum acc), w') ∧
    srv w' = srv w.
Proof.
  induction read_quorum as [|server_addr rest IH]; intros acc w; [by exists w|].
  cbn [for_acc collected]. rewrite run_bind, read_from_member_run.
  destruct (decide _).
  - apply IH.
  - destruct (IH (Unified.merge_peer acc (listed (net w (length (outbox w)))))
                 (with_call w server_addr Msg.get_articles)) as (w' & Hrun & Hsrv).
    exists w'. split; [|done]. rewrite Hrun. cbn [with_call srv net outbox].
    rewrite length_app. cbn [length].
    by replace (length (outbox w) + 1)%nat with (S (length (outbox w))) by lia.
Qed.

(** The answer of [handle_read_articles_quorum], for the quorum that
    [select_quorum] returns. *)
Lemma read_articles_quorum_run (w : World Unified.Server) (read_quorum : list address) :
  fst (Unified.select_quorum (Unified.NR (srv w)) w) = Returned read_quorum →
  fst (Unified.handle_read_articles_quorum w)
  = Returned (Rsp.articles_list
      (sort_by Listing.id
         (Unified.summary_of
          <$> dict_values (collected (srv w) (net w) (length (outbox w)) read_quorum [])))).
Proof.
  rewrite unified_select_quorum_run. cbn [fst]. intros [= Hq].
  unfold Unified.handle_read_articles_quorum. rewrite run_bind, run_self.
  rewrite run_bind, unified_select_quorum_run, Hq. rewrite run_bind.
  unfold Unified.collect_articles.
  destruct (collect_articles_run read_quorum []
              (advance w (Unified.NR (srv w) `min` length (Unified.server_addresses (srv w)))))
    as (w' & Hrun & _).
  by rewrite Hrun.
Qed.

(** X26.  C6, the part that holds of every read: the list is sorted by strictly
    ascending id. *)
Lemma read_articles_quorum_sorted (w : World Unified.Server) :
  ∃ l, fst (Unified.handle_read_articles_quorum w) = Returned (Rsp.articles_list l) ∧
       StronglySorted (λ a b, Listing.id a < Listing.id b) l.
Proof.
  pose proof (unified_select_quorum_run w (Unified.NR (srv w))) as Hq. cbn zeta in Hq.
  set (read_quorum := picks _ _ _ _) in Hq.
  eexists. split; [apply (read_articles_quorum_run w read_quorum); by rewrite Hq|].
  set (d := collected _ _ _ _ _).
  apply sorted_strictly; [apply sort_by_sorted|].
  rewrite sort_by_Permutation. unfold dict_values.
  destruct (collected_keyed (srv w) (net w) read_quorum (length (outbox w)) [])
    as [Hnd Hkeys]; [split; [apply NoDup_nil_2|apply Forall_nil_2]|].
  fold d in Hnd, Hkeys.
  assert (Listing.id <$> (Unified.summary_of <$> d.*2) = d.*1) as ->; [|done].
  rewrite <- !list_fmap_compose. apply list_fmap_ext.
  intros i [k v] Hi. rewrite Forall_forall in Hkeys.
  symmetry. apply (Hkeys (k, v)). by eapply list_elem_of_lookup_2.
Qed.

Lemma first_by_seen_keys (pre l : list Listing.t) :
  first_by Listing.id ((Listing.id <$> pre) ++ []) l
  = first_by Listing.id (Listing.id <$> first_by Listing.id [] pre) l.
Proof.
  apply first_by_ext. intros y.
  pose proof (first_by_keys Listing.id pre [] y) as Hy.
  by rewrite !app_nil_r in *.
Qed.

Lemma collected_peers_only (s : Unified.Server) (reply : nat → option Rsp.t)
    (read_quorum : list address) : ∀ k acc pre,
  Unified.me s ∉ read_quorum →
  acc.*1 = Listing.id <$> first_by Listing.id [] pre →
  Unified.summary_of <$> acc.*2 = strip <$> first_by Listing.id [] pre →
  Unified.summary_of <$> (collected s reply k read_quorum acc).*2
  = strip <$> first_by Listing.id [] (pre ++ concat (visited s reply k read_quorum)).
Proof.
  induction read_quorum as [|a rest IH]; intros k acc pre Hnot Hkeys Hsums.
  - cbn. by rewrite app_nil_r.
  - apply not_elem_of_cons in Hnot as [Hne Hnot]. cbn [collected visited].
    destruct (decide _); [congruence|]. cbn [concat]. rewrite app_assoc.
    apply IH; [done| |].
    + by rewrite merge_peer_run, fmap_app, Hkeys, first_by_app, fmap_app,
        <- list_fmap_compose, first_by_seen_keys.
    + by rewrite merge_peer_run, !fmap_app, Hsums, first_by_app, fmap_app,
        <- !list_fmap_compose, Hkeys, first_by_seen_keys.
Qed.

(** X27.  C6 where the copies agree: when every visited copy of an id that the
    server holds itself carries the parent and title of the server's copy, as
    when the server is not in the quorum, the list is the merge by first
    occurrence of the visited stores, sorted. *)
Lemma read_articles_quorum_agreeing (w : World Unified.Server) (read_quorum : list address) :
  let stores := visited (srv w) (net w) (length (outbox w)) read_quorum in
  fst (Unified.select_quorum (Unified.NR (srv w)) w) = Returned read_quorum →
  (Unified.me (srv w) ∈ read_quorum →
   ∀ a x, a ∈ Unified.articles (srv w) → x ∈ concat stores →
     Listing.id x = Article.id a → strip x = Unified.summary_of a) →
  fst (Unified.handle_read_articles_quorum w)
  = Returned (Rsp.articles_list (merge_first_occurrence stores)).
Proof.
  intros stores Hq Hagree. rewrite (read_articles_quorum_run w read_quorum Hq).
  unfold merge_first_occurrence, dict_values.
  apply (f_equal (λ l, Returned (Rsp.articles_list (sort_by Listing.id l)))).
  destruct (decide (Unified.me (srv w) ∈ read_quorum)) as [Hme|Hnot].
  - by apply (collected_first_occurrences (srv w) (net w) (concat stores) read_quorum
                _ [] []); [|apply Hagree| | |intros ? ? ?%elem_of_nil].
  - by apply (collected_peers_only (srv w) (net w) read_quorum _ [] []).
Qed.

(** C6 at a failing input.  The server [s1] holds article 1 under the title
    "local", the read quorum is [s2] then [s1], and [s2] lists article 1 under
    the title "remote": the first occurrence in visiting order is the remote
    copy, the answer carries the local one, in both files. *)
Lemma read_quorum_own_copy_wins :
  let s := Unified.set_articles [Article.mk 1 None "local" "c1" None None]
             (Unified.init "s1" 5001 s1 [s1; s2; s3] "quorum" 3 2 2 true) in
  let reply := Some (Rsp.articles_list [Listing.mk 1 None "remote" (Some "c2")]) in
  let w := boot s [reply] [1; 0]%nat in
  fst (Unified.select_quorum 2 w) = Returned [s2; s1] ∧
  visited s (net w) 0 [s2; s1]
  = [[Listing.mk 1 None "remote" (Some "c2")]; [Listing.mk 1 None "local" None]] ∧
  merge_first_occurrence (visited s (net w) 0 [s2; s1])
  = [Listing.mk 1 None "remote" None] ∧
  fst (Unified.handle_message Msg.read_articles w)
  = Returned (Rsp.articles_list [Listing.mk 1 None "local" None]) ∧
  fst (Quorum.handle_message Msg.read_articles w)
  = Returned (Rsp.articles_list [Listing.mk 1 None "local" None]).
Proof. repeat split; reflexivity. Qed.

(** ** Paths that test the id before appending *)

Lemma first_by_fresh {A} (key : A → Z) (l : list A) : ∀ seen,
  NoDup (key <$> first_by key seen l) ∧
  ∀ x, x ∈ first_by key seen l → key x ∉ seen.
Proof.
  induction l as [|y l IH]; intros seen; [split; [apply NoDup_nil_2|by intros ? ?%elem_of_nil]|].
  cbn. destruct (decide _) as [Hin|Hout]; [apply IH|].
  destruct (IH (key y :: seen)) as [Hnd Hfresh]. split.
  - rewrite fmap_cons. apply NoDup_cons. split; [|done].
    intros Hy. apply list_elem_of_fmap in Hy as (x & Heq & Hx).
    apply (Hfresh x Hx). rewrite <- Heq. left.
  - intros x [->|Hx]%elem_of_cons; [done|].
    intros Hseen. apply (Hfresh x Hx). by right.
Qed.

(** X25.  The receiver of [new_articles] keeps the ids of its store distinct:
    when no two stored articles share an id before the message, none do
    after it. *)
Lemma new_articles_keeps_distinct (w : World Unified.Server) (message : list Tagged.t) :
  NoDup (Article.id <$> Unified.articles (srv w)) →
  NoDup (Article.id <$> Unified.articles (srv (snd (Unified.handle_new_articles message w)))).
Proof.
  intros Hnd. destruct (new_articles_loop message w) as (s' & Hrun & Harts & _).
  unfold Unified.handle_new_articles. rewrite run_bind.
  change (for_ message _ w) with
    (for_ message (λ article_data,
       s ← self;
       if negb (Unified.holds (Tagged.id article_data) (Unified.articles s))
       then Unified.store_tagged article_data
       else mret tt) w).
  rewrite Hrun. cbn [snd with_srv srv mret M_ret]. rewrite Harts.
  destruct (first_by_fresh Tagged.id message (Article.id <$> Unified.articles (srv w)))
    as [Hnew Hfresh].
  rewrite fmap_app, <- list_fmap_compose. apply NoDup_app. split; [done|]. split; [|done].
  intros x Hx Hx'. apply list_elem_of_fmap in Hx' as (d & -> & Hd).
  by apply (Hfresh d Hd).
Qed.

(** ** Reading back a post in Read-Your-Writes mode *)

(** X28.  The round trip on a Read-Your-Writes server that obtains an id its
    store does not hold: the post is answered [post_success] with that id, and
    [read_article_content] of the id answers the title and content posted. *)
Lemma post_then_fetch_read_your_writes (w w1 : World Unified.Server) (p : Post.t)
    (article_id : Z) :
  Unified.consistency_model (srv w) = "read_your_writes" →
  Unified.get_next_article_id w = (Returned (Some article_id), w1) →
  Unified.lookup_article article_id (Unified.articles (srv w1)) = None →
  ∃ w',
    Unified.handle_message (Msg.post_article p) w
    = (Returned (Rsp.post_success (Some article_id)), w') ∧
    fst (Unified.handle_message (Msg.read_article_content article_id) w')
    = Returned (Rsp.article_content
                  (Wire.mk article_id None (Post.title p) (Post.content p))).
Proof.
  intros Hmodel Hid Hfresh.
  assert (Unified.consistency_model (srv w1) = "read_your_writes") as Hmodel1.
  { revert Hid. unfold Unified.get_next_article_id. rewrite run_bind, run_self.
    destruct (Unified.is_coordinator (srv w)).
    - intros [= _ <-]. exact Hmodel.
    - unfold try_except. rewrite run_bind. unfold send_message.
      destruct (net w (length (outbox w))) as [[]|]; cbn; intros [= _ <-] || intros [=];
        exact Hmodel. }
  eexists. split.
  - unfold Unified.handle_message. rewrite run_bind, run_self.
    unfold Unified.handle_post_article. rewrite run_bind, run_self.
    destruct (decide _) as [Hseq|_]; [rewrite Hmodel in Hseq; discriminate|].
    destruct (decide _); [|done].
    unfold Unified.handle_post_article_read_your_writes. rewrite run_bind, Hid.
    reflexivity.
  - unfold Unified.handle_message. rewrite run_bind, run_self.
    unfold Unified.handle_read_article_content. rewrite run_bind, run_self.
    cbn [srv Unified.consistency_model Unified.set_client_write_counters
         Unified.set_articles].
    destruct (decide _) as [Hseq|_]; [rewrite Hmodel1 in Hseq; discriminate|].
    destruct (decide _); [|done].
    unfold Unified.handle_read_article_content_read_your_writes.
    rewrite run_bind, run_self.
    cbn [srv Unified.articles Unified.set_client_write_counters Unified.set_articles].
    set (a := Article.mk _ _ _ _ _ _).
    assert (Unified.lookup_article article_id (Unified.articles (srv w1) ++ [a]) = Some a)
      as ->; [|done].
    rewrite <- (app_nil_r (_ ++ [a])). exact (lookup_article_appended a _ [] Hfresh).
Qed.

(** * Further properties *)

(** ** Strings *)

Lemma append_empty (s : string) : EmptyString +:+ s = s.
Proof. reflexivity. Qed.

Lemma append_cons (c : Ascii.ascii) (a b : string) : String c a +:+ b = String c (a +:+ b).
Proof. reflexivity. Qed.

Lemma append_assoc (a b c : string) : (a +:+ b) +:+ c = a +:+ (b +:+ c).
Proof.
  induction a as [|x a IH]; [done|]. by rewrite !append_cons, IH.
Qed.

Lemma append_empty_r (a : string) : a +:+ EmptyString = a.
Proof. induction a as [|x a IH]; [done|]. by rewrite append_cons, IH. Qed.

(** ** Replies that fit in one read *)

Lemma recv_app (n : nat) (a b : string) :
  (String.length a ≤ n)%nat →
  Transport.recv n (a +:+ b) = a +:+ Transport.recv (n - String.length a) b.
Proof.
  revert n. induction a as [|c a IH]; intros n Hlen; cbn [String.length] in *.
  - by rewrite !append_empty, Nat.sub_0_r.
  - destruct n as [|n]; [lia|]. rewrite !append_cons. cbn [Transport.recv].
    rewrite IH by lia. reflexivity.
Qed.

Lemma delivered_readable (dumps : Rsp.t → string) (loads : string → option Rsp.t)
    (r : Rsp.t) :
  Transport.readable dumps loads r → Transport.delivered dumps loads (Some r) = Some r.
Proof.
  intros (Hlen & Hbare & Hline). unfold Transport.delivered.
  rewrite recv_app by done.
  destruct (4096 - String.length (dumps r))%nat as [|m] eqn:Hm.
  - cbn [Transport.recv]. by rewrite append_empty_r.
  - cbn [Transport.recv]. by destruct m.
Qed.

(** A reply longer than one read arrives cut. *)
Lemma delivered_cut (dumps : Rsp.t → string) (loads : string → option Rsp.t) (r : Rsp.t) :
  (4096 ≤ String.length (dumps r))%nat →
  Transport.delivered dumps loads (Some r) = loads (Transport.recv 4096 (dumps r)).
Proof.
  intros Hlen. unfold Transport.delivered. f_equal.
  generalize (String Connection.newline EmptyString). intros tail.
  revert Hlen. generalize 4096%nat. generalize (dumps r). clear.
  induction s as [|c s IH]; intros n Hlen; cbn [String.length] in *.
  - replace n with 0%nat by lia. by destruct tail.
  - destruct n as [|n]; [done|]. rewrite append_cons. cbn [Transport.recv].
    rewrite IH by lia. reflexivity.
Qed.

(** ** What a handler can do to the server object *)

Lemma preserves_raise {St A} (P : World St → Prop) (e : exn) : preserves P (raise (A := A) e).
Proof. by intros w. Qed.

Lemma preserves_randbelow {St} (P : World St → Prop) (n : nat) :
  (∀ w, P w → P (advance w 1)) → preserves P (randbelow n).
Proof.
  intros Hadv w Hw. specialize (Hadv w Hw). unfold advance in Hadv.
  by replace (drawn w + 1)%nat with (S (drawn w)) in Hadv by lia.
Qed.

Lemma preserves_for_acc {St A B} (P : World St → Prop) (l : list A) (body : B → A → M St B) :
  (∀ acc x, preserves P (body acc x)) → ∀ acc, preserves P (for_acc l acc body).
Proof.
  intros Hbody. induction l as [|x l IH]; intros acc; [by apply preserves_ret|].
  apply preserves_bind; [apply Hbody|apply IH].
Qed.

Lemma preserves_random_sample {St A} (P : World St → Prop) (population : list A) (k : nat) :
  (∀ w, P w → P (advance w 1)) → preserves P (random_sample population k).
Proof.
  intros Hadv. unfold random_sample. destruct (decide _) as [_|_]; [|apply preserves_raise].
  revert population. induction k as [|k IH]; intros pool; [by apply preserves_ret|].
  cbn [sample_rounds]. apply preserves_bind; [by apply preserves_randbelow|].
  intros j. destruct (pool !! j); [|apply preserves_raise].
  apply preserves_bind; [apply IH|intros; by apply preserves_ret].
Qed.

Section Updates.
Context (Q : Unified.Server → Prop) (model : string) (coordinator : bool).

Hypothesis Qappend : ∀ s a,
  Q s → (model = "read_your_writes" → tagged a) →
  Q (Unified.set_articles (Unified.articles s ++ [a]) s).
Hypothesis Qcounter : ∀ s c v,
  Q s → model = "read_your_writes" →
  Q (Unified.set_client_write_counters (<[c := v]> (Unified.client_write_counters s)) s).
Hypothesis Qallocate : ∀ s,
  Q s → coordinator = true →
  Q (Unified.set_next_article_id (Unified.next_article_id s + 1) s).

Local Ltac ret := intros; by apply preserves_ret.

Lemma updates_send (addr : address) (message : Msg.t) : preserves (updated Q model coordinator) (send_message addr message).
Proof. by apply preserves_send. Qed.

Lemma updates_append (a : Article.t) :
  (model = "read_your_writes" → tagged a) → preserves (updated Q model coordinator) (Unified.append a).
Proof. intros Ha w (Hq & Hm & Hc). split; [by apply Qappend|done]. Qed.

Lemma updates_set_counter (c : string) (v : Z) :
  model = "read_your_writes" → preserves (updated Q model coordinator) (Unified.set_counter c v).
Proof. intros Hm w (Hq & Hm' & Hc). split; [by apply Qcounter|done]. Qed.

Lemma updates_allocate (w : World Unified.Server) :
  Unified.is_coordinator (srv w) = true →
  (updated Q model coordinator) w → (updated Q model coordinator) (snd (assign (Unified.set_next_article_id (Unified.next_article_id (srv w) + 1)) w)).
Proof.
  intros Hcoord (Hq & Hm & Hc). split; [|done]. apply Qallocate; [done|congruence].
Qed.

Lemma updates_forward (message : Msg.t) :
  preserves (updated Q model coordinator) (Unified.forward_to_coordinator message).
Proof.
  apply preserves_try; [|ret].
  apply preserves_self_bind. intros w Hw. by apply updates_send.
Qed.

Lemma updates_propagate (article : Article.t) :
  preserves (updated Q model coordinator) (Unified.propagate_article_sequential article).
Proof.
  apply preserves_self_bind. intros w Hw. apply preserves_for; [|done].
  intros addr. destruct (decide _); [|ret].
  apply preserves_try; [|ret].
  apply preserves_bind; [apply updates_send|ret].
Qed.

Lemma updates_store_tagged (d : Tagged.t) :
  model = "read_your_writes" → preserves (updated Q model coordinator) (Unified.store_tagged d).
Proof.
  intros Hm. apply preserves_bind; [apply updates_append; intros _; by split|].
  intros _. apply preserves_self_bind. intros w Hw. by apply updates_set_counter.
Qed.

Lemma updates_select_quorum (quorum_size : nat) :
  preserves (updated Q model coordinator) (Unified.select_quorum quorum_size).
Proof. apply preserves_self_bind. intros w Hw. by apply preserves_random_sample. Qed.

Lemma updates_standalone_select_quorum (quorum_size : nat) :
  preserves (updated Q model coordinator) (Quorum.select_quorum quorum_size).
Proof. apply preserves_self_bind. intros w Hw. by apply preserves_random_sample. Qed.

Lemma updates_get_next_article_id : preserves (updated Q model coordinator) Unified.get_next_article_id.
Proof.
  intros w Hw. unfold Unified.get_next_article_id. rewrite run_bind, run_self.
  destruct (Unified.is_coordinator (srv w)) eqn:Hcoord.
  - rewrite run_bind. by apply updates_allocate.
  - clear Hcoord. generalize (Unified.coordinator_address (srv w)). intros addr.
    revert w Hw. apply preserves_try; [|ret].
    apply preserves_bind; [apply updates_send|].
    intros []; try ret; apply preserves_raise.
Qed.

Lemma updates_write (rest : M Unified.Server Rsp.t) (w : World Unified.Server) :
  Unified.is_coordinator (srv w) = true →
  preserves (updated Q model coordinator) rest →
  (updated Q model coordinator) w →
  (updated Q model coordinator) (snd ((assign (Unified.set_next_article_id (Unified.next_article_id (srv w) + 1)) ;;
           rest) w)).
Proof.
  intros Hcoord Hrest Hw. rewrite run_bind, run_assign.
  apply Hrest. by apply (updates_allocate w).
Qed.

Lemma updates_collect_acknowledgments (article : Article.t) (write_quorum : list address) :
  (model = "read_your_writes" → tagged article) →
  preserves (updated Q model coordinator) (Unified.collect_acknowledgments article write_quorum).
Proof.
  intros Ha. apply preserves_for_acc. intros acc addr.
  apply preserves_self_bind. intros w Hw.
  destruct (decide _) as [_|_].
  - revert w Hw. apply preserves_bind; [by apply updates_append|ret].
  - revert w Hw. apply preserves_try; [|ret].
    apply preserves_bind; [apply updates_send|]. intros []; ret.
Qed.

Lemma updates_collect_articles (read_quorum : list address) :
  preserves (updated Q model coordinator) (Unified.collect_articles read_quorum).
Proof.
  apply preserves_for_acc. intros acc addr.
  apply preserves_self_bind. intros w Hw.
  destruct (decide _) as [_|_]; [done|].
  revert w Hw. apply preserves_try; [|ret].
  apply preserves_bind; [apply updates_send|]. intros []; ret.
Qed.

Lemma updates_first_with_article (article_id : Z) (read_quorum : list address) :
  preserves (updated Q model coordinator) (Unified.first_with_article article_id read_quorum).
Proof.
  induction read_quorum as [|addr rest IH]; [ret|].
  cbn [Unified.first_with_article].
  apply preserves_self_bind. intros w Hw.
  generalize (Unified.lookup_article article_id (Unified.articles (srv w))).
  generalize (Unified.me (srv w)). intros self_addr own. revert w Hw.
  apply preserves_bind.
  - destruct (decide _); [ret|].
    apply preserves_try; [|ret].
    apply preserves_bind; [apply updates_send|]. intros []; ret.
  - intros [a|]; [ret|apply IH].
Qed.

Lemma updates_synchronize_round :
  model ≠ "read_your_writes" → preserves (updated Q model coordinator) Unified.synchronize_round.
Proof.
  intros Hm. apply preserves_self_bind. intros w Hw. apply preserves_for; [|done].
  intros addr. destruct (decide _); [|ret].
  apply preserves_try; [|ret].
  apply preserves_bind; [apply updates_send|].
  intros []; try ret. apply preserves_for. intros d.
  apply preserves_self_bind. intros w1 Hw1.
  destruct (Unified.lookup_article _ _); [done|].
  by apply updates_append.
Qed.

Lemma updates_get_missing_articles (client_id : string) (counters : list Z) :
  model = "read_your_writes" →
  preserves (updated Q model coordinator) (Unified.get_missing_articles client_id counters).
Proof.
  intros Hm. apply preserves_self_bind. intros w Hw. apply preserves_for; [|done].
  intros addr. destruct (decide _); [|ret].
  apply preserves_try; [|ret].
  apply preserves_bind; [apply updates_send|].
  intros []; try ret. apply preserves_for. intros d. by apply updates_store_tagged.
Qed.

Lemma updates_handle_message (message : Msg.t) :
  preserves (updated Q model coordinator) (Unified.handle_message message).
Proof.
  assert (∀ p parent_id article_id, model ≠ "read_your_writes" →
            preserves (updated Q model coordinator)
              (Unified.append
                 (Article.mk article_id parent_id (Post.title p) (Post.content p) None None) ;;
               Unified.propagate_article_sequential
                 (Article.mk article_id parent_id (Post.title p) (Post.content p) None None) ;;
               mret (Rsp.post_success (Some article_id)))) as Hseq.
  { intros p parent_id article_id Hm.
    apply preserves_bind; [by apply updates_append|]. intros _.
    apply preserves_bind; [apply updates_propagate|ret]. }
  assert (∀ p parent_id article_id (n : nat), model ≠ "read_your_writes" →
            preserves (updated Q model coordinator)
              (write_quorum ← Unified.select_quorum n;
               acknowledgments ←
                 Unified.collect_acknowledgments
                   (Article.mk article_id parent_id (Post.title p) (Post.content p) None None)
                   write_quorum;
               if decide (n ≤ length acknowledgments)%nat
               then mret (Rsp.post_success (Some article_id))
               else mret (Rsp.error "Failed to write to quorum"))) as Hquorum.
  { intros p parent_id article_id n Hm.
    apply preserves_bind; [apply updates_select_quorum|]. intros q.
    apply preserves_bind; [by apply updates_collect_acknowledgments|].
    intros acks. destruct (decide _); ret. }
  assert (∀ p parent_id, model = "read_your_writes" →
            preserves (updated Q model coordinator)
              (article_id ← Unified.get_next_article_id;
               match article_id with
               | None => mret (Rsp.error "Failed to get article ID from coordinator")
               | Some article_id =>
                   Unified.append
                     (Article.mk article_id parent_id (Post.title p) (Post.content p)
                        (Some (Post.client_id p)) (Some (Post.write_counter p))) ;;
                   Unified.set_counter (Post.client_id p) (Post.write_counter p) ;;
                   mret (Rsp.post_success (Some article_id))
               end)) as Hryw.
  { intros p parent_id Hm.
    apply preserves_bind; [apply updates_get_next_article_id|].
    intros [article_id|]; [|ret].
    apply preserves_bind; [apply updates_append; intros _; by split|]. intros _.
    apply preserves_bind; [by apply updates_set_counter|ret]. }
  intros w Hw. pose proof Hw as (Hq & Hm & Hc).
  unfold Unified.handle_message. rewrite run_bind, run_self.
  destruct message as [client_id write_counter|p|p| |article_id|article session|article|
                       |article_id|client_id counters|articles_| |articles_|type].
  - destruct (decide _) as [Hryw'|]; [|done]. rewrite Hm in Hryw'.
    unfold Unified.handle_client_connect. rewrite run_bind, run_self.
    apply (preserves_bind (updated Q model coordinator)); [|ret|done].
    destruct (if decide _ then _ else _); [ret|by apply updates_get_missing_articles].
  - unfold Unified.handle_post_article. rewrite run_bind, run_self.
    destruct (decide _) as [Hs|_]; [|destruct (decide _) as [Hr|_]; [|destruct (decide _) as [Hk|_]]].
    + unfold Unified.handle_post_article_sequential. rewrite run_bind, run_self.
      destruct (Unified.is_coordinator (srv w)) eqn:Hcoord; [|by apply updates_forward].
      apply updates_write; [done| |done]. apply Hseq. congruence.
    + rewrite Hm in Hr. by apply Hryw.
    + unfold Unified.handle_post_article_quorum. rewrite run_bind, run_self.
      destruct (Unified.is_coordinator (srv w)) eqn:Hcoord; [|by apply updates_forward].
      apply updates_write; [done| |done]. apply Hquorum. congruence.
    + done.
  - unfold Unified.handle_reply_article. rewrite run_bind, run_self.
    destruct (decide _) as [Hs|_]; [|destruct (decide _) as [Hr|_]; [|destruct (decide _) as [Hk|_]]].
    + unfold Unified.handle_reply_article_sequential. rewrite run_bind, run_self.
      destruct (Unified.is_coordinator (srv w)) eqn:Hcoord; [|by apply updates_forward].
      apply updates_write; [done| |done]. apply Hseq. congruence.
    + rewrite Hm in Hr. by apply Hryw.
    + unfold Unified.handle_reply_article_quorum. rewrite run_bind, run_self.
      destruct (Unified.is_coordinator (srv w)) eqn:Hcoord; [|by apply updates_forward].
      apply updates_write; [done| |done]. apply Hquorum. congruence.
    + done.
  - unfold Unified.handle_read_articles. rewrite run_bind, run_self.
    destruct (decide _); [done|]. destruct (decide _); [done|]. destruct (decide _); [|done].
    unfold Unified.handle_read_articles_quorum. rewrite run_bind, run_self.
    apply (preserves_bind (updated Q model coordinator)); [apply updates_select_quorum| |done]. intros q.
    apply preserves_bind; [apply updates_collect_articles|ret].
  - unfold Unified.handle_read_article_content. rewrite run_bind, run_self.
    unfold Unified.handle_read_article_content_sequential,
      Unified.handle_read_article_content_read_your_writes.
    destruct (decide _); [rewrite run_bind, run_self; by destruct (Unified.lookup_article _ _)|].
    destruct (decide _); [rewrite run_bind, run_self; by destruct (Unified.lookup_article _ _)|].
    destruct (decide _); [|done].
    unfold Unified.handle_read_article_content_quorum. rewrite run_bind, run_self.
    apply (preserves_bind (updated Q model coordinator)); [apply updates_select_quorum| |done]. intros q.
    apply preserves_bind; [apply updates_first_with_article|]. intros []; ret.
  - destruct (decide _) as [Hs|_]; [|destruct (decide _) as [Hr|_]; [|done]].
    + unfold Unified.handle_new_article_sequential.
      apply (preserves_bind (updated Q model coordinator)); [|ret|done]. apply updates_append. congruence.
    + destruct session as [[client_id write_counter]|]; [|done].
      rewrite Hm in Hr.
      pose proof (updates_store_tagged
        (Tagged.mk (Wire.id article) (Wire.parent_id article) (Wire.title article)
                   (Wire.content article) client_id write_counter) Hr w Hw) as Hst.
      exact Hst.
  - destruct (decide _) as [Hk|_]; [|done].
    unfold Unified.handle_write_article.
    apply (preserves_bind (updated Q model coordinator)); [|ret|done]. apply updates_append. congruence.
  - done.
  - unfold Unified.handle_get_article_content. rewrite run_bind, run_self.
    by destruct (Unified.lookup_article _ _).
  - by destruct (decide _).
  - by destruct (decide _).
  - unfold Unified.handle_get_next_article_id. rewrite run_bind, run_self.
    destruct (Unified.is_coordinator (srv w)) eqn:Hcoord; [|done].
    rewrite run_bind. by apply updates_allocate.
  - destruct (decide _) as [Hr|_]; [|done]. rewrite Hm in Hr.
    unfold Unified.handle_new_articles.
    apply (preserves_bind (updated Q model coordinator)); [|ret|done]. apply preserves_for. intros d.
    apply preserves_self_bind. intros w1 Hw1. destruct (negb _); [|done].
    by apply (updates_store_tagged d Hr w1).
  - done.
Qed.

End Updates.

(** ** Sequential mode: propagation and forwarding *)

Lemma with_calls_nil {St} (w : World St) : with_calls w [] = w.
Proof. destruct w. unfold with_calls. cbn. by rewrite app_nil_r. Qed.

Lemma with_calls_cons {St} (w : World St) addr message l :
  with_calls (with_call w addr message) l = with_calls w ((addr, message) :: l).
Proof. unfold with_calls, with_call. cbn. by rewrite <- app_assoc. Qed.

Lemma propagate_article_sequential_calls (article : Article.t) (w : World Unified.Server) :
  Unified.propagate_article_sequential article w
  = (Returned tt,
     with_calls w (calls (peers (srv w)) (Msg.new_article (Unified.wire_of article) None))).
Proof.
  unfold Unified.propagate_article_sequential, peers. rewrite run_bind, run_self.
  generalize (Unified.server_addresses (srv w)). generalize (Unified.me (srv w)).
  intros self_addr l. revert w.
  induction l as [|addr l IH]; intros w; [by rewrite with_calls_nil|].
  cbn [for_]. rewrite run_bind, filter_cons.
  destruct (decide (addr ≠ self_addr)).
  - rewrite try_send_run, IH. unfold calls. by rewrite fmap_cons, with_calls_cons.
  - apply IH.
Qed.

Lemma sequential_write_calls (w : World Unified.Server) (p : Post.t) (reply : bool) :
  sequential_coordinator (srv w) →
  let article_id := Unified.next_article_id (srv w) in
  let parent_id := if reply then Post.parent_id p else None in
  let article := Article.mk article_id parent_id (Post.title p) (Post.content p) None None in
  Unified.handle_message (if reply then Msg.reply_article p else Msg.post_article p) w
  = (Returned (Rsp.post_success (Some article_id)),
     with_calls (with_srv w (written (srv w) parent_id (Post.title p) (Post.content p)))
       (calls (peers (srv w)) (Msg.new_article (Unified.wire_of article) None))).
Proof.
  intros [Hmodel Hcoord] article_id parent_id article.
  unfold Unified.handle_message. rewrite run_bind, run_self.
  destruct reply.
  - unfold Unified.handle_reply_article. rewrite run_bind, run_self.
    destruct (decide _); [|done].
    unfold Unified.handle_reply_article_sequential. rewrite run_bind, run_self, Hcoord.
    rewrite run_bind, run_assign. unfold Unified.append.
    rewrite run_bind, run_assign, run_bind, propagate_article_sequential_calls.
    reflexivity.
  - unfold Unified.handle_post_article. rewrite run_bind, run_self.
    destruct (decide _); [|done].
    unfold Unified.handle_post_article_sequential. rewrite run_bind, run_self, Hcoord.
    rewrite run_bind, run_assign. unfold Unified.append.
    rewrite run_bind, run_assign, run_bind, propagate_article_sequential_calls.
    reflexivity.
Qed.

(** X3.  A write handled by the Sequential coordinator is answered
    [post_success] with the id allocated, stored, and sent as [new_article]
    once to every entry of the server list other than the coordinator's own
    address, in the order of the list, whether the peers answer or not; a
    Sequential server that handles this message appends an article equal to the
    one the coordinator stored and acknowledges its id. *)
Theorem sequential_write_fans_out (w : World Unified.Server) (p : Post.t) (reply : bool) :
  sequential_coordinator (srv w) →
  let article_id := Unified.next_article_id (srv w) in
  let parent_id := if reply then Post.parent_id p else None in
  let article := Article.mk article_id parent_id (Post.title p) (Post.content p) None None in
  let message := Msg.new_article (Unified.wire_of article) None in
  Unified.handle_message (if reply then Msg.reply_article p else Msg.post_article p) w
  = (Returned (Rsp.post_success (Some article_id)),
     with_calls
       (with_srv w (Unified.set_articles (Unified.articles (srv w) ++ [article])
                      (allocate (srv w))))
       (calls (peers (srv w)) message)) ∧
  (Unified.me (srv w) ∉ fst <$> calls (peers (srv w)) message) ∧
  (∀ peer : World Unified.Server,
     Unified.consistency_model (srv peer) = "sequential" →
     Unified.handle_message message peer
     = (Returned (Rsp.article_ack article_id),
        with_articles peer (Unified.articles (srv peer) ++ [article]))).
Proof.
  intros Hseq article_id parent_id article message. split; [|split].
  - exact (sequential_write_calls w p reply Hseq).
  - unfold calls, peers. rewrite <- list_fmap_compose.
    intros Hin. apply list_elem_of_fmap in Hin as (a & Ha & Hin).
    apply list_elem_of_filter in Hin as [Hne _]. by apply Hne.
  - intros peer Hmodel. unfold Unified.handle_message. rewrite run_bind, run_self.
    unfold message. cbv iota. destruct (decide _) as [_|Hne]; [|by destruct Hne]. reflexivity.
Qed.

Lemma sequential_write_fans_out_witness :
  let w := boot (Unified.init "s1" 5001 s1 [s1; s2; s3] "sequential" 3 2 2 true) [] [] in
  let p := Post.mk "X" 0 None "T" "C" in
  sequential_coordinator (srv w) ∧
  outbox (snd (Unified.handle_message (Msg.post_article p) w))
  = [(s2, Msg.new_article (Wire.mk 1 None "T" "C") None);
     (s3, Msg.new_article (Wire.mk 1 None "T" "C") None)].
Proof.
  intros w p.
  assert (sequential_coordinator (srv w)) as Hseq by (split; reflexivity).
  split; [exact Hseq|].
  destruct (sequential_write_fans_out w p false Hseq) as [Hrun _].
  cbv zeta iota in Hrun. rewrite Hrun. reflexivity.
Defined.

(** X4.  On a server that is not the coordinator, in Sequential and in Quorum
    mode, [post_article] and [reply_article] are sent unchanged to the
    coordinator address and answered with the coordinator's response, whatever
    it is, or with the error "Unable to contact coordinator" when the call
    fails; the server object is not touched. *)
Theorem write_forwarded_to_coordinator (w : World Unified.Server) (p : Post.t) (reply : bool) :
  Unified.is_coordinator (srv w) = false →
  Unified.consistency_model (srv w) = "sequential"
  ∨ Unified.consistency_model (srv w) = "quorum" →
  let message := if reply then Msg.reply_article p else Msg.post_article p in
  Unified.handle_message message w
  = (Returned (default (Rsp.error "Unable to contact coordinator")
                 (net w (length (outbox w)))),
     with_call w (Unified.coordinator_address (srv w)) message).
Proof.
  intros Hcoord Hmodel message.
  assert (Unified.forward_to_coordinator message w
          = (Returned (default (Rsp.error "Unable to contact coordinator")
                         (net w (length (outbox w)))),
             with_call w (Unified.coordinator_address (srv w)) message)) as Hfwd.
  { unfold Unified.forward_to_coordinator, try_except. rewrite run_bind, run_self.
    unfold send_message. by destruct (net w (length (outbox w))). }
  unfold Unified.handle_message. rewrite run_bind, run_self.
  destruct reply; subst message; cbn iota.
  - unfold Unified.handle_reply_article. rewrite run_bind, run_self.
    destruct Hmodel as [Hmodel|Hmodel]; rewrite Hmodel; cbn [decide].
    + destruct (decide _); [|done].
      unfold Unified.handle_reply_article_sequential.
      by rewrite run_bind, run_self, Hcoord.
    + destruct (decide _); [done|]. destruct (decide _); [done|].
      destruct (decide _); [|done].
      unfold Unified.handle_reply_article_quorum.
      by rewrite run_bind, run_self, Hcoord.
  - unfold Unified.handle_post_article. rewrite run_bind, run_self.
    destruct Hmodel as [Hmodel|Hmodel]; rewrite Hmodel; cbn [decide].
    + destruct (decide _); [|done].
      unfold Unified.handle_post_article_sequential.
      by rewrite run_bind, run_self, Hcoord.
    + destruct (decide _); [done|]. destruct (decide _); [done|].
      destruct (decide _); [|done].
      unfold Unified.handle_post_article_quorum.
      by rewrite run_bind, run_self, Hcoord.
Qed.

Lemma write_forwarded_to_coordinator_witness :
  let w := boot (Unified.init "s2" 5002 s1 [s2; s1] "quorum" 2 1 2 false) [] [] in
  let p := Post.mk "X" 0 None "T" "C" in
  Unified.handle_message (Msg.post_article p) w
  = (Returned (Rsp.error "Unable to contact coordinator"),
     with_call w s1 (Msg.post_article p)).
Proof.
  intros w p.
  apply (write_forwarded_to_coordinator w p false); [reflexivity|by right].
Defined.

(** ** Read-Your-Writes mode: the fetch of missing articles *)

Lemma with_srv_same {St} (w : World St) : with_srv w (srv w) = w.
Proof. by destruct w. Qed.

Lemma for_store_tagged_run (l : list Tagged.t) : ∀ w : World Unified.Server,
  for_ l Unified.store_tagged w = (Returned tt, with_srv w (store_all l (srv w))).
Proof.
  induction l as [|d l IH]; intros w.
  { unfold store_all. cbn [foldl]. by rewrite with_srv_same. }
  cbn [for_]. rewrite run_bind, store_tagged_run, IH. reflexivity.
Qed.

Lemma store_all_app (l1 l2 : list Tagged.t) (s : Unified.Server) :
  store_all (l1 ++ l2) s = store_all l2 (store_all l1 s).
Proof. apply foldl_app. Qed.

Lemma store_all_articles (l : list Tagged.t) : ∀ s,
  Unified.articles (store_all l s) = Unified.articles s ++ (Unified.of_tagged <$> l).
Proof.
  induction l as [|d l IH]; intros s; [by rewrite app_nil_r|].
  cbn [store_all foldl]. fold (store_all l (stored d s)). rewrite IH. cbn.
  by rewrite <- app_assoc.
Qed.

Lemma store_all_configuration (l : list Tagged.t) : ∀ s,
  configuration (store_all l s) = configuration s ∧
  Unified.next_article_id (store_all l s) = Unified.next_article_id s.
Proof.
  induction l as [|d l IH]; intros s; [done|].
  cbn [store_all foldl]. fold (store_all l (stored d s)).
  destruct (IH (stored d s)) as [-> ->]. done.
Qed.

Lemma store_all_counter (l : list Tagged.t) (c : string) : ∀ s,
  Unified.counter_of s c ≤ Unified.counter_of (store_all l s) c ∧
  ∀ d, d ∈ l → Tagged.client_id d = c →
       Tagged.write_counter d ≤ Unified.counter_of (store_all l s) c.
Proof.
  induction l as [|d l IH]; intros s; [split; [cbn; lia|by intros ? ?%elem_of_nil]|].
  cbn [store_all foldl]. fold (store_all l (stored d s)).
  destruct (IH (stored d s)) as [Hbase Hin].
  pose proof (counter_of_stored d s c) as Hd.
  destruct (decide (Tagged.client_id d = c)) as [Heq|Hne].
  - split; [lia|]. intros d' [->|Hd']%elem_of_cons Hc; [lia|by apply Hin].
  - split; [lia|]. intros d' [->|Hd']%elem_of_cons Hc; [done|by apply Hin].
Qed.

Lemma fetched_cons (reply : nat → option Rsp.t) (k n : nat) :
  fetched reply k (S n) = sent_articles (reply k) ++ fetched reply (S k) n.
Proof. reflexivity. Qed.

Lemma fetched_elem_of (reply : nat → option Rsp.t) (n : nat) : ∀ k i d,
  (i < n)%nat → d ∈ sent_articles (reply (k + i)%nat) → d ∈ fetched reply k n.
Proof.
  induction n as [|n IH]; intros k i d Hi Hd; [lia|].
  rewrite fetched_cons, elem_of_app. destruct i as [|i].
  - left. by rewrite Nat.add_0_r in Hd.
  - right. apply (IH (S k) i); [lia|]. by replace (S k + i)%nat with (k + S i)%nat by lia.
Qed.

(** The body of the loop of [get_missing_articles] at a peer. *)
Lemma fetch_from_run (addr : address) (message : Msg.t) (w : World Unified.Server) :
  try_except
    (response ← send_message addr message;
     match response with
     | Rsp.send_missing_articles articles => for_ articles Unified.store_tagged
     | _ => mret tt
     end)
    (λ _, mret tt) w
  = (Returned tt,
     with_srv (with_call w addr message)
       (store_all (sent_articles (net w (length (outbox w)))) (srv w))).
Proof.
  unfold try_except. rewrite run_bind. unfold send_message.
  destruct (net w (length (outbox w))) as [[]|]; try reflexivity.
  by rewrite for_store_tagged_run.
Qed.

Lemma get_missing_articles_run (client_id : string) (missing_counters : list Z)
    (w : World Unified.Server) :
  let message := Msg.request_missing_articles client_id missing_counters in
  let asked := peers (srv w) in
  Unified.get_missing_articles client_id missing_counters w
  = (Returned tt,
     with_calls
       (with_srv w (store_all (fetched (net w) (length (outbox w)) (length asked)) (srv w)))
       (calls asked message)).
Proof.
  intros message asked. subst asked.
  unfold Unified.get_missing_articles, peers. rewrite run_bind, run_self.
  fold message.
  generalize (Unified.server_addresses (srv w)). generalize (Unified.me (srv w)).
  intros self_addr l. revert w.
  induction l as [|addr l IH]; intros w.
  - cbn. by rewrite with_calls_nil, with_srv_same.
  - cbn [for_]. rewrite run_bind, filter_cons.
    destruct (decide (addr ≠ self_addr)).
    + rewrite fetch_from_run, IH. cbn [length]. rewrite fetched_cons, store_all_app.
      unfold with_calls, with_srv, with_call, calls. cbn [srv net outbox rng drawn].
      rewrite length_app, fmap_cons, <- app_assoc. cbn [length app].
      by replace (length (outbox w) + 1)%nat with (S (length (outbox w))) by lia.
    + apply IH.
Qed.

(** [handle_client_connect] in closed form. *)
Lemma handle_client_connect_run (w : World Unified.Server) (client_id : string)
    (write_counter : Z) :
  Unified.consistency_model (srv w) = "read_your_writes" →
  let latest_counter := Unified.counter_of (srv w) client_id in
  let missing_counters := seqZ (latest_counter + 1) (write_counter - latest_counter) in
  let message := Msg.request_missing_articles client_id missing_counters in
  let asked := if decide (latest_counter < write_counter) then peers (srv w) else [] in
  Unified.handle_message (Msg.client_connect client_id write_counter) w
  = (Returned Rsp.connect_ack,
     with_calls
       (with_srv w (store_all (fetched (net w) (length (outbox w)) (length asked)) (srv w)))
       (calls asked message)) ∧
  (write_counter ≤ latest_counter →
   Unified.handle_message (Msg.client_connect client_id write_counter) w
   = (Returned Rsp.connect_ack, w)).
Proof.
  intros Hmodel latest_counter missing_counters message asked.
  unfold Unified.handle_message. rewrite run_bind, run_self.
  destruct (decide (Unified.consistency_model _ = _)) as [_|Hne]; [|by destruct Hne].
  unfold Unified.handle_client_connect. rewrite run_bind, run_self, run_bind.
  fold latest_counter. subst asked.
  destruct (decide (latest_counter < write_counter)) as [Hlt|Hge].
  - split; [|lia]. fold missing_counters.
    assert (∃ c l, missing_counters = c :: l) as (c & l & Hcons).
    { unfold missing_counters. rewrite seqZ_cons by lia. by eexists _, _. }
    rewrite Hcons, <- Hcons.
    pose proof (get_missing_articles_run client_id missing_counters w) as Hrun.
    cbv zeta in Hrun. by rewrite Hrun.
  - cbn. by rewrite with_calls_nil, with_srv_same.
Qed.

(** X7.  In Read-Your-Writes mode [client_connect] is always answered
    [connect_ack].  When the server's session counter of the client is not
    below the counter of the message, nothing is sent and nothing changes.
    Otherwise [request_missing_articles] for the counters from the stored one
    plus 1 up to the one of the message is sent once to every entry of the
    server list other than the own address, in the order of the list, and
    every article of every [send_missing_articles] reply is stored. *)
Theorem client_connect_requests (w : World Unified.Server) (client_id : string)
    (write_counter : Z) :
  Unified.consistency_model (srv w) = "read_your_writes" →
  let latest_counter := Unified.counter_of (srv w) client_id in
  let missing_counters := seqZ (latest_counter + 1) (write_counter - latest_counter) in
  let message := Msg.request_missing_articles client_id missing_counters in
  let asked := if decide (latest_counter < write_counter) then peers (srv w) else [] in
  Unified.handle_message (Msg.client_connect client_id write_counter) w
  = (Returned Rsp.connect_ack,
     with_calls
       (with_srv w (store_all (fetched (net w) (length (outbox w)) (length asked)) (srv w)))
       (calls asked message)) ∧
  (write_counter ≤ latest_counter →
   Unified.handle_message (Msg.client_connect client_id write_counter) w
   = (Returned Rsp.connect_ack, w)).
Proof. exact (handle_client_connect_run w client_id write_counter). Qed.

Lemma client_connect_requests_witness :
  let w := boot (Unified.init "s2" 5002 s1 [s1; s2; s3] "read_your_writes" 3 2 2 false)
             [] [] in
  outbox (snd (Unified.handle_message (Msg.client_connect "X" 2) w))
  = [(s1, Msg.request_missing_articles "X" [1; 2]);
     (s3, Msg.request_missing_articles "X" [1; 2])].
Proof.
  intros w.
  destruct (client_connect_requests w "X" 2) as [Hrun _]; [reflexivity|].
  rewrite Hrun. reflexivity.
Defined.

Lemma answer_request_missing_articles (peer : Unified.Server) (client_id : string)
    (counters : list Z) :
  Unified.consistency_model peer = "read_your_writes" →
  answer peer (Msg.request_missing_articles client_id counters)
  = Some (Rsp.send_missing_articles
            (omap (Unified.missing_for client_id counters) (Unified.articles peer))).
Proof.
  intros Hmodel. unfold answer, Unified.handle_message. rewrite run_bind, run_self.
  cbn [srv boot]. by destruct (decide _).
Qed.

(** X8.  The fetch that gives Read-Your-Writes its name.  A server handles
    [client_connect] with a counter above its session counter of the client;
    one of the servers it asks is a Read-Your-Writes server that answers from a
    store holding an article of that client written under a counter between
    the two, and [send_message] reads that answer: it fits in the 4096 bytes
    of the one read and decodes.  Then the server holds that article
    afterwards, lists it in [read_articles], and its session counter of the
    client is at least the article's.  An answer longer than one read is cut
    ([delivered_cut]); when [json.loads] rejects the rest, [send_message]
    raises and nothing of the answer is stored. *)
Theorem client_connect_fetches (dumps : Rsp.t → string) (loads : string → option Rsp.t)
    (w : World Unified.Server) (client_id : string) (write_counter : Z) (i : nat)
    (peer : Unified.Server) (a : Article.t) (k : Z) :
  Unified.consistency_model (srv w) = "read_your_writes" →
  Unified.consistency_model peer = "read_your_writes" →
  let latest_counter := Unified.counter_of (srv w) client_id in
  let missing_counters := seqZ (latest_counter + 1) (write_counter - latest_counter) in
  let request := Msg.request_missing_articles client_id missing_counters in
  (i < length (peers (srv w)))%nat →
  net w (length (outbox w) + i) = Transport.delivered dumps loads (answer peer request) →
  (∀ r, answer peer request = Some r → Transport.readable dumps loads r) →
  a ∈ Unified.articles peer →
  Article.client_id a = Some client_id →
  Article.write_counter a = Some k →
  latest_counter < k ≤ write_counter →
  let w' := snd (Unified.handle_message (Msg.client_connect client_id write_counter) w) in
  a ∈ Unified.articles (srv w') ∧
  k ≤ Unified.counter_of (srv w') client_id ∧
  ∃ l, fst (Unified.handle_message Msg.read_articles w') = Returned (Rsp.articles_list l) ∧
       Unified.summary_of a ∈ l.
Proof.
  intros Hmodel Hpeer latest_counter missing_counters request Hi Hreply Hreadable
    Ha Hclient Hcounter Hk w'.
  destruct (handle_client_connect_run w client_id write_counter Hmodel) as [Hrun _].
  fold latest_counter in Hrun. fold missing_counters in Hrun.
  destruct (decide (latest_counter < write_counter)) as [_|Hge]; [|lia].
  set (d := Tagged.mk (Article.id a) (Article.parent_id a) (Article.title a)
                      (Article.content a) client_id k).
  set (F := fetched (net w) (length (outbox w)) (length (peers (srv w)))) in Hrun.
  assert (d ∈ F) as Hd.
  { apply (fetched_elem_of _ _ _ i); [done|].
    pose proof (answer_request_missing_articles peer client_id missing_counters Hpeer)
      as Hanswer.
    fold request in Hanswer.
    rewrite Hreply, Hanswer, delivered_readable by (by apply Hreadable).
    cbn [sent_articles].
    apply list_elem_of_omap. exists a. split; [done|].
    unfold Unified.missing_for. rewrite Hclient, Hcounter.
    rewrite !bool_decide_eq_true_2; [done| |done].
    unfold missing_counters. apply elem_of_seqZ. lia. }
  assert (Unified.of_tagged d = a) as Hof.
  { destruct a. cbn in *. by subst. }
  assert (srv w' = store_all F (srv w)) as Hsrv by (subst w'; by rewrite Hrun).
  assert (a ∈ Unified.articles (srv w')) as Hin.
  { rewrite Hsrv, store_all_articles, elem_of_app. right.
    rewrite <- Hof. by apply list_elem_of_fmap_2. }
  split; [done|]. split.
  - rewrite Hsrv. by apply (proj2 (store_all_counter F client_id (srv w)) d).
  - exists (Unified.summary_of <$> Unified.articles (srv w')). split.
    + unfold Unified.handle_message. rewrite run_bind, run_self.
      unfold Unified.handle_read_articles. rewrite run_bind, run_self.
      destruct (store_all_configuration F (srv w)) as [Hconf _].
      rewrite <- Hsrv in Hconf.
      assert (Unified.consistency_model (srv w') = "read_your_writes") as ->.
      { rewrite <- Hmodel. unfold configuration in Hconf. congruence. }
      reflexivity.
    + by apply list_elem_of_fmap_2.
Qed.

Lemma client_connect_fetches_witness :
  let a := Article.mk 1 None "T" "C" (Some "X") (Some 1) in
  let peer :=
    Unified.set_articles [a] (Unified.init "s1" 5001 s1 [s1; s3] "read_your_writes" 3 2 2 true) in
  let reply := Rsp.send_missing_articles [Tagged.mk 1 None "T" "C" "X" 1] in
  let dumps := λ _ : Rsp.t, "r" in
  let loads := λ _ : string, Some reply in
  let w := boot (Unified.init "s3" 5003 s1 [s1; s3] "read_your_writes" 3 2 2 false)
             [Transport.delivered dumps loads
                (answer peer (Msg.request_missing_articles "X" [1]))] [] in
  a ∈ Unified.articles (srv (snd (Unified.handle_message (Msg.client_connect "X" 1) w))).
Proof.
  intros a peer reply dumps loads w.
  apply (client_connect_fetches dumps loads w "X" 1 0 peer a 1); try reflexivity.
  - vm_compute. lia.
  - intros r Hr. vm_compute in Hr. injection Hr as <-.
    split; [cbn; lia|]. split; reflexivity.
  - apply list_elem_of_here.
  - vm_compute. split; [reflexivity|discriminate].
Defined.

Lemma get_next_article_id_keeps (w w1 : World Unified.Server) (r : result (option Z)) :
  Unified.get_next_article_id w = (r, w1) →
  Unified.consistency_model (srv w1) = Unified.consistency_model (srv w) ∧
  Unified.articles (srv w1) = Unified.articles (srv w) ∧
  Unified.client_write_counters (srv w1) = Unified.client_write_counters (srv w).
Proof.
  unfold Unified.get_next_article_id. rewrite run_bind, run_self.
  destruct (Unified.is_coordinator (srv w)).
  - by intros [= _ <-].
  - unfold try_except. rewrite run_bind. unfold send_message.
    destruct (net w (length (outbox w))) as [[]|]; cbn; by intros [= _ <-].
Qed.

(** X9.  A write that a Read-Your-Writes server answered [post_success]
    leaves the session counter of the client at the counter of that write, so
    that a [client_connect] of the same client with the same counter at the
    same server is acknowledged without any message sent and any change. *)
Theorem write_then_connect_quiet (w w' : World Unified.Server) (p : Post.t) (reply : bool)
    (article_id : option Z) :
  Unified.consistency_model (srv w) = "read_your_writes" →
  Unified.handle_message (if reply then Msg.reply_article p else Msg.post_article p) w
  = (Returned (Rsp.post_success article_id), w') →
  Unified.counter_of (srv w') (Post.client_id p) = Post.write_counter p ∧
  Unified.handle_message (Msg.client_connect (Post.client_id p) (Post.write_counter p)) w'
  = (Returned Rsp.connect_ack, w').
Proof.
  intros Hmodel Hrun.
  assert (Unified.consistency_model (srv w') = "read_your_writes" ∧
          Unified.counter_of (srv w') (Post.client_id p) = Post.write_counter p)
    as [Hmodel' Hcounter].
  { revert Hrun. unfold Unified.handle_message. rewrite run_bind, run_self.
    destruct (get_next_article_id_returns w) as (r & w1 & Hid).
    destruct (get_next_article_id_keeps w w1 _ Hid) as (Hm1 & _ & _).
    destruct reply.
    - unfold Unified.handle_reply_article. rewrite run_bind, run_self.
      destruct (decide _) as [Hs|_]; [rewrite Hmodel in Hs; discriminate|].
      destruct (decide _) as [_|Hne]; [|by destruct Hne].
      unfold Unified.handle_reply_article_read_your_writes. rewrite run_bind, Hid.
      destruct r as [r|]; [|intros [=]].
      intros [= _ <-]. split; [cbn; congruence|].
      unfold Unified.counter_of. cbn. by rewrite lookup_insert_eq.
    - unfold Unified.handle_post_article. rewrite run_bind, run_self.
      destruct (decide _) as [Hs|_]; [rewrite Hmodel in Hs; discriminate|].
      destruct (decide _) as [_|Hne]; [|by destruct Hne].
      unfold Unified.handle_post_article_read_your_writes. rewrite run_bind, Hid.
      destruct r as [r|]; [|intros [=]].
      intros [= _ <-]. split; [cbn; congruence|].
      unfold Unified.counter_of. cbn. by rewrite lookup_insert_eq. }
  split; [done|].
  apply (handle_client_connect_run w' (Post.client_id p) (Post.write_counter p) Hmodel').
  lia.
Qed.

Lemma write_then_connect_quiet_witness :
  let w := boot (Unified.init "s1" 5001 s1 [s1; s2] "read_your_writes" 3 2 2 true) [] [] in
  let p := Post.mk "X" 1 None "T" "C" in
  let w' := snd (Unified.handle_message (Msg.post_article p) w) in
  Unified.handle_message (Msg.client_connect "X" 1) w' = (Returned Rsp.connect_ack, w').
Proof.
  intros w p w'.
  apply (write_then_connect_quiet w w' p false (Some 1)); reflexivity.
Defined.

(** X10.  Where a Read-Your-Writes server that is not the coordinator gets
    its ids.  When the server at the coordinator address answers
    [get_next_article_id] from a server object that is a coordinator, in
    whatever mode, the post is stored under that server's next id and answered
    [post_success]; when it answers from one that is not a coordinator, the
    post fails with "Failed to get article ID from coordinator" and the server
    object is unchanged. *)
Theorem allocation_via_coordinator (w : World Unified.Server) (coordinator : Unified.Server)
    (p : Post.t) :
  Unified.consistency_model (srv w) = "read_your_writes" →
  Unified.is_coordinator (srv w) = false →
  net w (length (outbox w)) = answer coordinator Msg.get_next_article_id →
  let article_id := Unified.next_article_id coordinator in
  let article :=
    Article.mk article_id None (Post.title p) (Post.content p)
               (Some (Post.client_id p)) (Some (Post.write_counter p)) in
  let r := Unified.handle_message (Msg.post_article p) w in
  outbox (snd r) = outbox w ++ [(Unified.coordinator_address (srv w), Msg.get_next_article_id)] ∧
  if Unified.is_coordinator coordinator
  then fst r = Returned (Rsp.post_success (Some article_id)) ∧
       Unified.articles (srv (snd r)) = Unified.articles (srv w) ++ [article]
  else fst r = Returned (Rsp.error "Failed to get article ID from coordinator") ∧
       srv (snd r) = srv w.
Proof.
  intros Hmodel Hcoord Hreply article_id article r. subst r.
  unfold Unified.handle_message. rewrite run_bind, run_self.
  unfold Unified.handle_post_article. rewrite run_bind, run_self.
  destruct (decide _) as [Hs|_]; [rewrite Hmodel in Hs; discriminate|].
  destruct (decide _) as [_|Hne]; [|by destruct Hne].
  unfold Unified.handle_post_article_read_your_writes. rewrite run_bind.
  unfold Unified.get_next_article_id. rewrite run_bind, run_self, Hcoord.
  unfold try_except. rewrite run_bind. unfold send_message. rewrite Hreply.
  unfold answer, Unified.handle_message. rewrite run_bind, run_self.
  unfold Unified.handle_get_next_article_id. rewrite run_bind, run_self.
  cbn [srv boot]. by destruct (Unified.is_coordinator coordinator).
Qed.

Lemma allocation_via_coordinator_witness :
  let coordinator := Unified.init "s1" 5001 s1 [s1; s2] "read_your_writes" 3 2 2 true in
  let w := boot (Unified.init "s2" 5002 s1 [s2; s1] "read_your_writes" 3 2 2 false)
             [answer coordinator Msg.get_next_article_id] [] in
  fst (Unified.handle_message (Msg.post_article (Post.mk "X" 1 None "T" "C")) w)
  = Returned (Rsp.post_success (Some 1)).
Proof.
  intros coordinator w.
  destruct (allocation_via_coordinator w coordinator (Post.mk "X" 1 None "T" "C"))
    as [_ [Hrun _]]; [reflexivity..|].
  exact Hrun.
Defined.

(** ** Quorum mode: what a write leaves behind *)

Lemma collect_acknowledgments_world (article : Article.t) (self_addr : address) :
  ∀ write_quorum acc (w : World Unified.Server),
  Unified.me (srv w) = self_addr →
  ∃ acknowledgments,
    for_acc write_quorum acc (Unified.write_to_member article) w
    = (Returned acknowledgments,
       with_calls
         (with_articles w
            (Unified.articles (srv w)
             ++ replicate (length (filter (λ addr, addr = self_addr) write_quorum)) article))
         (calls (filter (λ addr, addr ≠ self_addr) write_quorum)
            (Msg.write_article (Unified.wire_of article)))).
Proof.
  induction write_quorum as [|a q IH]; intros acc w Hme.
  - exists acc. cbn. rewrite app_nil_r, with_calls_nil.
    unfold with_articles. by destruct w as [[]].
  - cbn [for_acc]. rewrite run_bind, !filter_cons.
    destruct (decide (a = self_addr)) as [Heq|Hne].
    + rewrite write_to_member_own by congruence.
      destruct (decide (a ≠ self_addr)) as [Hne|_]; [done|].
      destruct (IH (acc ++ [a]) (with_articles w (Unified.articles (srv w) ++ [article])))
        as (acks & ->); [done|].
      exists acks. cbn [length replicate].
      unfold with_articles. cbn [srv net outbox rng drawn Unified.articles Unified.set_articles].
      by rewrite <- app_assoc.
    + rewrite write_to_member_peer by congruence.
      destruct (decide (a ≠ self_addr)) as [_|Hn]; [|done].
      destruct (IH (if is_write_ack (net w (length (outbox w))) then acc ++ [a] else acc)
                   (with_call w a (Msg.write_article (Unified.wire_of article))))
        as (acks & ->); [done|].
      exists acks. unfold calls. rewrite fmap_cons.
      unfold with_calls, with_articles, with_call. cbn [srv net outbox rng drawn].
      by rewrite <- app_assoc.
Qed.

(** X12.  What a write handled by the Quorum coordinator leaves behind,
    whether it is answered [post_success] or "Failed to write to quorum".  The
    id is consumed; the article is in the coordinator's store once for each
    time its own address is in the quorum drawn, and stays there when the
    write fails; [write_article] was sent once to each other member of the
    quorum, in the order drawn, and to no other server. *)
Theorem quorum_write_effects (w : World Unified.Server) (p : Post.t) (reply : bool) :
  Unified.consistency_model (srv w) = "quorum" →
  Unified.is_coordinator (srv w) = true →
  let s := srv w in
  let article_id := Unified.next_article_id s in
  let parent_id := if reply then Post.parent_id p else None in
  let article := Article.mk article_id parent_id (Post.title p) (Post.content p) None None in
  let servers := Unified.server_addresses s in
  let write_quorum :=
    picks servers (Unified.NW s `min` length servers)%nat (rng w) (drawn w) in
  let own := filter (λ addr, addr = Unified.me s) write_quorum in
  let others := filter (λ addr, addr ≠ Unified.me s) write_quorum in
  let w' :=
    snd (Unified.handle_message (if reply then Msg.reply_article p else Msg.post_article p) w) in
  srv w' = Unified.set_articles (Unified.articles s ++ replicate (length own) article)
             (allocate s) ∧
  outbox w' = outbox w ++ calls others (Msg.write_article (Unified.wire_of article)).
Proof.
  intros Hmodel Hcoord s article_id parent_id article servers write_quorum own others w'.
  assert (w' = snd ((assign (Unified.set_next_article_id (article_id + 1)) ;;
                     write_quorum ← Unified.select_quorum (Unified.NW s);
                     acknowledgments ← Unified.collect_acknowledgments article write_quorum;
                     if decide (Unified.NW s ≤ length acknowledgments)%nat
                     then mret (Rsp.post_success (Some article_id))
                     else mret (Rsp.error "Failed to write to quorum")) w)) as ->.
  { subst w'. unfold Unified.handle_message. rewrite run_bind, run_self.
    destruct reply.
    - unfold Unified.handle_reply_article. rewrite run_bind, run_self, Hmodel.
      cbn [decide]. destruct (decide _); [done|]. destruct (decide _); [done|].
      destruct (decide _); [|done].
      unfold Unified.handle_reply_article_quorum. by rewrite run_bind, run_self, Hcoord.
    - unfold Unified.handle_post_article. rewrite run_bind, run_self, Hmodel.
      cbn [decide]. destruct (decide _); [done|]. destruct (decide _); [done|].
      destruct (decide _); [|done].
      unfold Unified.handle_post_article_quorum. by rewrite run_bind, run_self, Hcoord. }
  rewrite run_bind, run_assign, run_bind, unified_select_quorum_run.
  cbn [with_srv srv Unified.server_addresses Unified.set_next_article_id].
  fold s servers write_quorum. rewrite run_bind.
  unfold Unified.collect_acknowledgments.
  match goal with |- context [for_acc ?q [] _ ?w1] =>
    change q with write_quorum;
    destruct (collect_acknowledgments_world article (Unified.me s) write_quorum [] w1)
      as (acks & ->); [done|]
  end.
  fold own others. by destruct (decide _).
Qed.

Lemma quorum_write_effects_witness :
  let w := boot (Unified.init "s1" 5001 s1 [s1; s2; s3] "quorum" 3 2 2 true) [] [0; 1]%nat in
  let w' := snd (Unified.handle_message (Msg.post_article (Post.mk "X" 0 None "T" "C")) w) in
  fst (Unified.handle_message (Msg.post_article (Post.mk "X" 0 None "T" "C")) w)
  = Returned (Rsp.error "Failed to write to quorum") ∧
  Unified.articles (srv w') = [Article.mk 1 None "T" "C" None None] ∧
  Unified.next_article_id (srv w') = 2 ∧
  outbox w' = [(s2, Msg.write_article (Wire.mk 1 None "T" "C"))].
Proof.
  intros w w'.
  destruct (quorum_write_effects w (Post.mk "X" 0 None "T" "C") false) as [Hsrv Hout];
    [reflexivity..|].
  cbv zeta iota in Hsrv, Hout. fold w' in Hsrv, Hout.
  split; [reflexivity|]. rewrite Hsrv, Hout. repeat split; reflexivity.
Defined.

(** ** Quorum mode: reading one article *)

Lemma asked_step (reply : nat → option Rsp.t) (k n : nat) :
  is_article_content (reply k) = false →
  (∀ i, (i < n)%nat → is_article_content (reply (k + 1 + i)%nat) = false) ↔
  (∀ i, (i < S n)%nat → is_article_content (reply (k + i)%nat) = false).
Proof.
  intros Hk. split.
  - intros Hrest [|i] Hi; [by rewrite Nat.add_0_r|].
    replace (k + S i)%nat with (k + 1 + i)%nat by lia. apply Hrest. lia.
  - intros Hall i Hi. replace (k + 1 + i)%nat with (k + S i)%nat by lia. apply Hall. lia.
Qed.

Lemma first_with_article_none (article_id : Z) (self_addr : address) :
  ∀ read_quorum (w : World Unified.Server),
  Unified.me (srv w) = self_addr →
  let own := Unified.lookup_article article_id (Unified.articles (srv w)) in
  let asked := filter (λ addr, addr ≠ self_addr) read_quorum in
  (∃ r, fst (Unified.first_with_article article_id read_quorum w) = Returned r) ∧
  (fst (Unified.first_with_article article_id read_quorum w) = Returned None ↔
   (self_addr ∈ read_quorum → own = None) ∧
   ∀ i, (i < length asked)%nat →
        is_article_content (net w (length (outbox w) + i)) = false).
Proof.
  induction read_quorum as [|addr q IH]; intros w Hme own asked.
  - split; [by eexists|]. split; [|done]. intros _. split.
    + by intros ?%elem_of_nil.
    + cbn. lia.
  - cbn [Unified.first_with_article]. rewrite run_bind, run_self, run_bind.
    subst asked. rewrite filter_cons, Hme.
    destruct (decide (addr = self_addr)) as [->|Hne].
    + destruct (decide (self_addr ≠ self_addr)) as [Hn|_]; [done|].
      cbn [mret M_ret]. fold own. destruct own as [a|] eqn:Hown.
      * split; [by eexists|]. split; [done|]. intros [Hnone _].
        discriminate Hnone. left.
      * destruct (IH w Hme) as [Hret Hiff]. split; [done|].
        rewrite Hiff. fold own. rewrite Hown. split.
        -- intros [_ Hpeers]. done.
        -- intros [_ Hpeers]. done.
    + destruct (decide (addr ≠ self_addr)) as [_|Hn]; [|done].
      unfold try_except. rewrite run_bind. unfold send_message.
      destruct (IH (with_call w addr (Msg.get_article_content article_id)) Hme)
        as [Hret Hiff].
      cbn [with_call srv outbox net length] in Hiff. rewrite length_app in Hiff.
      cbn [length] in Hiff. fold own in Hiff.
      assert (is_article_content (net w (length (outbox w))) = false →
              (fst (Unified.first_with_article article_id q
                      (with_call w addr (Msg.get_article_content article_id)))
               = Returned None ↔
               (self_addr ∈ addr :: q → own = None) ∧
               ∀ i, (i < length (addr :: filter (λ a, a ≠ self_addr) q))%nat →
                    is_article_content (net w (length (outbox w) + i)) = false))
        as Hcontinue.
      { intros Hk. rewrite Hiff. cbn [length]. rewrite <- (asked_step (net w)) by done.
        split; (intros [Hown Hpeers]; split; [|exact Hpeers]).
        - intros [?|?]%elem_of_cons; [done|by apply Hown].
        - intros Hin. apply Hown. by right. }
      destruct (net w (length (outbox w))) as [[]|] eqn:Hreply; cbn [mret M_ret];
        try (split; [exact Hret|by apply Hcontinue]).
      split; [by eexists|]. split; [done|]. intros [_ Hpeers].
      specialize (Hpeers 0%nat). rewrite Nat.add_0_r, Hreply in Hpeers.
      cbn in Hpeers. discriminate Hpeers. lia.
Qed.

(** X13.  A Quorum read of one article always returns, and it is answered
    "Article not found" exactly when no member of the read quorum supplies the
    article: the server itself, when it is in the quorum, holds no article of
    that id, and none of the other members answers [article_content] (a member
    that cannot be reached counts as one that does not hold the article).  An
    article held only by servers outside the quorum drawn is not found. *)
Theorem quorum_read_not_found (w : World Unified.Server) (article_id : Z) :
  Unified.consistency_model (srv w) = "quorum" →
  let s := srv w in
  let servers := Unified.server_addresses s in
  let read_quorum :=
    picks servers (Unified.NR s `min` length servers)%nat (rng w) (drawn w) in
  let asked := filter (λ addr, addr ≠ Unified.me s) read_quorum in
  let response := fst (Unified.handle_message (Msg.read_article_content article_id) w) in
  (∃ r, response = Returned r) ∧
  (response = Returned (Rsp.error "Article not found") ↔
   (Unified.me s ∈ read_quorum → Unified.lookup_article article_id (Unified.articles s) = None) ∧
   ∀ i, (i < length asked)%nat →
        is_article_content (net w (length (outbox w) + i)) = false).
Proof.
  intros Hmodel s servers read_quorum asked response. subst response.
  unfold Unified.handle_message. rewrite run_bind, run_self.
  unfold Unified.handle_read_article_content. rewrite run_bind, run_self, Hmodel.
  cbn [decide]. destruct (decide _); [done|]. destruct (decide _); [done|].
  destruct (decide _); [|done].
  unfold Unified.handle_read_article_content_quorum.
  rewrite run_bind, run_self, run_bind, unified_select_quorum_run.
  fold s servers read_quorum. rewrite run_bind.
  set (w1 := advance w _).
  destruct (first_with_article_none article_id (Unified.me s) read_quorum w1 eq_refl)
    as [[r Hret] Hiff].
  change (srv w1) with s in Hiff. change (net w1) with (net w) in Hiff.
  change (outbox w1) with (outbox w) in Hiff. fold asked in Hiff.
  rewrite <- Hiff. clear Hiff.
  destruct (Unified.first_with_article article_id read_quorum w1) as [[[a|]|err] w2];
    cbn in Hret |- *; try discriminate Hret.
  - split; [by eexists|]. split; intros [=].
  - split; [by eexists|]. done.
Qed.

(** ** Quorum sizes that [__main__] accepts *)

Lemma rejected_false (N NR NW : Z) :
  Main.rejected N NR NW = false ↔ N < NR + NW ∧ N < 2 * NW.
Proof.
  unfold Main.rejected. rewrite orb_false_iff, bool_decide_eq_false.
  rewrite <- not_true_iff_false, QArith_base.Qle_bool_iff.
  unfold QArith_base.Qle, QArith_base.Qdiv, QArith_base.Qmult, QArith_base.Qinv,
    QArith_base.inject_Z.
  cbn. lia.
Qed.

Lemma addresses_NoDup (host : string) (port : Z) (others : list address) :
  NoDup others → NoDup (Main.addresses host port others).
Proof.
  intros Hnd. unfold Main.addresses. apply NoDup_cons. split.
  - intros [Hne _]%list_elem_of_filter. by apply Hne.
  - by apply NoDup_filter.
Qed.

Lemma quorums_meet (servers q1 q2 : list address) :
  NoDup servers → q1 ⊆+ servers → q2 ⊆+ servers →
  (length servers < length q1 + length q2)%nat →
  ∃ addr, addr ∈ q1 ∧ addr ∈ q2.
Proof.
  intros Hnd H1 H2 Hlen.
  destruct (decide (Exists (λ addr, addr ∈ q2) q1)) as [Hex|Hno].
  - apply Exists_exists in Hex. exact Hex.
  - exfalso. apply not_Exists_Forall in Hno; [|intros ?; apply _].
    rewrite Forall_forall in Hno.
    assert (NoDup (q1 ++ q2)) as Hboth.
    { apply NoDup_app. split; [by eapply NoDup_submseteq_inv|].
      split; [|by eapply NoDup_submseteq_inv].
      intros x Hx. by apply Hno. }
    assert (q1 ++ q2 ⊆+ servers) as Hsub.
    { apply NoDup_submseteq; [done|].
      intros x [Hx|Hx]%elem_of_app; by eapply elem_of_submseteq. }
    apply submseteq_length in Hsub. rewrite length_app in Hsub. lia.
Qed.

(** X14.  The sizes that [__main__] accepts make quorums meet.  On a server
    whose list is the one [__main__] builds from distinct other addresses, with
    [N] the length of that list and sizes that pass the test of [__main__], any
    two write quorums that [select_quorum] draws share a server, and so do any
    write quorum and any read quorum, provided [NR] is not 0. *)
Theorem accepted_quorums_meet (w1 w2 : World Unified.Server) (host : string) (port : Z)
    (others : list address) (N NR NW : nat) (q1 q2 : list address) :
  Main.rejected (Z.of_nat N) (Z.of_nat NR) (Z.of_nat NW) = false →
  NoDup others →
  N = length (Main.addresses host port others) →
  Unified.server_addresses (srv w1) = Main.addresses host port others →
  Unified.server_addresses (srv w2) = Main.addresses host port others →
  fst (Unified.select_quorum NW w1) = Returned q1 →
  fst (Unified.select_quorum NW w2) = Returned q2
  ∨ (0 < NR)%nat ∧ fst (Unified.select_quorum NR w2) = Returned q2 →
  ∃ addr, addr ∈ q1 ∧ addr ∈ q2.
Proof.
  intros Hsizes Hnd HN Hs1 Hs2 Hq1 Hq2.
  apply rejected_false in Hsizes as [Hrw Hww].
  set (servers := Main.addresses host port others) in *.
  assert (0 < length servers)%nat as Hpos by (unfold servers, Main.addresses; cbn [length]; lia).
  assert (∀ (w : World Unified.Server) k q,
            Unified.server_addresses (srv w) = servers →
            fst (Unified.select_quorum k w) = Returned q →
            length q = (k `min` length servers)%nat ∧ q ⊆+ servers) as Hsel.
  { intros w k q Hs. rewrite unified_select_quorum_run, Hs. cbn [fst].
    intros [= <-]. apply picks_spec. unfold servers, Main.addresses. cbn [length]. lia. }
  destruct (Hsel w1 NW q1 Hs1 Hq1) as [Hl1 Hsub1].
  apply (quorums_meet servers); [by apply addresses_NoDup|done| |].
  - destruct Hq2 as [Hq2|[_ Hq2]]; by destruct (Hsel w2 _ q2 Hs2 Hq2).
  - destruct Hq2 as [Hq2|[Hr Hq2]]; destruct (Hsel w2 _ q2 Hs2 Hq2) as [Hl2 _]; lia.
Qed.

Lemma accepted_quorums_meet_witness :
  let s := Unified.init "s1" 5001 s1 (Main.addresses "s1" 5001 [s2; s3]) "quorum" 3 2 2 true in
  ∃ addr,
    addr ∈ picks (Unified.server_addresses s) 2 (draws_of [0; 1]%nat) 0 ∧
    addr ∈ picks (Unified.server_addresses s) 2 (draws_of [2; 1]%nat) 0.
Proof.
  intros s.
  apply (accepted_quorums_meet (boot s [] [0; 1]%nat) (boot s [] [2; 1]%nat)
           "s1" 5001 [s2; s3] 3 2 2); try reflexivity.
  - by apply (bool_decide_unpack _).
  - by left.
Defined.

(** ** Quorum mode: a round of [synchronize] *)

Lemma lookup_article_None (article_id : Z) (l : list Article.t) :
  Unified.lookup_article article_id l = None ↔ article_id ∉ Article.id <$> l.
Proof.
  unfold Unified.lookup_article. induction l as [|a l IH]; cbn.
  - split; [intros _ ?%elem_of_nil; done|done].
  - rewrite not_elem_of_cons. destruct (bool_decide_reflect (Article.id a = article_id)).
    + split; [done|]. intros [Hne _]. by destruct Hne.
    + rewrite IH. split; [|tauto]. intros Hout. split; [congruence|done].
Qed.

Lemma absorb_all (offered : list Listing.t) : ∀ l,
  foldl absorb l offered
  = l ++ (Unified.of_listing <$> first_by Listing.id (Article.id <$> l) offered).
Proof.
  induction offered as [|d offered IH]; intros l; [by rewrite app_nil_r|].
  cbn [foldl first_by]. unfold absorb at 2.
  destruct (decide (Listing.id d ∈ Article.id <$> l)) as [Hin|Hout].
  - destruct (Unified.lookup_article _ _) eqn:Hlookup; [apply IH|].
    apply lookup_article_None in Hlookup. by destruct Hlookup.
  - apply lookup_article_None in Hout as Hlookup. rewrite Hlookup, IH.
    rewrite fmap_cons, <- app_assoc. cbn [app]. do 3 f_equal.
    apply first_by_ext. intros x.
    rewrite fmap_app, elem_of_app, fmap_cons, fmap_nil, !elem_of_cons, elem_of_nil.
    cbn. tauto.
Qed.

Lemma run_send {St} (addr : address) (message : Msg.t) (w : World St) :
  send_message addr message w
  = (match net w (length (outbox w)) with
     | Some response => Returned response
     | None => Raised ConnectionError
     end, with_call w addr message).
Proof. unfold send_message. by destruct (net w (length (outbox w))). Qed.

Lemma with_articles_same (w : World Unified.Server) :
  with_articles w (Unified.articles (srv w)) = w.
Proof. by destruct w as [[]]. Qed.

Lemma absorb_loop_run (articles_ : list Listing.t) : ∀ w : World Unified.Server,
  for_ articles_ (λ article_data,
    s ← self;
    match Unified.lookup_article (Listing.id article_data) (Unified.articles s) with
    | None => Unified.append (Unified.of_listing article_data)
    | Some _ => mret tt
    end) w
  = (Returned tt, with_articles w (foldl absorb (Unified.articles (srv w)) articles_)).
Proof.
  induction articles_ as [|d l IH]; intros w; [by rewrite with_articles_same|].
  cbn [for_ foldl]. rewrite run_bind, run_bind, run_self. unfold absorb at 2.
  destruct (Unified.lookup_article _ _).
  - cbn [mret M_ret]. apply IH.
  - unfold Unified.append. rewrite run_assign, IH. reflexivity.
Qed.

Lemma listings_cons (reply : nat → option Rsp.t) (k n : nat) :
  listings reply k (S n) = listed (reply k) ++ listings reply (S k) n.
Proof. reflexivity. Qed.

Lemma listings_elem_of (reply : nat → option Rsp.t) (n : nat) : ∀ k i d,
  (i < n)%nat → d ∈ listed (reply (k + i)%nat) → d ∈ listings reply k n.
Proof.
  induction n as [|n IH]; intros k i d Hi Hd; [lia|].
  rewrite listings_cons, elem_of_app. destruct i as [|i].
  - left. by rewrite Nat.add_0_r in Hd.
  - right. apply (IH (S k) i); [lia|]. by replace (S k + i)%nat with (k + S i)%nat by lia.
Qed.

Lemma synchronize_round_run (w : World Unified.Server) :
  let asked := peers (srv w) in
  let offered := listings (net w) (length (outbox w)) (length asked) in
  Unified.synchronize_round w
  = (Returned tt,
     with_calls (with_articles w (foldl absorb (Unified.articles (srv w)) offered))
       (calls asked Msg.get_articles)).
Proof.
  intros asked offered. subst asked offered.
  unfold Unified.synchronize_round, peers. rewrite run_bind, run_self.
  generalize (Unified.server_addresses (srv w)). generalize (Unified.me (srv w)).
  intros self_addr l. revert w.
  induction l as [|addr l IH]; intros w.
  - cbn. by rewrite with_calls_nil, with_articles_same.
  - cbn [for_]. rewrite run_bind, filter_cons.
    destruct (decide (addr ≠ self_addr)); [|apply IH].
    assert (try_except
              (response ← send_message addr Msg.get_articles;
               match response with
               | Rsp.articles_list articles_ =>
                   for_ articles_ (λ article_data,
                     s ← self;
                     match Unified.lookup_article (Listing.id article_data)
                             (Unified.articles s) with
                     | None => Unified.append (Unified.of_listing article_data)
                     | Some _ => mret tt
                     end)
               | _ => mret tt
               end)
              (λ _, mret tt) w
            = (Returned tt,
               with_articles (with_call w addr Msg.get_articles)
                 (foldl absorb (Unified.articles (srv w))
                    (listed (net w (length (outbox w))))))) as ->.
    { unfold try_except. rewrite run_bind, run_send.
      change (Unified.articles (srv w))
        with (Unified.articles (srv (with_call w addr Msg.get_articles))).
      destruct (net w (length (outbox w))) as [[]|]; cbn [listed foldl mret M_ret];
        try (by rewrite with_articles_same).
      by rewrite absorb_loop_run. }
    rewrite IH. cbn [length]. rewrite listings_cons, foldl_app.
    unfold with_calls, with_articles, with_call, calls.
    cbn [srv net outbox rng drawn Unified.articles Unified.set_articles].
    rewrite length_app, fmap_cons, <- app_assoc. cbn [length app].
    by replace (length (outbox w) + 1)%nat with (S (length (outbox w))) by lia.
Qed.

(** The store after a round of [synchronize], in closed form. *)
Lemma synchronize_round_store (w : World Unified.Server) :
  let asked := peers (srv w) in
  let offered := listings (net w) (length (outbox w)) (length asked) in
  let held := Article.id <$> Unified.articles (srv w) in
  let store := Unified.articles (srv w)
               ++ (Unified.of_listing <$> first_by Listing.id held offered) in
  Unified.synchronize_round w
  = (Returned tt, with_calls (with_articles w store) (calls asked Msg.get_articles)) ∧
  (∀ d, d ∈ offered → Listing.id d ∈ Article.id <$> store) ∧
  (NoDup held → NoDup (Article.id <$> store)).
Proof.
  intros asked offered held store.
  pose proof (synchronize_round_run w) as Hrun. cbv zeta in Hrun.
  rewrite absorb_all in Hrun. split; [exact Hrun|].
  assert (Article.id <$> store = held ++ (Listing.id <$> first_by Listing.id held offered))
    as Hids.
  { unfold store. rewrite fmap_app, <- list_fmap_compose. done. }
  rewrite Hids. split.
  - intros d Hd.
    assert (Listing.id d ∈ (Listing.id <$> first_by Listing.id held offered) ++ held) as Hin.
    { apply first_by_keys. apply elem_of_app. left. by apply list_elem_of_fmap_2. }
    apply elem_of_app in Hin. apply elem_of_app. tauto.
  - intros Hnd. destruct (first_by_fresh Listing.id offered held) as [Hnew Hfresh].
    apply NoDup_app. split; [done|]. split; [|done].
    intros x Hx Hx'. apply list_elem_of_fmap in Hx' as (d & -> & Hd).
    by apply (Hfresh d Hd).
Qed.

(** X15.  A round of [synchronize] never raises.  It asks every entry of the
    server list other than the own address for [get_articles], once and in the
    order of the list, and appends, in the order received, exactly the entries
    of the replies whose id the store does not hold when their turn comes,
    leaving the articles held as they are.  Afterwards every id of every reply
    is held, and the ids of the store are still distinct when they were. *)
Theorem synchronize_round_effects (w : World Unified.Server) :
  let asked := peers (srv w) in
  let offered := listings (net w) (length (outbox w)) (length asked) in
  let held := Article.id <$> Unified.articles (srv w) in
  let store := Unified.articles (srv w)
               ++ (Unified.of_listing <$> first_by Listing.id held offered) in
  Unified.synchronize_round w
  = (Returned tt, with_calls (with_articles w store) (calls asked Msg.get_articles)) ∧
  (∀ d, d ∈ offered → Listing.id d ∈ Article.id <$> store) ∧
  (NoDup held → NoDup (Article.id <$> store)).
Proof. exact (synchronize_round_store w). Qed.

Lemma answer_get_articles (peer : Unified.Server) :
  answer peer Msg.get_articles
  = Some (Rsp.articles_list (Unified.listing_of <$> Unified.articles peer)).
Proof. reflexivity. Qed.

(** X16.  A round of [synchronize] catches up with every peer whose answer
    it can read.  When one of the servers asked answers [get_articles] from its
    store, in whatever mode it runs, and [send_message] reads that answer (the
    whole store with its contents fits in the 4096 bytes of the one read and
    decodes), the server holds afterwards an article of every id that store
    holds, and the first article of each id in its store is the one it held
    before, if it held one.  An answer longer than one read is cut
    ([delivered_cut]); when [json.loads] rejects the rest, [send_message]
    raises and the round skips that peer. *)
Theorem synchronize_round_catches_up (dumps : Rsp.t → string)
    (loads : string → option Rsp.t) (w : World Unified.Server) (i : nat)
    (peer : Unified.Server) (a : Article.t) :
  (i < length (peers (srv w)))%nat →
  net w (length (outbox w) + i)
  = Transport.delivered dumps loads (answer peer Msg.get_articles) →
  Transport.readable dumps loads
    (Rsp.articles_list (Unified.listing_of <$> Unified.articles peer)) →
  a ∈ Unified.articles peer →
  let w' := snd (Unified.synchronize_round w) in
  (∃ b, Unified.lookup_article (Article.id a) (Unified.articles (srv w')) = Some b) ∧
  ∀ b, Unified.lookup_article (Article.id a) (Unified.articles (srv w)) = Some b →
       Unified.lookup_article (Article.id a) (Unified.articles (srv w')) = Some b.
Proof.
  intros Hi Hreply Hreadable Ha w'.
  destruct (synchronize_round_store w) as (Hrun & Hheld & _). cbv zeta in Hrun, Hheld.
  subst w'. rewrite Hrun. cbn [snd with_calls with_articles srv Unified.articles
                                 Unified.set_articles].
  split.
  - destruct (Unified.lookup_article _ _) as [b|] eqn:Hlookup; [by eexists|].
    apply lookup_article_None in Hlookup. destruct Hlookup.
    apply (Hheld (Unified.listing_of a)).
    apply (listings_elem_of _ _ _ i); [done|].
    rewrite Hreply, answer_get_articles, delivered_readable by done.
    cbn [listed]. by apply list_elem_of_fmap_2.
  - intros b Hb. unfold Unified.lookup_article in *.
    generalize (Unified.of_listing <$>
                first_by Listing.id (Article.id <$> Unified.articles (srv w))
                  (listings (net w) (length (outbox w)) (length (peers (srv w))))).
    intros more. revert Hb. generalize (Unified.articles (srv w)).
    induction l as [|x l IH]; [done|]. cbn.
    destruct (bool_decide _); [done|apply IH].
Qed.

Lemma synchronize_round_catches_up_witness :
  let a := Article.mk 7 None "T" "C" None None in
  let peer := Unified.set_articles [a] (Unified.init "s2" 5002 s1 [s1; s2] "quorum" 2 1 2 false) in
  let reply := Rsp.articles_list [Listing.mk 7 None "T" (Some "C")] in
  let dumps := λ _ : Rsp.t, "r" in
  let loads := λ _ : string, Some reply in
  let w := boot (Unified.init "s1" 5001 s1 [s1; s2] "quorum" 2 1 2 true)
             [Transport.delivered dumps loads (answer peer Msg.get_articles)] [] in
  ∃ b, Unified.lookup_article 7 (Unified.articles (srv (snd (Unified.synchronize_round w))))
       = Some b.
Proof.
  intros a peer reply dumps loads w.
  apply (synchronize_round_catches_up dumps loads w 0 peer a).
  - vm_compute. lia.
  - reflexivity.
  - split; [cbn; lia|]. split; reflexivity.
  - apply list_elem_of_here.
Defined.

(** ** What no message does *)

Lemma grown_from_refl (s : Unified.Server) : grown_from s s.
Proof. by repeat split. Qed.

(** X1.  Whatever the message and the mode, whether the handler returns or
    raises, [handle_message] leaves the configuration of the server as
    [__init__] set it, keeps every stored article in its place and unchanged
    (the store only grows at its end), and never lowers [next_article_id]; on
    a server that is not the coordinator [next_article_id] does not change at
    all, and outside Read-Your-Writes mode the session counters do not
    either. *)
Theorem handle_message_grows (w : World Unified.Server) (message : Msg.t) :
  grown_from (srv w) (srv (snd (Unified.handle_message message w))).
Proof.
  set (s0 := srv w).
  pose proof (updates_handle_message (grown_from s0) (Unified.consistency_model s0)
                (Unified.is_coordinator s0)) as Hupd.
  apply Hupd; [| | |by split; [apply grown_from_refl|]].
  - intros s a (Hconf & Hpre & Hnext & Hfix & Hcnt) _. repeat split; try done.
    all: cbn; by apply prefix_app_r.
  - intros s c v (Hconf & Hpre & Hnext & Hfix & Hcnt) Hmodel. repeat split; try done.
    all: intros Hne; by destruct Hne.
  - intros s (Hconf & Hpre & Hnext & Hfix & Hcnt) Hcoord. repeat split; try done.
    all: first [cbn; lia|intros Hno; rewrite Hcoord in Hno; discriminate Hno].
Qed.

(** X2.  Replication messages of another mode are refused.  Outside Quorum
    mode [write_article], outside Read-Your-Writes mode
    [request_missing_articles], [send_missing_articles] and [new_articles],
    and in Quorum mode [new_article] are answered "Invalid message type for
    this consistency model"; a message of a type that the server does not know
    is answered "Unknown message type".  In each case nothing is stored, sent
    or drawn. *)
Theorem foreign_messages_refused (w : World Unified.Server) (message : Msg.t) :
  let model := Unified.consistency_model (srv w) in
  match message with
  | Msg.write_article _ => model ≠ "quorum"
  | Msg.request_missing_articles _ _ | Msg.send_missing_articles _ | Msg.new_articles _ =>
      model ≠ "read_your_writes"
  | Msg.new_article _ _ => model = "quorum"
  | Msg.other _ => True
  | _ => False
  end →
  Unified.handle_message message w
  = (Returned (match message with
               | Msg.other _ => Rsp.error "Unknown message type"
               | _ => Rsp.error "Invalid message type for this consistency model"
               end), w).
Proof.
  intros model Hforeign. unfold Unified.handle_message. rewrite run_bind, run_self.
  fold model. destruct message; try done; try (by destruct (decide _)).
  rewrite Hforeign. reflexivity.
Qed.

Lemma foreign_messages_refused_witness :
  let w := boot (Unified.init "s1" 5001 s1 [s1; s2] "sequential" 3 2 2 true) [] [] in
  Unified.handle_message (Msg.write_article (Wire.mk 1 None "T" "C")) w
  = (Returned (Rsp.error "Invalid message type for this consistency model"), w).
Proof.
  intros w. apply (foreign_messages_refused w (Msg.write_article (Wire.mk 1 None "T" "C"))).
  discriminate.
Defined.

(** ** Framing on a connection *)

Lemma split_lines_cons (text rest : string) :
  one_line text = true →
  Connection.split_lines (text +:+ String Connection.newline rest)
  = text :: Connection.split_lines rest.
Proof.
  induction text as [|c text IH]; intros Hline;
    rewrite ?append_empty, ?append_cons; cbn [Connection.split_lines one_line] in *.
  - destruct (decide _) as [_|Hne]; [done|by destruct Hne].
  - apply andb_true_iff in Hline as [Hc Hline].
    apply negb_true_iff, bool_decide_eq_false in Hc.
    destruct (decide _); [done|]. by rewrite IH.
Qed.

Lemma split_lines_one (text : string) :
  one_line text = true → Connection.split_lines text = [text].
Proof.
  induction text as [|c text IH]; intros Hline;
    cbn [Connection.split_lines one_line] in *; [done|].
  apply andb_true_iff in Hline as [Hc Hline].
  apply negb_true_iff, bool_decide_eq_false in Hc.
  destruct (decide _); [done|]. by rewrite IH.
Qed.

Lemma split_lines_framed (texts : list string) (tail : string) :
  Forall (λ text, one_line text = true) texts →
  Connection.split_lines (Connection.framed texts +:+ tail)
  = texts ++ Connection.split_lines tail.
Proof.
  induction 1 as [|text texts Htext _ IH]; [done|].
  cbn [Connection.framed foldr]. fold (Connection.framed texts).
  rewrite append_assoc, append_cons. by rewrite split_lines_cons, IH.
Qed.

Section Framing.
Context (loads : string → option Msg.t) (dumps : Msg.t → string).

Lemma handle_messages_app (requests : list Msg.t) (more : list string) :
  Forall (λ m, loads (dumps m) = Some m ∧ dumps m ≠ EmptyString) requests →
  ∀ conn w,
  Connection.handle_messages loads ((dumps <$> requests) ++ more) conn w
  = match served requests conn w with
    | (Returned _, conn', w') => Connection.handle_messages loads more conn' w'
    | (Raised e, conn', w') => (Raised e, conn', w')
    end.
Proof.
  induction 1 as [|m requests [Hloads Hne] _ IH]; intros conn w; [done|].
  cbn [fmap list_fmap app Connection.handle_messages served].
  change (list_fmap _ _ dumps requests) with (dumps <$> requests).
  destruct (decide _); [done|]. rewrite Hloads.
  destruct (Unified.handle_message m w) as [[response|e] w']; [apply IH|done].
Qed.

(** X19.  Requests framed as this repository frames them are handled one by
    one.  When a chunk of data is made of texts that each end in a newline and
    hold none, and each text decodes to its request, [handle_connection]'s loop
    handles the requests in order, sends each response, and stops at the first
    handler that raises; the empty piece after the last newline is skipped. *)
Theorem framed_requests_served (requests : list Msg.t) (conn : list Rsp.t)
    (w : World Unified.Server) :
  Forall (λ m, loads (dumps m) = Some m ∧ dumps m ≠ EmptyString ∧ one_line (dumps m) = true)
         requests →
  Connection.handle_messages loads
    (Connection.split_lines (Connection.framed (dumps <$> requests))) conn w
  = served requests conn w.
Proof.
  intros Hall.
  rewrite <- (append_empty_r (Connection.framed (dumps <$> requests))).
  rewrite split_lines_framed.
  - rewrite handle_messages_app.
    + destruct (served requests conn w) as [[[[]|e] conn'] w']; [|done].
      cbn. by destruct (decide _).
    + eapply Forall_impl; [exact Hall|]. cbn. tauto.
  - apply Forall_fmap. eapply Forall_impl; [exact Hall|]. cbn. tauto.
Qed.

(** X20.  A request cut by the end of a chunk closes the connection.
    [handle_connection] keeps no buffer between two reads: when a chunk ends
    with the beginning of a request, a text that does not decode, the complete
    requests before it are handled, then the exception of the decoder ends the
    loop, and the chunks that follow, among them the rest of the request, are
    never handled. *)
Theorem cut_request_closes_connection (requests : list Msg.t) (fragment : string)
    (later : list string) (conn : list Rsp.t) (w : World Unified.Server) :
  Forall (λ m, loads (dumps m) = Some m ∧ dumps m ≠ EmptyString ∧ one_line (dumps m) = true)
         requests →
  fragment ≠ EmptyString → one_line fragment = true → loads fragment = None →
  Connection.handle_connection loads
    ((Connection.framed (dumps <$> requests) +:+ fragment) :: later) conn w
  = let '(_, conn', w') := served requests conn w in (conn', w').
Proof.
  intros Hall Hne Hline Hloads. cbn [Connection.handle_connection].
  destruct (decide _) as [Hempty|_].
  { destruct requests as [|m requests]; [done|].
    rewrite fmap_cons in Hempty. cbn [Connection.framed foldr] in Hempty.
    apply Forall_cons in Hall as [(_ & Hm & _) _].
    destruct (dumps m); [done|]. rewrite !append_cons in Hempty. discriminate Hempty. }
  rewrite split_lines_framed.
  - rewrite handle_messages_app, split_lines_one by
      (done || (eapply Forall_impl; [exact Hall|]; cbn; tauto)).
    destruct (served requests conn w) as [[[[]|e] conn'] w']; [|done].
    cbn. destruct (decide _); [done|]. by rewrite Hloads.
  - apply Forall_fmap. eapply Forall_impl; [exact Hall|]. cbn. tauto.
Qed.

End Framing.

(** ** The tree that a client displays *)












Lemma framed_requests_served_witness :
  let loads := λ text : string,
    if decide (text = "r") then Some Msg.read_articles
    else if decide (text = "g") then Some Msg.get_articles else None in
  let dumps := λ message : Msg.t,
    match message with Msg.read_articles => "r" | _ => "g" end in
  let w := boot (Unified.init "s1" 5001 s1 [s1] "sequential" 3 2 2 true) [] [] in
  Connection.handle_messages loads
    (Connection.split_lines
       (Connection.framed (dumps <$> [Msg.read_articles; Msg.get_articles]))) [] w
  = (Returned tt, [Rsp.articles_list []; Rsp.articles_list []], w).
Proof.
  intros loads dumps w.
  etrans; [apply (framed_requests_served loads dumps [Msg.read_articles; Msg.get_articles] [] w)
          |reflexivity].
  repeat (apply Forall_cons; split; [repeat split; done|]). apply Forall_nil_2.
Defined.

Lemma cut_request_closes_connection_witness :
  let loads := λ text : string,
    if decide (text = "r") then Some Msg.read_articles
    else if decide (text = "g") then Some Msg.get_articles else None in
  let dumps := λ message : Msg.t,
    match message with Msg.read_articles => "r" | _ => "g" end in
  let w := boot (Unified.init "s1" 5001 s1 [s1] "sequential" 3 2 2 true) [] [] in
  Connection.handle_connection loads
    [Connection.framed (dumps <$> [Msg.read_articles]) +:+ "{"; Connection.framed ["g"]] [] w
  = ([Rsp.articles_list []], w).
Proof.
  intros loads dumps w.
  etrans; [apply (cut_request_closes_connection loads dumps [Msg.read_articles] "{"
                    [Connection.framed ["g"]] [] w)|reflexivity]; try done.
  repeat (apply Forall_cons; split; [repeat split; done|]). apply Forall_nil_2.
Defined.

Lemma quorum_read_not_found_witness :
  let a := Article.mk 1 None "T" "C" None None in
  let w := boot (Unified.set_articles [a]
                   (Unified.init "s1" 5001 s1 [s1; s2] "quorum" 2 1 2 true)) [] [1]%nat in
  Unified.lookup_article 1 (Unified.articles (srv w)) = Some a ∧
  fst (Unified.handle_message (Msg.read_article_content 1) w)
  = Returned (Rsp.error "Article not found").
Proof.
  intros a w. split; [reflexivity|].
  apply (quorum_read_not_found w 1); [reflexivity|]. split.
  - vm_compute. intros Hin. apply list_elem_of_singleton in Hin. discriminate Hin.
  - intros i _. vm_compute. by destruct i as [|[|i]].
Defined.

(** ** [src/quorum/server.py]: quorums larger than the server list *)

(** X17.  [select_quorum] of the standalone Quorum server takes no minimum
    with the number of servers.  When [NW] exceeds the length of the server list,
    every write that the coordinator handles raises [ValueError] inside
    [random.sample], after the id was consumed: nothing is stored or sent, and
    no response is produced.  When [NR] exceeds it, so does every read. *)
Theorem standalone_oversized_quorum_raises (w : World Unified.Server) :
  let servers := Unified.server_addresses (srv w) in
  (Unified.is_coordinator (srv w) = true → (length servers < Unified.NW (srv w))%nat →
   ∀ p, Quorum.handle_message (Msg.post_article p) w
        = (Raised ValueError, with_srv w (allocate (srv w))) ∧
        Quorum.handle_message (Msg.reply_article p) w
        = (Raised ValueError, with_srv w (allocate (srv w)))) ∧
  ((length servers < Unified.NR (srv w))%nat →
   Quorum.handle_message Msg.read_articles w = (Raised ValueError, w) ∧
   ∀ article_id,
     Quorum.handle_message (Msg.read_article_content article_id) w = (Raised ValueError, w)).
Proof.
  intros servers. split.
  - intros Hcoord Hlt p.
    assert (∀ w1 : World Unified.Server,
              Unified.server_addresses (srv w1) = servers →
              Quorum.select_quorum (Unified.NW (srv w)) w1 = (Raised ValueError, w1)) as Hsel.
    { intros w1 Hs. apply standalone_select_quorum_raises. rewrite Hs. exact Hlt. }
    split; cbn [Quorum.handle_message].
    + unfold Quorum.handle_post_article. rewrite run_bind, run_self, Hcoord.
      rewrite run_bind, run_assign, run_bind, Hsel; done.
    + unfold Quorum.handle_reply_article. rewrite run_bind, run_self, Hcoord.
      rewrite run_bind, run_assign, run_bind, Hsel; done.
  - intros Hlt. split; [|intros article_id]; cbn [Quorum.handle_message].
    + unfold Quorum.handle_read_articles.
      by rewrite run_bind, run_self, run_bind, standalone_select_quorum_raises.
    + unfold Quorum.handle_read_article_content.
      by rewrite run_bind, run_self, run_bind, standalone_select_quorum_raises.
Qed.

(** ** The coordinator's counter *)

(** X6.  The coordinator hands out consecutive ids.  [n] requests
    [get_next_article_id] handled one after the other by a coordinator, in
    whatever mode, are answered with the ids from [next_article_id] on, each
    once, and leave the counter [n] higher; nothing else changes. *)
Theorem allocator_hands_out_consecutive_ids (n : nat) :
  ∀ (w : World Unified.Server) (conn : list Rsp.t),
  Unified.is_coordinator (srv w) = true →
  served (replicate n Msg.get_next_article_id) conn w
  = (Returned tt,
     conn ++ (Rsp.next_article_id <$> seqZ (Unified.next_article_id (srv w)) (Z.of_nat n)),
     with_srv w (Unified.set_next_article_id
                   (Unified.next_article_id (srv w) + Z.of_nat n) (srv w))).
Proof.
  induction n as [|n IH]; intros w conn Hcoord.
  - cbn [replicate served]. rewrite Z.add_0_r. cbn. rewrite app_nil_r.
    by destruct w as [[]].
  - cbn [replicate served]. unfold Unified.handle_message at 1.
    rewrite run_bind, run_self. unfold Unified.handle_get_next_article_id.
    rewrite run_bind, run_self, Hcoord, run_bind, run_assign. cbn [mret M_ret].
    rewrite IH by done. cbn [with_srv srv net outbox rng drawn
                              Unified.next_article_id Unified.set_next_article_id].
    rewrite (seqZ_cons _ (Z.of_nat (S n))) by lia.
    rewrite fmap_cons, <- app_assoc. cbn [app].
    replace (Z.pred (Z.of_nat (S n))) with (Z.of_nat n) by lia.
    replace (Z.succ (Unified.next_article_id (srv w)))
      with (Unified.next_article_id (srv w) + 1) by lia.
    replace (Unified.next_article_id (srv w) + Z.of_nat (S n))
      with (Unified.next_article_id (srv w) + 1 + Z.of_nat n) by lia.
    reflexivity.
Qed.

Lemma allocator_hands_out_consecutive_ids_witness :
  let w := boot (Unified.init "s1" 5001 s1 [s1; s2] "read_your_writes" 3 2 2 true) [] [] in
  fst (fst (served (replicate 3 Msg.get_next_article_id) [] w)) = Returned tt ∧
  snd (fst (served (replicate 3 Msg.get_next_article_id) [] w))
  = [Rsp.next_article_id 1; Rsp.next_article_id 2; Rsp.next_article_id 3].
Proof.
  intros w. rewrite (allocator_hands_out_consecutive_ids 3 w []); [|reflexivity].
  split; reflexivity.
Defined.

(** ** The store of the Sequential coordinator *)

Lemma StronglySorted_snoc (l : list Z) (y : Z) :
  StronglySorted Z.lt l → Forall (λ x, x < y) l → StronglySorted Z.lt (l ++ [y]).
Proof.
  induction 1 as [|x l Hsorted IH Hx]; intros Hall; cbn.
  - repeat constructor.
  - apply Forall_cons in Hall as [Hxy Hall]. constructor; [by apply IH|].
    apply Forall_app. split; [done|]. by apply Forall_singleton.
Qed.

Lemma coordinator_steps_ascending (s s' : Unified.Server) :
  sequential_coordinator s → 1 ≤ Unified.next_article_id s → allocated s →
  StronglySorted Z.lt (Article.id <$> Unified.articles s) →
  rtc coordinator_step s s' →
  StronglySorted Z.lt (Article.id <$> Unified.articles s').
Proof.
  intros Hseq Hpos Halloc Hsorted Hsteps.
  induction Hsteps as [s|s s1 s' Hstep Hsteps IH]; [done|].
  destruct (coordinator_step_invariant s s1 Hseq Hpos Halloc Hstep)
    as (Hseq1 & Hpos1 & Halloc1 & _).
  apply IH; try done.
  destruct (coordinator_step_cases s s1 Hseq Hstep)
    as [->|[->|(parent_id & title & content & ->)]]; try done.
  cbn. rewrite fmap_app. apply StronglySorted_snoc; [done|].
  destruct Halloc as [Hids _]. apply Forall_fmap.
  eapply Forall_impl; [exact Hids|]. cbn. intros a ?. lia.
Qed.

(** X5.  The store of the Sequential coordinator is in the order of its
    ids.  In every state that the coordinator reaches from its construction by
    handling messages other than [new_article], the stored ids are strictly
    ascending, and [read_articles] lists the articles in that order. *)
Theorem sequential_coordinator_lists_ascending (w : World Unified.Server) :
  coordinator_reachable (srv w) →
  ∃ l, Unified.handle_message Msg.read_articles w = (Returned (Rsp.articles_list l), w) ∧
       Listing.id <$> l = Article.id <$> Unified.articles (srv w) ∧
       StronglySorted Z.lt (Listing.id <$> l).
Proof.
  intros Hreach.
  destruct (coordinator_reachable_allocated (srv w) Hreach) as ([Hmodel _] & _ & _).
  destruct Hreach as (host & port & coord & addrs & N & NR & NW & Hsteps).
  apply coordinator_steps_ascending in Hsteps.
  - exists (Unified.summary_of <$> Unified.articles (srv w)).
    assert (Listing.id <$> (Unified.summary_of <$> Unified.articles (srv w))
            = Article.id <$> Unified.articles (srv w)) as Hids.
    { rewrite <- list_fmap_compose. done. }
    split; [|split; [done|by rewrite Hids]].
    unfold Unified.handle_message. rewrite run_bind, run_self.
    unfold Unified.handle_read_articles. rewrite run_bind, run_self.
    destruct (decide _) as [_|Hne]; [done|by destruct Hne].
  - by split.
  - done.
  - split; [apply Forall_nil_2|apply NoDup_nil_2].
  - constructor.
Qed.

Lemma sequential_coordinator_lists_ascending_witness :
  let s0 := Unified.init "s1" 5001 s1 [s1; s2] "sequential" 3 2 2 true in
  let post := Msg.post_article (Post.mk "X" 0 None "first" "A") in
  let reply := Msg.reply_article (Post.mk "X" 0 (Some 1) "second" "B") in
  let w1 := snd (Unified.handle_message post (boot s0 [] [])) in
  let w2 := snd (Unified.handle_message reply w1) in
  Unified.handle_message Msg.read_articles w2
  = (Returned (Rsp.articles_list
                 [Listing.mk 1 None "first" None; Listing.mk 2 (Some 1) "second" None]), w2) ∧
  StronglySorted Z.lt (Article.id <$> Unified.articles (srv w2)).
Proof.
  intros s0 post reply w1 w2.
  destruct (sequential_coordinator_lists_ascending w2) as (l & Hrun & Hids & Hsorted).
  { exists "s1", 5001, s1, [s1; s2], 3%nat, 2%nat, 2%nat.
    apply (rtc_l _ _ (srv w1)).
    - exists post. split; [reflexivity|]. exists (boot s0 [] []). by split.
    - apply (rtc_l _ _ (srv w2)); [|apply rtc_refl].
      exists reply. split; [reflexivity|]. exists w1. by split. }
  split; [reflexivity|]. by rewrite <- Hids.
Defined.

Lemma standalone_oversized_quorum_raises_witness :
  let w := boot (Unified.init "s1" 5001 s1 [s1] "quorum" 1 2 2 true) [] [] in
  Quorum.handle_message (Msg.post_article (Post.mk "X" 0 None "T" "C")) w
  = (Raised ValueError, with_srv w (allocate (srv w))) ∧
  Quorum.handle_message Msg.read_articles w = (Raised ValueError, w).
Proof.
  intros w. destruct (standalone_oversized_quorum_raises w) as [Hwrite Hread].
  assert (length (Unified.server_addresses (srv w)) < 2)%nat as Hlt by (vm_compute; lia).
  split.
  - exact (proj1 (Hwrite eq_refl Hlt (Post.mk "X" 0 None "T" "C"))).
  - exact (proj1 (Hread Hlt)).
Defined.

Lemma new_articles_keeps_distinct_witness :
  let w := boot (Unified.set_articles [Article.mk 1 None "T" "C" (Some "X") (Some 1)]
                   (Unified.init "s2" 5002 s1 [s2; s1] "read_your_writes" 3 2 2 false))
             [] [] in
  let message := [Tagged.mk 1 None "T" "C" "X" 1; Tagged.mk 2 None "U" "D" "X" 2;
                  Tagged.mk 2 None "U" "D" "X" 2] in
  NoDup (Article.id <$> Unified.articles (srv (snd (Unified.handle_new_articles message w)))).
Proof.
  intros w message. apply (new_articles_keeps_distinct w message).
  cbn. apply NoDup_singleton.
Defined.

Lemma read_articles_quorum_agreeing_witness :
  let w := boot (Unified.set_articles [Article.mk 1 None "one" "C" None None]
                   (Unified.init "s1" 5001 s1 [s1; s2] "quorum" 2 2 2 true))
             [Some (Rsp.articles_list [Listing.mk 2 (Some 1) "two" (Some "D");
                                       Listing.mk 1 None "one" (Some "C")])]
             [1; 0]%nat in
  fst (Unified.handle_read_articles_quorum w)
  = Returned (Rsp.articles_list [Listing.mk 1 None "one" None; Listing.mk 2 (Some 1) "two" None]).
Proof.
  intros w.
  etrans; [apply (read_articles_quorum_agreeing w [s2; s1]); [reflexivity|]|reflexivity].
  intros _ a x Ha Hx Hid.
  apply list_elem_of_singleton in Ha as ->.
  vm_compute in Hx.
  repeat (apply elem_of_cons in Hx as [->|Hx]); try done.
  by apply elem_of_nil in Hx.
Defined.

Lemma post_then_fetch_read_your_writes_witness :
  let coordinator := Unified.init "s1" 5001 s1 [s1; s2] "read_your_writes" 3 2 2 true in
  let w := boot (Unified.init "s2" 5002 s1 [s2; s1] "read_your_writes" 3 2 2 false)
             [answer coordinator Msg.get_next_article_id] [] in
  ∃ w',
    Unified.handle_message (Msg.post_article (Post.mk "X" 1 None "hello" "world")) w
    = (Returned (Rsp.post_success (Some 1)), w') ∧
    fst (Unified.handle_message (Msg.read_article_content 1) w')
    = Returned (Rsp.article_content (Wire.mk 1 None "hello" "world")).
Proof.
  intros coordinator w.
  apply (post_then_fetch_read_your_writes w
           (with_call w s1 Msg.get_next_article_id) (Post.mk "X" 1 None "hello" "world") 1);
    reflexivity.
Defined.

Lemma allocation_failure_unified_witness :
  let w := boot (Unified.init "s2" 5002 s1 [s2; s1] "read_your_writes" 3 2 2 false) [] [] in
  let w1 := with_call w s1 Msg.get_next_article_id in
  Unified.handle_post_article_read_your_writes (Post.mk "X" 1 None "T" "C") w
  = (Returned (Rsp.error "Failed to get article ID from coordinator"), w1) ∧
  srv w1 = srv w.
Proof.
  intros w w1.
  destruct (allocation_failure_unified w w1 (Post.mk "X" 1 None "T" "C")) as (Hpost & _ & Hsrv);
    [reflexivity|].
  split; [exact Hpost|exact Hsrv].
Defined.

(** ** [src/ryw/server.py]: articles stored without an id *)

Lemma standalone_lookup_unidentified (article_id : Z) (l : list Ryw.Article) (a : Ryw.Article) :
  Ryw.id a = None →
  Ryw.lookup_article article_id (l ++ [a]) = Ryw.lookup_article article_id l.
Proof.
  intros Hid. unfold Ryw.lookup_article. induction l as [|b l IH]; cbn.
  - rewrite Hid. by rewrite bool_decide_eq_false_2.
  - by destruct (bool_decide _).
Qed.

Lemma standalone_find_unidentified (l : list Ryw.Article) (a : Ryw.Article) :
  Ryw.id a = None →
  standalone_lookup None (l ++ [a]) = Some (default a (standalone_lookup None l)).
Proof.
  intros Hid. unfold standalone_lookup. induction l as [|b l IH]; cbn.
  - by rewrite bool_decide_eq_true_2.
  - by destruct (bool_decide _).
Qed.

(** X18.  On the standalone Read-Your-Writes server a write made while the
    coordinator cannot be reached is answered [post_success], and the article
    it stores has no id.  [read_articles] lists it, and no integer id fetches
    it: [read_article_content] with an integer [article_id], which is what the
    clients send, answers for every id what it answered before the write.  Only
    a [read_article_content] whose [article_id] is null or absent matches an
    article without id, [None == None], and is answered the first one stored:
    this one when the store held none before. *)
Theorem standalone_unidentified_article (w : World Ryw.Server) (p : Post.t) (reply : bool) :
  Ryw.is_coordinator (srv w) = false →
  net w (length (outbox w)) = None →
  let parent_id := if reply then Post.parent_id p else None in
  let r := Ryw.handle_message (if reply then Msg.reply_article p else Msg.post_article p) w in
  fst r = Returned (Some (Ryw.post_success None)) ∧
  fst (Ryw.handle_message Msg.read_articles (snd r))
  = Returned (Some (Ryw.articles_list
                      (((λ a, (Ryw.id a, Ryw.parent_id a, Ryw.title a)) <$> Ryw.articles (srv w))
                       ++ [(None, parent_id, Post.title p)]))) ∧
  (∀ article_id : Z,
     Ryw.handle_read_article_content article_id
     = standalone_read_article_content (Some article_id) ∧
     fst (Ryw.handle_message (Msg.read_article_content article_id) (snd r))
     = fst (Ryw.handle_message (Msg.read_article_content article_id) w)) ∧
  fst (standalone_read_article_content None (snd r))
  = Returned
      (Ryw.article_content
         match standalone_lookup None (Ryw.articles (srv w)) with
         | Some a => (Ryw.id a, Ryw.parent_id a, Ryw.title a, Ryw.content a)
         | None => (None, parent_id, Post.title p, Post.content p)
         end).
Proof.
  intros Hcoord Hnet parent_id r.
  assert (Ryw.get_next_article_id w
          = (Returned None, with_call w (Ryw.coordinator_address (srv w)) Msg.get_next_article_id))
    as Hid.
  { unfold Ryw.get_next_article_id. rewrite run_bind, run_self, Hcoord.
    unfold try_except. rewrite run_bind. unfold send_message. by rewrite Hnet. }
  set (a := Ryw.mkArticle None parent_id (Post.title p) (Post.content p)
              (Post.client_id p) (Post.write_counter p)).
  assert (fst r = Returned (Some (Ryw.post_success None)) ∧
          Ryw.articles (srv (snd r)) = Ryw.articles (srv w) ++ [a]) as [Hfst Harts].
  { subst r. destruct reply; cbn [Ryw.handle_message].
    - unfold fmap, M_fmap, Ryw.handle_reply_article. rewrite !run_bind, Hid. by split.
    - unfold fmap, M_fmap, Ryw.handle_post_article. rewrite !run_bind, Hid. by split. }
  split; [done|]. split; [|split].
  - cbn [Ryw.handle_message]. unfold fmap at 1, M_fmap, Ryw.handle_read_articles.
    rewrite !run_bind, run_self, Harts, fmap_app. reflexivity.
  - intros article_id. split; [reflexivity|]. cbn [Ryw.handle_message].
    unfold fmap, M_fmap, Ryw.handle_read_article_content.
    rewrite !run_bind, !run_self, Harts, standalone_lookup_unidentified by done.
    by destruct (Ryw.lookup_article _ _).
  - unfold standalone_read_article_content.
    rewrite run_bind, run_self, Harts, standalone_find_unidentified by done.
    by destruct (standalone_lookup _ _).
Qed.

Lemma standalone_unidentified_article_witness :
  let w := boot (Ryw.init "s2" 5002 s1 [s2; s1] false) [] [] in
  let r := Ryw.handle_message (Msg.post_article (Post.mk "X" 1 None "T" "C")) w in
  fst r = Returned (Some (Ryw.post_success None)) ∧
  fst (Ryw.handle_message Msg.read_articles (snd r))
  = Returned (Some (Ryw.articles_list [(None, None, "T")])) ∧
  fst (Ryw.handle_message (Msg.read_article_content 1) (snd r))
  = Returned (Some (Ryw.error "Article not found")) ∧
  fst (standalone_read_article_content None (snd r))
  = Returned (Ryw.article_content (None, None, "T", "C")).
Proof.
  intros w r.
  destruct (standalone_unidentified_article w (Post.mk "X" 1 None "T" "C") false)
    as (Hfst & Hlist & Hint & Hnull); [reflexivity..|].
  split; [exact Hfst|]. split; [exact Hlist|]. split; [|exact Hnull].
  etrans; [exact (proj2 (Hint 1))|reflexivity].
Defined.

(** ** Quorum mode: the whole outcome of a write *)

Lemma collect_acknowledgments_outcome (article : Article.t) (write_quorum : list address)
    (w : World Unified.Server) :
  ∃ acknowledgments,
    Unified.collect_acknowledgments article write_quorum w
    = (Returned acknowledgments,
       with_calls
         (with_articles w
            (Unified.articles (srv w)
             ++ replicate (length (filter (λ addr, addr = Unified.me (srv w)) write_quorum))
                  article))
         (calls (filter (λ addr, addr ≠ Unified.me (srv w)) write_quorum)
            (Msg.write_article (Unified.wire_of article)))) ∧
    length acknowledgments = acknowledged w write_quorum.
Proof.
  unfold Unified.collect_acknowledgments.
  destruct (collect_acknowledgments_world article (Unified.me (srv w)) write_quorum [] w
              eq_refl) as (acks & Hworld).
  destruct (collect_acknowledgments_length article write_quorum [] w)
    as (acks' & w' & Hrun & Hlen).
  rewrite Hworld in Hrun. injection Hrun as <- _.
  exists acks. by split.
Qed.

(** The whole outcome of a Quorum write, response and state, for both files.
    A write that the coordinator handles consumes the id, draws the quorum, appends the article once for each time
    the own address is in the quorum, sends [write_article] to each other
    member in the order drawn, and answers [post_success] with the id exactly
    when the own copies and the [write_ack] replies to those calls number at
    least [NW], "Failed to write to quorum" otherwise.  [src/server.py] draws
    [min(NW, len(server_addresses))] servers; [src/quorum/server.py] draws [NW]
    and, when there are fewer servers, raises [ValueError] in [random.sample]
    with the id consumed and nothing else done: no response. *)
Lemma quorum_write_outcome (w : World Unified.Server) (p : Post.t) (reply : bool) :
  Unified.is_coordinator (srv w) = true →
  let s := srv w in
  let article_id := Unified.next_article_id s in
  let parent_id := if reply then Post.parent_id p else None in
  let article := Article.mk article_id parent_id (Post.title p) (Post.content p) None None in
  let servers := Unified.server_addresses s in
  let outcome (k : nat) : result Rsp.t * World Unified.Server :=
    let write_quorum := picks servers k (rng w) (drawn w) in
    let own := filter (λ addr, addr = Unified.me s) write_quorum in
    let others := filter (λ addr, addr ≠ Unified.me s) write_quorum in
    (Returned (if decide (Unified.NW s ≤ acknowledged w write_quorum)%nat
               then Rsp.post_success (Some article_id)
               else Rsp.error "Failed to write to quorum"),
     mkWorld (Unified.set_articles (Unified.articles s ++ replicate (length own) article)
                (allocate s))
             (net w)
             (outbox w ++ calls others (Msg.write_article (Unified.wire_of article)))
             (rng w) (drawn w + k)) in
  let message := if reply then Msg.reply_article p else Msg.post_article p in
  (Unified.consistency_model s = "quorum" →
   Unified.handle_message message w = outcome (Unified.NW s `min` length servers)%nat) ∧
  Quorum.handle_message message w
  = if decide (Unified.NW s ≤ length servers)%nat
    then outcome (Unified.NW s)
    else (Raised ValueError, with_srv w (allocate s)).
Proof.
  intros Hcoord s article_id parent_id article servers outcome message.
  set (w0 := with_srv w (allocate s)).
  assert (∀ k,
            (acknowledgments ←
               Unified.collect_acknowledgments article (picks servers k (rng w) (drawn w));
             if decide (Unified.NW s ≤ length acknowledgments)%nat
             then mret (Rsp.post_success (Some article_id))
             else mret (Rsp.error "Failed to write to quorum")) (advance w0 k)
            = outcome k) as Htail.
  { intros k. rewrite run_bind.
    destruct (collect_acknowledgments_outcome article (picks servers k (rng w) (drawn w))
                (advance w0 k)) as (acks & -> & Hlen).
    rewrite Hlen, (acknowledged_same w (advance w0 k)) by done.
    unfold outcome. by destruct (decide _). }
  assert ((assign (Unified.set_next_article_id (article_id + 1)) ;;
           write_quorum ← Unified.select_quorum (Unified.NW s);
           acknowledgments ← Unified.collect_acknowledgments article write_quorum;
           if decide (Unified.NW s ≤ length acknowledgments)%nat
           then mret (Rsp.post_success (Some article_id))
           else mret (Rsp.error "Failed to write to quorum")) w
          = outcome (Unified.NW s `min` length servers)%nat) as Hunified.
  { rewrite run_bind, run_assign, run_bind, unified_select_quorum_run.
    exact (Htail _). }
  assert ((assign (Unified.set_next_article_id (article_id + 1)) ;;
           write_quorum ← Quorum.select_quorum (Unified.NW s);
           acknowledgments ← Unified.collect_acknowledgments article write_quorum;
           if decide (Unified.NW s ≤ length acknowledgments)%nat
           then mret (Rsp.post_success (Some article_id))
           else mret (Rsp.error "Failed to write to quorum")) w
          = if decide (Unified.NW s ≤ length servers)%nat
            then outcome (Unified.NW s)
            else (Raised ValueError, w0)) as Hstandalone.
  { rewrite run_bind, run_assign, run_bind, standalone_select_quorum_run.
    change (Unified.server_addresses (srv (with_srv w _))) with servers.
    destruct (decide _); [exact (Htail _)|done]. }
  split.
  - intros Hmodel. unfold Unified.handle_message. rewrite run_bind, run_self.
    subst message. destruct reply.
    + unfold Unified.handle_reply_article. rewrite run_bind, run_self.
      fold s. rewrite Hmodel. cbn [decide].
      destruct (decide ("quorum" = "sequential")) as [?|_]; [discriminate|].
      destruct (decide ("quorum" = "read_your_writes")) as [?|_]; [discriminate|].
      destruct (decide ("quorum" = "quorum")) as [_|?]; [|congruence].
      unfold Unified.handle_reply_article_quorum. rewrite run_bind, run_self, Hcoord.
      exact Hunified.
    + unfold Unified.handle_post_article. rewrite run_bind, run_self.
      fold s. rewrite Hmodel. cbn [decide].
      destruct (decide ("quorum" = "sequential")) as [?|_]; [discriminate|].
      destruct (decide ("quorum" = "read_your_writes")) as [?|_]; [discriminate|].
      destruct (decide ("quorum" = "quorum")) as [_|?]; [|congruence].
      unfold Unified.handle_post_article_quorum. rewrite run_bind, run_self, Hcoord.
      exact Hunified.
  - subst message. destruct reply; cbn [Quorum.handle_message].
    + unfold Quorum.handle_reply_article. rewrite run_bind, run_self, Hcoord.
      exact Hstandalone.
    + unfold Quorum.handle_post_article. rewrite run_bind, run_self, Hcoord.
      exact Hstandalone.
Qed.

Lemma quorum_write_outcome_witness :
  let w := boot (Unified.init "s1" 5001 s1 [s1; s2; s3] "quorum" 3 2 2 true)
             [Some Rsp.write_ack] [0; 1]%nat in
  let post := Msg.post_article (Post.mk "X" 0 None "T" "C") in
  fst (Unified.handle_message post w) = Returned (Rsp.post_success (Some 1)) ∧
  Unified.articles (srv (snd (Unified.handle_message post w)))
  = [Article.mk 1 None "T" "C" None None] ∧
  outbox (snd (Unified.handle_message post w))
  = [(s2, Msg.write_article (Wire.mk 1 None "T" "C"))] ∧
  Quorum.handle_message post w = Unified.handle_message post w.
Proof.
  intros w post.
  destruct (quorum_write_outcome w (Post.mk "X" 0 None "T" "C") false eq_refl)
    as [Hunified Hstandalone].
  cbv zeta iota in Hunified, Hstandalone. fold post in Hunified, Hstandalone.
  rewrite Hstandalone, (Hunified eq_refl). repeat split; reflexivity.
Defined.

(** C1.  In Quorum mode a write handled by the coordinator is to be answered
    [post_success] with the allocated id when the acknowledgments number at
    least [NW], and the error "Failed to write to quorum" otherwise.
    [src/quorum/server.py] on a configuration that lists one server and leaves
    [NW] at its default 2 does neither: for a post and for a reply the handler
    raises [ValueError] in [random.sample], with the id consumed and nothing
    written or sent, and [handle_connection] closes the connection without a
    response.  [src/server.py] on the same configuration answers the error. *)
Lemma quorum_write_raises_standalone :
  let w := boot (Unified.init "s1" 5001 s1 [s1] "quorum" 1 2 2 true) [] [] in
  let post := Msg.post_article (Post.mk "X" 0 None "T" "C") in
  let reply := Msg.reply_article (Post.mk "X" 0 (Some 1) "T" "C") in
  Quorum.handle_message post w = (Raised ValueError, with_srv w (allocate (srv w))) ∧
  Quorum.handle_message reply w = (Raised ValueError, with_srv w (allocate (srv w))) ∧
  fst (Unified.handle_message post w) = Returned (Rsp.error "Failed to write to quorum") ∧
  fst (Unified.handle_message reply w) = Returned (Rsp.error "Failed to write to quorum").
Proof. repeat split; reflexivity. Qed.
